(** * Story-Mode-AI: orchestration, clip generation and playback

    A shallow embedding of [src/services/gemini.service.ts] (the
    [GeminiService]) and of the root component ([AppComponent]: signals,
    [generateStory], [playStory], [handleVideoEnded], [startOver]), with the
    properties of the pipeline stated over it.

    Conventions
    - a JavaScript [number] is the type [number] below: a rational, meant to
      be a double, or one of the three non-finite values; [+], [-], [*] and
      [/] round their exact result to the nearest double as IEEE 754 does,
      and rationals are kept reduced so that equal numbers are equal terms;
    - a string is held as its UTF-8 bytes;
    - [async] methods are computations in a state-and-exception monad; an
      [await] is a bind, a rejected promise is [Threw], and [Pending] is a
      promise that has not settled within the modelled horizon;
    - everything the code cannot decide itself (the SDK's replies, the clock,
      the file reader, the download) is read from an [External] record. *)

From Stdlib Require Import List String Ascii Bool Arith ZArith QArith Qround Qminmax Lia.
From Stdlib Require Import DecimalString.
Import ListNotations.
Open Scope string_scope.
Open Scope nat_scope.

(* ================================================================== *)
(** ** JavaScript numbers *)

Module JS.

(** The shapes of an IEEE 754 double the code can tell apart. A finite
    value is a rational; the two zeros are not told apart ([Fin 0] stands
    for both). *)
Inductive number : Type :=
| Fin (q : Q)
| PInf
| NInf
| NaN.

Definition of_Z (z : Z) : number := Fin (inject_Z z).
Definition of_nat (n : nat) : number := of_Z (Z.of_nat n).

(** *** Rounding to a double *)

(** The integer nearest to [n / d], a tie going to the even one ([d > 0]). *)
Definition nearest_even (n d : Z) : Z :=
  let (q, r) := Z.div_eucl n d in
  match (2 * r ?= d)%Z with
  | Lt => q
  | Gt => (q + 1)%Z
  | Eq => if Z.even q then q else (q + 1)%Z
  end.

(** [d * 2^e <= a], for any sign of [e]. *)
Definition scaled_le (d a e : Z) : bool :=
  if (0 <=? e)%Z then (d * 2 ^ e <=? a)%Z else (d <=? a * 2 ^ (- e))%Z.

(** The [e] with [2^e <= a / d < 2^(e+1)], for positive [a] and [d]. *)
Definition binade (a d : Z) : Z :=
  let e := (Z.log2 a - Z.log2 d)%Z in
  if scaled_le d a e then e else (e - 1)%Z.

(** The double nearest to [a / d], negated if [negative]: 53 bits of
    mantissa, a spacing never below [2^-1074], ties to the even mantissa,
    and an infinity from [2^1024] on. *)
Definition nearest_double (negative : bool) (a d : Z) : number :=
  let p := Z.max (binade a d - 52) (-1074) in
  let m := if (0 <=? p)%Z then nearest_even a (d * 2 ^ p)
           else nearest_even (a * 2 ^ (- p)) d in
  let m := if negative then (- m)%Z else m in
  if (0 <=? p)%Z then
    if (2 ^ 1024 <=? Z.abs m * 2 ^ p)%Z then (if negative then NInf else PInf)
    else Fin (inject_Z (m * 2 ^ p))
  else Fin (Qred (m # Z.to_pos (2 ^ (- p)))).

(** The value an arithmetic operation returns when its exact result is
    [q]. *)
Definition to_double (q : Q) : number :=
  let r := Qred q in
  match Qnum r with
  | Z0 => Fin 0
  | Zpos a => nearest_double false (Zpos a) (Zpos (Qden r))
  | Zneg a => nearest_double true (Zpos a) (Zpos (Qden r))
  end.

(** *** Operators *)

Definition neg (x : number) : number :=
  match x with
  | Fin q => Fin (Qred (- q))
  | PInf => NInf
  | NInf => PInf
  | NaN => NaN
  end.

(** [x + y] *)
Definition add (x y : number) : number :=
  match x, y with
  | NaN, _ | _, NaN => NaN
  | Fin a, Fin b => to_double (a + b)
  | PInf, NInf | NInf, PInf => NaN
  | PInf, _ | _, PInf => PInf
  | NInf, _ | _, NInf => NInf
  end.

(** [x - y] *)
Definition sub (x y : number) : number := add x (neg y).

Definition sign_of (q : Q) : comparison := (Qnum q ?= 0)%Z.

(** [x * y] *)
Definition mul (x y : number) : number :=
  let inf_times (positive : bool) (q : Q) :=
    match sign_of q with
    | Eq => NaN
    | Gt => if positive then PInf else NInf
    | Lt => if positive then NInf else PInf
    end in
  match x, y with
  | NaN, _ | _, NaN => NaN
  | Fin a, Fin b => to_double (a * b)
  | PInf, Fin b => inf_times true b
  | NInf, Fin b => inf_times false b
  | Fin a, PInf => inf_times true a
  | Fin a, NInf => inf_times false a
  | PInf, PInf | NInf, NInf => PInf
  | PInf, NInf | NInf, PInf => NInf
  end.

(** [x / y]: a finite dividend over zero is an infinity, [0 / 0] is [NaN]. *)
Definition div (x y : number) : number :=
  match x, y with
  | NaN, _ | _, NaN => NaN
  | Fin a, Fin b =>
      match sign_of b with
      | Eq => match sign_of a with Eq => NaN | Gt => PInf | Lt => NInf end
      | _ => to_double (a / b)
      end
  | Fin _, (PInf | NInf) => Fin 0
  | (PInf | NInf), (PInf | NInf) => NaN
  | PInf, Fin b => match sign_of b with Lt => NInf | _ => PInf end
  | NInf, Fin b => match sign_of b with Lt => PInf | _ => NInf end
  end.

(** [x === y] on numbers. *)
Definition strict_eq (x y : number) : bool :=
  match x, y with
  | Fin a, Fin b => Qeq_bool a b
  | PInf, PInf | NInf, NInf => true
  | _, _ => false
  end.

(** [x < y]; any comparison with [NaN] is false. *)
Definition lt (x y : number) : bool :=
  match x, y with
  | NaN, _ | _, NaN => false
  | Fin a, Fin b => negb (Qle_bool b a)
  | NInf, NInf | PInf, _ => false
  | NInf, _ => true
  | Fin _, PInf => true
  | Fin _, NInf => false
  end.

(** [Math.round]: the nearest integer, a tie going up. *)
Definition Math_round (x : number) : number :=
  match x with
  | Fin q => of_Z (Qfloor (q + (1 # 2)))
  | other => other
  end.

(** [Math.min(x, y)] and [Math.max(x, y)]: [NaN] if either argument is. *)
Definition Math_min (x y : number) : number :=
  match x, y with
  | NaN, _ | _, NaN => NaN
  | _, _ => if lt y x then y else x
  end.

Definition Math_max (x y : number) : number :=
  match x, y with
  | NaN, _ | _, NaN => NaN
  | _, _ => if lt x y then y else x
  end.

(** Template-literal rendering of array lengths, indices and timestamps. *)
Definition nat_to_string (n : nat) : string :=
  NilZero.string_of_uint (Nat.to_uint n).
Definition Z_to_string (z : Z) : string :=
  NilZero.string_of_int (Z.to_int z).

End JS.

Import JS.

Example round_half_up : Math_round (Fin (5 # 2)) = of_Z 3.
Proof. reflexivity. Qed.

Example round_negative_half : Math_round (Fin (- 5 # 2)) = of_Z (-2).
Proof. reflexivity. Qed.

Example div_zero_by_zero : div (of_Z 0) (of_Z 0) = NaN.
Proof. reflexivity. Qed.

Example backoff_step : Math_min (mul (of_Z 5000) (Fin (3 # 2))) (of_Z 15000) = of_Z 7500.
Proof. vm_compute. reflexivity. Qed.

(** Doubles, written as the rationals they are. *)
Definition one_tenth : Q := 3602879701896397 # 36028797018963968.          (* 0.1 *)
Definition five_point_six : Q := 3152519739159347 # 562949953421312.       (* 5.6 *)

(** [1 / 3] is the double 0.3333333333333333, and [1 / 3 * 100] the double
    33.33333333333333; [5.6 - 0.1] is 5.5 exactly, which is not the
    difference of the two rationals; and a large product overflows. *)
Example rounded_results :
  div (of_Z 1) (of_Z 3) = Fin (6004799503160661 # 18014398509481984)
  /\ mul (div (of_Z 1) (of_Z 3)) (of_Z 100) = Fin (2345624805922133 # 70368744177664)
  /\ sub (Fin five_point_six) (Fin one_tenth) = Fin (11 # 2)
  /\ ~ (five_point_six - one_tenth == 11 # 2)%Q
  /\ mul (Fin (2 ^ 1000)) (Fin (2 ^ 1000)) = PInf
  /\ add (Fin (2 ^ 53)) (of_Z 1) = Fin (2 ^ 53).
Proof. vm_compute. repeat split. discriminate. Qed.

(* ================================================================== *)
(** ** Data model ([src/models/story.model.ts]) *)

(** A browser [File]: its name, its MIME type, and what a [FileReader]
    obtains from [readAsDataURL] ([None]: the reader fires [onerror]). *)
Record File : Type := {
  file_name : string;
  file_type : string;
  file_dataURL : option string
}.

Record VideoSegment : Type := {
  topicSummary : string;
  videoPrompt : string;
  characterId : option string;
  startTime : number;
  endTime : number
}.

Record GeneratedClip : Type := {
  segment : VideoSegment;
  blobUrl : string
}.

Record Progress : Type := {
  stage : string;
  total : number;
  current : number;
  message : string
}.

Record Character : Type := {
  id : string;
  name : string;
  description : string;
  photoUrl : string;
  photoFile : option File
}.

(* ================================================================== *)
(** ** Thrown values, promises and the computation monad *)

(** What a [catch] clause can receive: an [Error] with its message, or any
    other value, kept as the text [String(value)] gives. *)
Inductive Thrown : Type :=
| ErrorObj (msg : string)
| NonError (text : string).

(** [error instanceof Error ? error.message : String(error)] *)
Definition message_of (error : Thrown) : string :=
  match error with
  | ErrorObj msg => msg
  | NonError text => text
  end.

(** The event a [FileReader] passes to [onerror]. *)
Definition ProgressEvent : Thrown := NonError "[object ProgressEvent]".

(** A settled promise of the outside world. *)
Inductive Settled (A : Type) : Type :=
| Fulfilled (a : A)
| Rejected (e : Thrown).
Arguments Fulfilled {A} a.
Arguments Rejected {A} e.

Inductive Outcome (A : Type) : Type :=
| Returned (a : A)
| Threw (e : Thrown)
| Pending.
Arguments Returned {A} a.
Arguments Threw {A} e.
Arguments Pending {A}.

Definition M (St A : Type) : Type := St -> Outcome A * St.

Section Monad.
Context {St : Type}.

Definition ret {A} (a : A) : M St A := fun s => (Returned a, s).

Definition bind {A B} (m : M St A) (k : A -> M St B) : M St B :=
  fun s =>
    match m s with
    | (Returned a, s') => k a s'
    | (Threw e, s') => (Threw e, s')
    | (Pending, s') => (Pending, s')
    end.

Definition throw {A} (e : Thrown) : M St A := fun s => (Threw e, s).

Definition pending {A} : M St A := fun s => (Pending, s).

(** [try { m } catch (error) { handler error }] *)
Definition try_catch {A} (m : M St A) (handler : Thrown -> M St A) : M St A :=
  fun s =>
    match m s with
    | (Threw e, s') => handler e s'
    | other => other
    end.

Definition gets {A} (f : St -> A) : M St A := fun s => (Returned (f s), s).

Definition modify (f : St -> St) : M St unit := fun s => (Returned tt, f s).

(** A settled reply of the outside world, awaited. *)
Definition await {A} (reply : Settled A) : M St A :=
  match reply with
  | Fulfilled a => ret a
  | Rejected e => throw e
  end.
End Monad.

Declare Scope monad_scope.
Delimit Scope monad_scope with monad.
Notation "x <- m ;; k" := (bind m (fun x => k))
  (at level 61, m at next level, right associativity) : monad_scope.
Notation "m ;; k" := (bind m (fun _ => k))
  (at level 61, right associativity) : monad_scope.
Open Scope monad_scope.

(* ================================================================== *)
(** ** The outside world *)

(** [operation] as the SDK returns it: [done], [error?.message] and
    [response?.generatedVideos?.[0]?.video?.uri]. *)
Record Operation : Type := {
  done : bool;
  operation_error : option string;
  video_uri : option string
}.

(** The [Response] of [fetch]: [ok], [statusText], and what [blob()]
    settles to (the bytes are kept as text). *)
Record Response : Type := {
  ok : bool;
  statusText : string;
  blob : Settled string
}.

(** Replies are indexed by how many calls of the same kind came before. *)
Record External : Type := {
  env_API_KEY : option string;                          (* process.env.API_KEY *)
  models_generateContent : nat -> Settled string;             (* response.text *)
  JSON_parse : string -> Settled (list VideoSegment);
  models_generateVideos : nat -> Settled Operation;
  operations_getVideosOperation : nat -> Settled Operation;
  Date_now : nat -> Z;
  fetch_reply : nat -> Settled Response
}.

Record InlineData : Type := {
  data : option string;
  mimeType : string
}.

Record ImagePart : Type := {
  imageBytes : option string;
  image_mimeType : string
}.

(** The argument of [ai.models.generateVideos]. *)
Record VideoRequest : Type := {
  model : string;
  prompt : string;
  image : option ImagePart;
  numberOfVideos : nat;
  aspectRatio : string;
  durationSeconds : number;
  personGeneration : string
}.

(** What leaves the page, in the order it happens. The two
    [generateVideoClip] markers are ghost events: the orchestrator writes
    them when it calls the generator and when that call's promise settles. *)
Inductive Event : Type :=
| GenerateContent (apiKey : option string) (content_model : string)
                  (instruction : string) (audio : InlineData)
| GenerateVideos (apiKey : string) (request : VideoRequest)
| SetTimeout (ms : number)
| GetVideosOperation (apiKey : string) (operation : Operation)
| Fetch (url : string)
| ClipInvoked (index : nat) (seg : VideoSegment) (photo : option File)
| ClipSettled (index : nat) (result : Outcome string).

Record World : Type := {
  ext : External;
  n_content : nat;
  n_videos : nat;
  n_poll : nat;
  n_clock : nat;
  n_fetch : nat;
  events : list Event;
  objectURLs : list string;               (* blob URLs created, none revoked *)
  service_progress : option Progress            (* GeminiService.progress *)
}.

Definition initial_world (x : External) : World :=
  {| ext := x; n_content := 0; n_videos := 0; n_poll := 0; n_clock := 0;
     n_fetch := 0; events := []; objectURLs := []; service_progress := None |}.

Definition emit (e : Event) (w : World) : World :=
  {| ext := ext w; n_content := n_content w; n_videos := n_videos w;
     n_poll := n_poll w; n_clock := n_clock w; n_fetch := n_fetch w;
     events := events w ++ [e]; objectURLs := objectURLs w;
     service_progress := service_progress w |}.

Definition set_service_progress (p : option Progress) (w : World) : World :=
  {| ext := ext w; n_content := n_content w; n_videos := n_videos w;
     n_poll := n_poll w; n_clock := n_clock w; n_fetch := n_fetch w;
     events := events w; objectURLs := objectURLs w;
     service_progress := p |}.

Definition tick_content (w : World) : World :=
  {| ext := ext w; n_content := S (n_content w); n_videos := n_videos w;
     n_poll := n_poll w; n_clock := n_clock w; n_fetch := n_fetch w;
     events := events w; objectURLs := objectURLs w;
     service_progress := service_progress w |}.

Definition tick_videos (w : World) : World :=
  {| ext := ext w; n_content := n_content w; n_videos := S (n_videos w);
     n_poll := n_poll w; n_clock := n_clock w; n_fetch := n_fetch w;
     events := events w; objectURLs := objectURLs w;
     service_progress := service_progress w |}.

Definition tick_poll (w : World) : World :=
  {| ext := ext w; n_content := n_content w; n_videos := n_videos w;
     n_poll := S (n_poll w); n_clock := n_clock w; n_fetch := n_fetch w;
     events := events w; objectURLs := objectURLs w;
     service_progress := service_progress w |}.

Definition tick_clock (w : World) : World :=
  {| ext := ext w; n_content := n_content w; n_videos := n_videos w;
     n_poll := n_poll w; n_clock := S (n_clock w); n_fetch := n_fetch w;
     events := events w; objectURLs := objectURLs w;
     service_progress := service_progress w |}.

Definition tick_fetch (w : World) : World :=
  {| ext := ext w; n_content := n_content w; n_videos := n_videos w;
     n_poll := n_poll w; n_clock := n_clock w; n_fetch := S (n_fetch w);
     events := events w; objectURLs := objectURLs w;
     service_progress := service_progress w |}.

Definition add_objectURL (url : string) (w : World) : World :=
  {| ext := ext w; n_content := n_content w; n_videos := n_videos w;
     n_poll := n_poll w; n_clock := n_clock w; n_fetch := n_fetch w;
     events := events w; objectURLs := objectURLs w ++ [url];
     service_progress := service_progress w |}.

(** [Date.now()] *)
Definition now : M World Z :=
  fun w => (Returned (Date_now (ext w) (n_clock w)), tick_clock w).

(** [URL.createObjectURL(blob)]: a handle no earlier call has returned. *)
Definition createObjectURL : M World string :=
  fun w =>
    let url := "blob:" ++ nat_to_string (List.length (objectURLs w)) in
    (Returned url, add_objectURL url w).

(** [URL.revokeObjectURL(url)], the release of a handle. Neither the
    service nor the component calls it. *)
Definition revokeObjectURL (url : string) : M World unit :=
  modify (fun w =>
    {| ext := ext w; n_content := n_content w; n_videos := n_videos w;
       n_poll := n_poll w; n_clock := n_clock w; n_fetch := n_fetch w;
       events := events w;
       objectURLs := filter (fun u => negb (String.eqb u url)) (objectURLs w);
       service_progress := service_progress w |}).

(** [await new Promise(resolve => setTimeout(resolve, wait))] *)
Definition sleep (wait : number) : M World unit := modify (emit (SetTimeout wait)).

(* ================================================================== *)
(** ** String helpers of the service *)

Definition newline : string := String (ascii_of_nat 10) EmptyString.

(** [s.split(sep)] for a one-character separator. *)
Fixpoint split (sep : ascii) (s : string) : list string :=
  match s with
  | EmptyString => [EmptyString]
  | String c rest =>
      if Ascii.eqb c sep then EmptyString :: split sep rest
      else match split sep rest with
           | head :: tail => String c head :: tail
           | [] => [String c EmptyString]
           end
  end.

(** [result.split(',')[1]] *)
Definition base64_of_dataURL (result : string) : option string :=
  nth_error (split "," result) 1.

(** A character, given by its UTF-8 bytes. *)
Definition utf8 (bytes : list nat) : string :=
  string_of_list_ascii (map ascii_of_nat bytes).

(** The characters [trim] strips, ECMAScript's [WhiteSpace] and
    [LineTerminator]: U+0009 to U+000D, U+0020, U+00A0, U+1680, U+2000 to
    U+200A, U+2028, U+2029, U+202F, U+205F, U+3000 and U+FEFF. *)
Definition white_space : list string :=
  map utf8
    [[9]; [10]; [11]; [12]; [13]; [32]; [194; 160]; [225; 154; 128];
     [226; 128; 128]; [226; 128; 129]; [226; 128; 130]; [226; 128; 131];
     [226; 128; 132]; [226; 128; 133]; [226; 128; 134]; [226; 128; 135];
     [226; 128; 136]; [226; 128; 137]; [226; 128; 138];
     [226; 128; 168]; [226; 128; 169]; [226; 128; 175]; [226; 129; 159];
     [227; 128; 128]; [239; 187; 191]].

(** [s] starts with [pre]. *)
Fixpoint begins (pre s : string) : bool :=
  match pre with
  | EmptyString => true
  | String a pre' =>
      match s with
      | String b s' => Ascii.eqb a b && begins pre' s'
      | EmptyString => false
      end
  end.

(** The number of bytes of the character of [table] that [s] starts with;
    0 if it starts with none. *)
Definition space_length (table : list string) (s : string) : nat :=
  match find (fun ws => begins ws s) table with
  | Some ws => String.length ws
  | None => 0
  end.

(** [s] without the characters of [table] it starts with; [skip] bytes of
    a character already recognised are still to be dropped. *)
Fixpoint skip_spaces (table : list string) (skip : nat) (s : string) : string :=
  match s with
  | EmptyString => EmptyString
  | String c rest =>
      match skip with
      | S k => skip_spaces table k rest
      | O =>
          match space_length table s with
          | S k => skip_spaces table k rest
          | O => s
          end
      end
  end.

Fixpoint reverse_onto (s acc : string) : string :=
  match s with
  | EmptyString => acc
  | String c rest => reverse_onto rest (String c acc)
  end.

Definition reverse (s : string) : string := reverse_onto s EmptyString.

(** [s.trimStart()] *)
Definition trim_start (s : string) : string := skip_spaces white_space 0 s.

(** [s.trimEnd()]: the same from the end, on the bytes read backwards. *)
Definition trim_end (s : string) : string :=
  reverse (skip_spaces (map reverse white_space) 0 (reverse s)).

(** [s.trim()] *)
Definition trim (s : string) : string := trim_end (trim_start s).

(** [s.replace(/```json|```/g, '')]; [skip] characters of a fence already
    matched are still to be dropped. *)
Fixpoint strip_fences (skip : nat) (s : string) : string :=
  match s with
  | EmptyString => EmptyString
  | String c rest =>
      match skip with
      | S k => strip_fences k rest
      | O =>
          if prefix "```json" s then strip_fences 6 rest
          else if prefix "```" s then strip_fences 2 rest
          else String c (strip_fences 0 rest)
      end
  end.

Example strip_fences_example :
  strip_fences 0 (trim "  ```json[1]``` ") = "[1]".
Proof. reflexivity. Qed.

(** A no-break space and a byte-order mark are stripped like a blank; the
    last byte of another character, though it is the last byte of a
    no-break space too, is not. *)
Example trim_examples :
  trim (utf8 [239; 187; 191] ++ " [] " ++ utf8 [194; 160] ++ newline) = "[]"
  /\ trim (utf8 [32; 195; 160; 32]) = utf8 [195; 160]
  /\ trim (utf8 [226; 128; 168; 32]) = EmptyString.
Proof. vm_compute. repeat split. Qed.

Example base64_example :
  base64_of_dataURL "data:audio/mp3;base64,QUJD" = Some "QUJD".
Proof. reflexivity. Qed.

(* ================================================================== *)
(** ** GeminiService ([src/services/gemini.service.ts]) *)

(** The SDK's client and the key it holds. *)
Record GoogleGenAI : Type := { apiKey_of : option string }.

Definition KeyRequired : Thrown :=
  ErrorObj "An API Key must be set when running in a browser".

(** Modelled from the spec: [new GoogleGenAI({ apiKey })], the constructor
    of the SDK's client, whose code (package [@google/genai]) is not under
    src/. The spec has the credential's absence "fail fast before any
    network attempt"; in the browser the SDK does so here, throwing
    [KeyRequired] when the key is undefined. A key that is a string is
    kept, and only a request made with it can show whether it is good. *)
Definition new_GoogleGenAI (apiKey : option string) : M World GoogleGenAI :=
  match apiKey with
  | Some key => ret {| apiKey_of := Some key |}
  | None => throw KeyRequired
  end.

Definition progress_set (p : option Progress) : M World unit :=
  modify (set_service_progress p).

(** The promise around [FileReader.readAsDataURL]: [onload] resolves with
    the part of the data URL after the first comma, [onerror] rejects with
    the reader's event. *)
Definition fileToBase64 (file : File) : M World (option string) :=
  match file_dataURL file with
  | Some result => ret (base64_of_dataURL result)
  | None => throw ProgressEvent
  end.

Definition fileToGenerativePart (file : File) : M World InlineData :=
  base64 <- fileToBase64 file ;;
  ret {| data := base64; mimeType := file_type file |}.

(** [ai.models.generateContent(...)], giving [response.text]. *)
Definition ai_generateContent (ai : GoogleGenAI) (instruction : string)
    (audio : InlineData) : M World string :=
  fun w =>
    await (models_generateContent (ext w) (n_content w))
      (tick_content
         (emit (GenerateContent (apiKey_of ai) "gemini-2.5-flash" instruction audio) w)).

(** [ai.models.generateVideos(request)] *)
Definition ai_generateVideos (apiKey : string) (request : VideoRequest)
    : M World Operation :=
  fun w =>
    await (models_generateVideos (ext w) (n_videos w))
      (tick_videos (emit (GenerateVideos apiKey request) w)).

(** [ai.operations.getVideosOperation({ operation })] *)
Definition ai_getVideosOperation (apiKey : string) (operation : Operation)
    : M World Operation :=
  fun w =>
    await (operations_getVideosOperation (ext w) (n_poll w))
      (tick_poll (emit (GetVideosOperation apiKey operation) w)).

(** [fetch(url)] *)
Definition fetch (url : string) : M World Response :=
  fun w => await (fetch_reply (ext w) (n_fetch w)) (tick_fetch (emit (Fetch url) w)).

Definition systemInstruction (characterDescriptions storyContext : string) : string :=
  String.concat newline [
    "You are a film director's assistant. Your task is to analyze an audio file and create a synchronized visual story.";
    "1. Transcribe the audio verbatim.";
    "2. Analyze the transcript and break it down into short, visually distinct video segments.";
    "3. Each segment's duration must be between 5 and 8 seconds to feel natural and not rushed.";
    "4. For each segment, provide the precise 'startTime' and 'endTime' in seconds from the audio.";
    "5. For each segment, provide a concise 'topicSummary' and a detailed 'videoPrompt' for an AI video generator.";
    "6. If a specific character is the main focus, identify them by their 'characterId'.";
    "7. The final output must be a valid JSON array of objects.";
    EmptyString;
    "Character Descriptions:";
    characterDescriptions;
    EmptyString;
    "Story Context:";
    (if String.eqb storyContext EmptyString then "No additional context provided."
     else storyContext);
    EmptyString
  ].

Definition transcribeAndSegmentAudio (audioFile : File) (storyContext : string)
    (characters : list Character) : M World (list VideoSegment) :=
  key <- gets (fun w => env_API_KEY (ext w)) ;;
  ai <- new_GoogleGenAI key ;;
  progress_set (Some {| stage := "Analyzing audio"; current := of_Z 0; total := of_Z 1;
                        message := "Transcribing and creating scenes..." |}) ;;
  audioPart <- fileToGenerativePart audioFile ;;
  let characterDescriptions :=
    String.concat newline
      (map (fun c => "- " ++ name c ++ " (" ++ id c ++ "): " ++ description c) characters) in
  try_catch
    (text <- ai_generateContent ai (systemInstruction characterDescriptions storyContext)
                                audioPart ;;
     let jsonStr := strip_fences 0 (trim text) in
     segments <- (fun w => await (JSON_parse (ext w) jsonStr) w) ;;
     progress_set (Some {| stage := "Analyzing audio"; current := of_Z 1; total := of_Z 1;
                           message := "Audio analysis complete." |}) ;;
     ret segments)
    (fun error =>
       let errorMessage := message_of error in
       progress_set (Some {| stage := "Error"; current := of_Z 1; total := of_Z 1;
                             message := "Failed to analyze audio: " ++ errorMessage |}) ;;
       throw (ErrorObj ("Failed to analyze audio: " ++ errorMessage))).

(** [Math.max(5, Math.min(8, Math.round(segment.endTime - segment.startTime)))] *)
Definition clipDuration (seg : VideoSegment) : number :=
  let duration := Math_round (sub (endTime seg) (startTime seg)) in
  Math_max (of_Z 5) (Math_min (of_Z 8) duration).

Definition videoRequest (seg : VideoSegment) (imagePart : option ImagePart)
    : VideoRequest :=
  {| model := "veo-2.0-generate-001";
     prompt := videoPrompt seg;
     image := imagePart;
     numberOfVideos := 1;
     aspectRatio := "16:9";
     durationSeconds := clipDuration seg;
     personGeneration := "ALLOW_ALL" |}.

Definition MissingCredential : Thrown :=
  ErrorObj "API Key is not available. Ensure the API_KEY environment variable is set.".

Definition GenerationTimedOut : Thrown :=
  ErrorObj "Video generation timed out after 10 minutes.".

(** [wait = Math.min(wait * 1.5, 15000)] *)
Definition next_wait (wait : number) : number :=
  Math_min (mul wait (Fin (3 # 2))) (of_Z 15000).

(** The [while (!operation.done)] loop; [fuel] bounds the iterations
    looked at, and running out of it leaves the promise [Pending]. *)
Fixpoint pollUntilDone (fuel : nat) (apiKey : string) (operation : Operation)
    (wait : number) (deadline : Z) : M World Operation :=
  if done operation then ret operation
  else
    match fuel with
    | O => pending
    | S fuel' =>
        t <- now ;;
        if (t >? deadline)%Z then throw GenerationTimedOut
        else
          sleep wait ;;
          let wait' := next_wait wait in
          operation' <- try_catch (ai_getVideosOperation apiKey operation)
            (fun error =>
               throw (ErrorObj ("Polling for video failed: " ++ message_of error))) ;;
          pollUntilDone fuel' apiKey operation' wait' deadline
    end.

Definition generateVideoClip (fuel : nat) (seg : VideoSegment)
    (characterPhoto : option File) : M World string :=
  key <- gets (fun w => env_API_KEY (ext w)) ;;
  match key with
  | None | Some EmptyString => throw MissingCredential
  | Some apiKey =>
      (* [new GoogleGenAI({ apiKey })] is given a string here and keeps it *)
      imagePart <-
        match characterPhoto with
        | Some photo =>
            base64Image <- fileToBase64 photo ;;
            ret (Some {| imageBytes := base64Image; image_mimeType := file_type photo |})
        | None => ret None
        end ;;
      operation <- try_catch (ai_generateVideos apiKey (videoRequest seg imagePart))
        (fun error =>
           throw (ErrorObj ("Failed to start video generation: " ++ message_of error))) ;;
      started <- now ;;
      let deadline := (started + 10 * 60 * 1000)%Z in
      operation <- pollUntilDone fuel apiKey operation (of_Z 5000) deadline ;;
      match operation_error operation with
      | Some msg => throw (ErrorObj ("Video generation failed: " ++ msg))
      | None =>
          match video_uri operation with
          | None | Some EmptyString =>
              throw (ErrorObj "Video generation succeeded, but no download link was returned.")
          | Some downloadLink =>
              try_catch
                (response <- fetch (downloadLink ++ "&key=" ++ apiKey) ;;
                 if negb (ok response)
                 then throw (ErrorObj ("Failed to download video: " ++ statusText response))
                 else
                   _ <- await (blob response) ;;
                   createObjectURL)
                (fun error =>
                   throw (ErrorObj ("Downloading video failed: " ++ message_of error)))
          end
      end
  end.

(* ================================================================== *)
(** ** AppComponent: state *)

Inductive AppState : Type := idle | processing | complete | error.

Record HTMLVideoElement : Type := {
  src : string;
  video_playing : bool
}.

(** [currentTime] is the position last assigned; how it advances while
    the audio plays is not modelled. *)
Record HTMLAudioElement : Type := {
  currentTime : number;
  audio_playing : bool
}.

(** Assignments and calls made on the two players, in order. *)
Inductive MediaCall : Type :=
| VideoSetSrc (url : string)
| VideoPlay
| AudioSetCurrentTime (t : number)
| AudioPlay
| AudioPause.

Record AppComponent : Type := {
  videoPlayer : option HTMLVideoElement;        (* @ViewChild('videoPlayer') *)
  audioPlayer : option HTMLAudioElement;        (* @ViewChild('audioPlayer') *)
  status : AppState;
  audioFile : option File;
  audioUrl : option string;
  characters : list Character;
  storyContext : string;
  generatedClips : list GeneratedClip;
  errorMsg : string;
  currentClipIndex : nat;
  progress : Progress;
  media_calls : list MediaCall
}.

Definition set_videoPlayer v (c : AppComponent) : AppComponent :=
  {| videoPlayer := v; audioPlayer := audioPlayer c; status := status c;
     audioFile := audioFile c; audioUrl := audioUrl c; characters := characters c;
     storyContext := storyContext c; generatedClips := generatedClips c;
     errorMsg := errorMsg c; currentClipIndex := currentClipIndex c;
     progress := progress c; media_calls := media_calls c |}.

Definition set_audioPlayer a (c : AppComponent) : AppComponent :=
  {| videoPlayer := videoPlayer c; audioPlayer := a; status := status c;
     audioFile := audioFile c; audioUrl := audioUrl c; characters := characters c;
     storyContext := storyContext c; generatedClips := generatedClips c;
     errorMsg := errorMsg c; currentClipIndex := currentClipIndex c;
     progress := progress c; media_calls := media_calls c |}.

Definition set_status s (c : AppComponent) : AppComponent :=
  {| videoPlayer := videoPlayer c; audioPlayer := audioPlayer c; status := s;
     audioFile := audioFile c; audioUrl := audioUrl c; characters := characters c;
     storyContext := storyContext c; generatedClips := generatedClips c;
     errorMsg := errorMsg c; currentClipIndex := currentClipIndex c;
     progress := progress c; media_calls := media_calls c |}.

Definition set_audioFile f (c : AppComponent) : AppComponent :=
  {| videoPlayer := videoPlayer c; audioPlayer := audioPlayer c; status := status c;
     audioFile := f; audioUrl := audioUrl c; characters := characters c;
     storyContext := storyContext c; generatedClips := generatedClips c;
     errorMsg := errorMsg c; currentClipIndex := currentClipIndex c;
     progress := progress c; media_calls := media_calls c |}.

Definition set_audioUrl u (c : AppComponent) : AppComponent :=
  {| videoPlayer := videoPlayer c; audioPlayer := audioPlayer c; status := status c;
     audioFile := audioFile c; audioUrl := u; characters := characters c;
     storyContext := storyContext c; generatedClips := generatedClips c;
     errorMsg := errorMsg c; currentClipIndex := currentClipIndex c;
     progress := progress c; media_calls := media_calls c |}.

Definition set_characters cs (c : AppComponent) : AppComponent :=
  {| videoPlayer := videoPlayer c; audioPlayer := audioPlayer c; status := status c;
     audioFile := audioFile c; audioUrl := audioUrl c; characters := cs;
     storyContext := storyContext c; generatedClips := generatedClips c;
     errorMsg := errorMsg c; currentClipIndex := currentClipIndex c;
     progress := progress c; media_calls := media_calls c |}.

Definition set_storyContext t (c : AppComponent) : AppComponent :=
  {| videoPlayer := videoPlayer c; audioPlayer := audioPlayer c; status := status c;
     audioFile := audioFile c; audioUrl := audioUrl c; characters := characters c;
     storyContext := t; generatedClips := generatedClips c;
     errorMsg := errorMsg c; currentClipIndex := currentClipIndex c;
     progress := progress c; media_calls := media_calls c |}.

Definition set_generatedClips clips (c : AppComponent) : AppComponent :=
  {| videoPlayer := videoPlayer c; audioPlayer := audioPlayer c; status := status c;
     audioFile := audioFile c; audioUrl := audioUrl c; characters := characters c;
     storyContext := storyContext c; generatedClips := clips;
     errorMsg := errorMsg c; currentClipIndex := currentClipIndex c;
     progress := progress c; media_calls := media_calls c |}.

Definition set_errorMsg m (c : AppComponent) : AppComponent :=
  {| videoPlayer := videoPlayer c; audioPlayer := audioPlayer c; status := status c;
     audioFile := audioFile c; audioUrl := audioUrl c; characters := characters c;
     storyContext := storyContext c; generatedClips := generatedClips c;
     errorMsg := m; currentClipIndex := currentClipIndex c;
     progress := progress c; media_calls := media_calls c |}.

Definition set_currentClipIndex i (c : AppComponent) : AppComponent :=
  {| videoPlayer := videoPlayer c; audioPlayer := audioPlayer c; status := status c;
     audioFile := audioFile c; audioUrl := audioUrl c; characters := characters c;
     storyContext := storyContext c; generatedClips := generatedClips c;
     errorMsg := errorMsg c; currentClipIndex := i;
     progress := progress c; media_calls := media_calls c |}.

Definition set_progress p (c : AppComponent) : AppComponent :=
  {| videoPlayer := videoPlayer c; audioPlayer := audioPlayer c; status := status c;
     audioFile := audioFile c; audioUrl := audioUrl c; characters := characters c;
     storyContext := storyContext c; generatedClips := generatedClips c;
     errorMsg := errorMsg c; currentClipIndex := currentClipIndex c;
     progress := p; media_calls := media_calls c |}.

Definition log_media (call : MediaCall) (c : AppComponent) : AppComponent :=
  {| videoPlayer := videoPlayer c; audioPlayer := audioPlayer c; status := status c;
     audioFile := audioFile c; audioUrl := audioUrl c; characters := characters c;
     storyContext := storyContext c; generatedClips := generatedClips c;
     errorMsg := errorMsg c; currentClipIndex := currentClipIndex c;
     progress := progress c; media_calls := media_calls c ++ [call] |}.

(** The page: the component's signals and players, and the world its
    service talks to. *)
Record Page : Type := {
  app : AppComponent;
  world : World
}.

(** Run a service method from the component. *)
Definition service {A} (m : M World A) : M Page A :=
  fun p =>
    let (r, w) := m (world p) in
    (r, {| app := app p; world := w |}).

(** Read and write the component's signals. *)
Definition signal {A} (f : AppComponent -> A) : M Page A :=
  fun p => (Returned (f (app p)), p).

Definition update (f : AppComponent -> AppComponent) : M Page unit :=
  fun p => (Returned tt, {| app := f (app p); world := world p |}).

(* ================================================================== *)
(** ** AppComponent: derived state and form handlers *)

(** The [computed] behind the progress bar. *)
Definition progressPercentage (p : Progress) : number :=
  if strict_eq (total p) (of_Z 0) then of_Z 0
  else mul (div (current p) (total p)) (of_Z 100).

(** [generatedClips()[currentClipIndex()]?.blobUrl ?? ''] *)
Definition currentClipUrl (c : AppComponent) : string :=
  match nth_error (generatedClips c) (currentClipIndex c) with
  | Some clip => blobUrl clip
  | None => EmptyString
  end.

(** The constructor's [effect]: a non-null service progress is copied into
    the component's. Angular schedules it between tasks; it reads and writes
    [progress] only. *)
Definition progress_effect : M Page unit :=
  fun p =>
    match service_progress (world p) with
    | Some sp => update (set_progress sp) p
    | None => (Returned tt, p)
    end.

Definition blank_character (char_id : string) : Character :=
  {| id := char_id; name := EmptyString; description := EmptyString;
     photoUrl := EmptyString; photoFile := None |}.

Definition addCharacter : M Page unit :=
  t <- service now ;;
  update (fun c => set_characters (characters c ++ [blank_character ("char_" ++ Z_to_string t)]) c).

Definition removeCharacter (char_id : string) : M Page unit :=
  update (fun c =>
    set_characters (filter (fun ch => negb (String.eqb (id ch) char_id)) (characters c)) c).

Inductive CharacterField : Type := field_name | field_description.

Definition updateCharacter (char_id : string) (field : CharacterField) (value : string)
    : M Page unit :=
  update (fun c =>
    set_characters
      (map (fun ch =>
              if String.eqb (id ch) char_id then
                match field with
                | field_name =>
                    {| id := id ch; name := value; description := description ch;
                       photoUrl := photoUrl ch; photoFile := photoFile ch |}
                | field_description =>
                    {| id := id ch; name := name ch; description := value;
                       photoUrl := photoUrl ch; photoFile := photoFile ch |}
                end
              else ch)
           (characters c)) c).

(** [input.files && input.files[0]] is the optional [file]. *)
Definition handleFileChange (file : option File) : M Page unit :=
  match file with
  | Some f =>
      update (set_audioFile (Some f)) ;;
      url <- service createObjectURL ;;
      update (set_audioUrl (Some url))
  | None => ret tt
  end.

Definition handleContextInput (value : string) : M Page unit :=
  update (set_storyContext value).

Definition handleCharacterPhoto (file : option File) (char_id : string) : M Page unit :=
  match file with
  | Some f =>
      url <- service createObjectURL ;;
      update (fun c =>
        set_characters
          (map (fun ch =>
                  if String.eqb (id ch) char_id then
                    {| id := id ch; name := name ch; description := description ch;
                       photoUrl := url; photoFile := Some f |}
                  else ch)
               (characters c)) c)
  | None => ret tt
  end.

(* ================================================================== *)
(** ** AppComponent: [generateStory] *)

Definition set_current_message (i : nat) (msg : string) (p : Progress) : Progress :=
  {| stage := stage p; total := total p; current := of_nat i; message := msg |}.

Definition set_stage_message (st msg : string) (p : Progress) : Progress :=
  {| stage := st; total := total p; current := current p; message := msg |}.

(** [this.characters().find(c => c.id === segment.characterId)?.photoFile ?? null] *)
Definition photo_for (seg : VideoSegment) (chars : list Character) : option File :=
  match characterId seg with
  | Some wanted =>
      match find (fun ch => String.eqb (id ch) wanted) chars with
      | Some ch => photoFile ch
      | None => None
      end
  | None => None
  end.

(** Ghost: note in the world's trace that the generator is being called,
    and how the call settled. *)
Definition mark (e : Event) : M Page unit := service (modify (emit e)).

Definition settling (i : nat) (m : M Page string) : M Page string :=
  fun p =>
    match m p with
    | (Pending, p') => (Pending, p')
    | (r, p') => (r, {| app := app p'; world := emit (ClipSettled i r) (world p') |})
    end.

(** The body of [for (let i = 0; i < segments.length; i++)], entered with
    the segments from index [i] on still to do; [n] is [segments.length]. *)
Fixpoint generateClips (fuel n i : nat) (todo : list VideoSegment) : M Page unit :=
  match todo with
  | [] => ret tt
  | seg :: rest =>
      update (fun c =>
        set_progress
          (set_current_message i
             ("Generating clip " ++ nat_to_string (i + 1) ++ "/" ++ nat_to_string n
                ++ ": " ++ topicSummary seg)
             (progress c)) c) ;;
      chars <- signal characters ;;
      let photo := photo_for seg chars in
      mark (ClipInvoked i seg photo) ;;
      url <- settling i (service (generateVideoClip fuel seg photo)) ;;
      update (fun c =>
        set_generatedClips (generatedClips c ++ [{| segment := seg; blobUrl := url |}]) c) ;;
      generateClips fuel n (S i) rest
  end.

Definition generateStory (fuel : nat) : M Page unit :=
  file <- signal audioFile ;;
  match file with
  | None => ret tt
  | Some audio =>
      update (set_status processing) ;;
      update (set_generatedClips []) ;;
      update (set_errorMsg EmptyString) ;;
      try_catch
        (context <- signal storyContext ;;
         chars <- signal characters ;;
         segments <- service (transcribeAndSegmentAudio audio context chars) ;;
         let n := List.length segments in
         update (set_progress
                   {| stage := "Generating clips"; total := of_nat n; current := of_Z 0;
                      message := "Starting video generation..." |}) ;;
         generateClips fuel n 0 segments ;;
         update (set_progress
                   {| stage := "Finished"; total := of_nat n; current := of_nat n;
                      message := "All clips generated!" |}) ;;
         update (set_status complete))
        (fun e =>
           let msg := message_of e in
           update (set_errorMsg msg) ;;
           update (set_status error) ;;
           update (fun c => set_progress (set_stage_message "Error" msg (progress c)) c))
  end.

(* ================================================================== *)
(** ** AppComponent: playback and reset *)

Definition TypeError_nativeElement : Thrown :=
  ErrorObj "Cannot read properties of undefined (reading 'nativeElement')".

(** Use [this.videoPlayer.nativeElement]; the view child may be undefined. *)
Definition on_video (call : MediaCall) (f : HTMLVideoElement -> HTMLVideoElement)
    : M AppComponent unit :=
  fun c =>
    match videoPlayer c with
    | Some v => (Returned tt, log_media call (set_videoPlayer (Some (f v)) c))
    | None => (Threw TypeError_nativeElement, c)
    end.

Definition on_audio (call : MediaCall) (f : HTMLAudioElement -> HTMLAudioElement)
    : M AppComponent unit :=
  fun c =>
    match audioPlayer c with
    | Some a => (Returned tt, log_media call (set_audioPlayer (Some (f a)) c))
    | None => (Threw TypeError_nativeElement, c)
    end.

(** Assigning [src] loads the new source and leaves the element paused. *)
Definition video_set_src (url : string) : M AppComponent unit :=
  on_video (VideoSetSrc url) (fun _ => {| src := url; video_playing := false |}).

Definition video_play : M AppComponent unit :=
  on_video VideoPlay (fun v => {| src := src v; video_playing := true |}).

Definition audio_set_currentTime (t : number) : M AppComponent unit :=
  on_audio (AudioSetCurrentTime t)
    (fun a => {| currentTime := t; audio_playing := audio_playing a |}).

Definition audio_play : M AppComponent unit :=
  on_audio AudioPlay (fun a => {| currentTime := currentTime a; audio_playing := true |}).

Definition audio_pause : M AppComponent unit :=
  on_audio AudioPause (fun a => {| currentTime := currentTime a; audio_playing := false |}).

Definition playStory : M AppComponent unit :=
  fun c =>
    match audioPlayer c, videoPlayer c, generatedClips c with
    | Some _, Some _, _ :: _ =>
        (modify (set_currentClipIndex 0) ;;
         url <- gets currentClipUrl ;;
         video_set_src url ;;
         audio_set_currentTime (of_Z 0) ;;
         audio_play ;;
         video_play) c
    | _, _, _ => (Returned tt, c)
    end.

Definition handleVideoEnded : M AppComponent unit :=
  index <- gets currentClipIndex ;;
  clips <- gets generatedClips ;;
  let nextIndex := index + 1 in
  if nextIndex <? List.length clips then
    modify (set_currentClipIndex nextIndex) ;;
    url <- gets currentClipUrl ;;
    video_set_src url ;;
    video_play
  else
    (* Story finished *)
    audio_pause.

Definition startOver : M Page unit :=
  update (set_status idle) ;;
  update (set_audioFile None) ;;
  update (set_audioUrl None) ;;
  update (set_storyContext EmptyString) ;;
  update (set_characters []) ;;
  update (set_generatedClips []) ;;
  update (set_errorMsg EmptyString) ;;
  service (progress_set None) ;;
  addCharacter.

(** A component as its constructor leaves it, before the view children
    exist. *)
Definition new_component : AppComponent :=
  {| videoPlayer := None; audioPlayer := None; status := idle; audioFile := None;
     audioUrl := None; characters := []; storyContext := EmptyString;
     generatedClips := []; errorMsg := EmptyString; currentClipIndex := 0;
     progress := {| stage := "Starting"; current := of_Z 0; total := of_Z 1;
                    message := EmptyString |};
     media_calls := [] |}.

Definition constructor (x : External) : Page :=
  snd (addCharacter {| app := new_component; world := initial_world x |}).

(* ================================================================== *)
(** * Properties *)

Open Scope list_scope.

(** ** Numbers *)

Lemma Qle_bool_inject_Z (a b : Z) :
  Qle_bool (inject_Z a) (inject_Z b) = (a <=? b)%Z.
Proof.
  unfold Qle_bool, inject_Z. simpl. now rewrite !Z.mul_1_r.
Qed.

Lemma lt_of_Z (a b : Z) : lt (of_Z a) (of_Z b) = (a <? b)%Z.
Proof.
  unfold lt, of_Z. rewrite Qle_bool_inject_Z.
  now rewrite Z.ltb_antisym.
Qed.

Lemma Math_min_of_Z (a b : Z) : Math_min (of_Z a) (of_Z b) = of_Z (Z.min a b).
Proof.
  unfold Math_min. unfold of_Z at 1 2.
  change (Fin (inject_Z a)) with (of_Z a). change (Fin (inject_Z b)) with (of_Z b).
  rewrite lt_of_Z. destruct (Z.ltb_spec b a).
  - now rewrite Z.min_r by lia.
  - now rewrite Z.min_l by lia.
Qed.

Lemma Math_max_of_Z (a b : Z) : Math_max (of_Z a) (of_Z b) = of_Z (Z.max a b).
Proof.
  unfold Math_max. unfold of_Z at 1 2.
  change (Fin (inject_Z a)) with (of_Z a). change (Fin (inject_Z b)) with (of_Z b).
  rewrite lt_of_Z. destruct (Z.ltb_spec a b).
  - now rewrite Z.max_r by lia.
  - now rewrite Z.max_l by lia.
Qed.

(** An operation on finite numbers never gives [NaN]: its result is a
    double or, past the largest one, an infinity. *)
Lemma nearest_double_not_NaN (negative : bool) (a d : Z) :
  nearest_double negative a d <> NaN.
Proof.
  unfold nearest_double.
  destruct (0 <=? Z.max (binade a d - 52) (-1074))%Z; [|discriminate].
  match goal with |- context [if ?c then _ else _] => destruct c end;
    [destruct negative|]; discriminate.
Qed.

Lemma to_double_not_NaN (q : Q) : to_double q <> NaN.
Proof.
  unfold to_double. destruct (Qnum (Qred q));
    [discriminate | apply nearest_double_not_NaN | apply nearest_double_not_NaN].
Qed.

(** Rounding looks at the value only, not at how the fraction is written. *)
Lemma to_double_eq (q q' : Q) : (q == q')%Q -> to_double q = to_double q'.
Proof. intro H. unfold to_double. now rewrite (Qred_complete q q' H). Qed.

Lemma sub_Fin (a b : Q) : sub (Fin a) (Fin b) = to_double (a - b).
Proof.
  unfold sub, neg, add. apply to_double_eq. now rewrite Qred_correct.
Qed.

(** [Math.round] of a finite number is an integer within a half of it. *)
Lemma Math_round_nearest (q : Q) :
  Math_round (Fin q) = of_Z (Qfloor (q + (1 # 2)))
  /\ (q - (1 # 2) < inject_Z (Qfloor (q + (1 # 2))) <= q + (1 # 2))%Q.
Proof.
  split; [reflexivity|]. split.
  - pose proof (Qlt_floor (q + (1 # 2))) as H.
    rewrite inject_Z_plus in H.
    apply Qplus_lt_l with (z := 1%Q).
    eapply Qle_lt_trans; [|exact H].
    ring_simplify. apply Qle_refl.
  - apply Qfloor_le.
Qed.

(** ** Clip duration (C5) *)

(** The specification's [clamp(x, lo, hi)]. *)
Definition clamp (x lo hi : Z) : Z :=
  if (x <? lo)%Z then lo else if (hi <? x)%Z then hi else x.

(** The specification's [round(d)]: the integer nearest to [d]. *)
Definition round (d : Q) : Z := Qfloor (d + (1 # 2)).

Lemma clamp_bounds (x lo hi : Z) : (lo <= hi)%Z -> (lo <= clamp x lo hi <= hi)%Z.
Proof.
  intro H. unfold clamp.
  destruct (Z.ltb_spec x lo); [lia|]. destruct (Z.ltb_spec hi x); lia.
Qed.

Lemma max_min_clamp (x : Z) : Z.max 5 (Z.min 8 x) = clamp x 5 8.
Proof.
  unfold clamp. destruct (Z.ltb_spec x 5); [lia|]. destruct (Z.ltb_spec 8 x); lia.
Qed.

(** The specification's [clamp(round(d), 5, 8)] of the difference [d] the
    code has computed; an infinite difference lies beyond either bound. *)
Definition clamped (d : number) : option Z :=
  match d with
  | Fin q => Some (clamp (round q) 5 8)
  | PInf => Some 8%Z
  | NInf => Some 5%Z
  | NaN => None
  end.

Lemma clipDuration_clamped (seg : VideoSegment) (s e : Q) :
  startTime seg = Fin s -> endTime seg = Fin e ->
  exists c : Z,
    clamped (sub (endTime seg) (startTime seg)) = Some c
    /\ clipDuration seg = of_Z c
    /\ (5 <= c <= 8)%Z.
Proof.
  intros Hs He. unfold clipDuration. rewrite Hs, He, sub_Fin.
  pose proof (to_double_not_NaN (e - s)) as N.
  destruct (to_double (e - s)) as [d| | |]; [| | |congruence].
  - exists (clamp (round d) 5 8). split; [reflexivity|].
    destruct (Math_round_nearest d) as [-> _].
    rewrite Math_min_of_Z, Math_max_of_Z, max_min_clamp.
    split; [reflexivity | apply clamp_bounds; lia].
  - exists 8%Z. repeat split; lia.
  - exists 5%Z. repeat split; lia.
Qed.

(** ** Progress percentage (C10) *)

Lemma sign_of_Eq (q : Q) : sign_of q = Eq <-> (q == 0)%Q.
Proof.
  unfold sign_of, Qeq. simpl. rewrite Z.compare_eq_iff. lia.
Qed.

Lemma strict_eq_zero (q : Q) : strict_eq (Fin q) (of_Z 0) = true <-> (q == 0)%Q.
Proof. unfold strict_eq, of_Z. apply Qeq_bool_iff. Qed.

(** C10. [progressPercentage] never divides by zero. When [total === 0] it
    returns 0; otherwise it returns [(current / total) * 100], and the
    divisor of that division is not zero. For finite [current] and [total]
    the result is therefore never [NaN]: it is 0 at [total = 0], and
    elsewhere the quotient, rounded to a double, times 100. *)
Theorem progressPercentage_never_divides_by_zero (p : Progress) :
  (strict_eq (total p) (of_Z 0) = true -> progressPercentage p = of_Z 0)
  /\ (strict_eq (total p) (of_Z 0) = false ->
      progressPercentage p = mul (div (current p) (total p)) (of_Z 100)
      /\ forall t : Q, total p = Fin t -> ~ (t == 0)%Q)
  /\ (forall c t : Q, current p = Fin c -> total p = Fin t ->
      progressPercentage p <> NaN
      /\ ((t == 0)%Q -> progressPercentage p = of_Z 0)
      /\ (~ (t == 0)%Q -> progressPercentage p = mul (to_double (c / t)) (of_Z 100))).
Proof.
  unfold progressPercentage. split; [|split].
  - now intros ->.
  - intro H. rewrite H. split; [reflexivity|].
    intros t E Zero. rewrite E in H. apply strict_eq_zero in Zero. congruence.
  - intros c t Hc Ht. rewrite Hc, Ht.
    destruct (strict_eq (Fin t) (of_Z 0)) eqn:Z0.
    + split; [discriminate|]. split; [reflexivity|].
      intro N. apply strict_eq_zero in Z0. contradiction.
    + assert (N : ~ (t == 0)%Q).
      { intro E. apply strict_eq_zero in E. congruence. }
      assert (S0 : sign_of t <> Eq) by (now rewrite sign_of_Eq).
      assert (D : div (Fin c) (Fin t) = to_double (c / t)).
      { unfold div. destruct (sign_of t); [congruence | reflexivity | reflexivity]. }
      rewrite D. split; [|split; [intro; contradiction | reflexivity]].
      pose proof (to_double_not_NaN (c / t)) as Hq.
      destruct (to_double (c / t)) as [a| | |]; [| | |congruence].
      * apply to_double_not_NaN.
      * discriminate.
      * discriminate.
Qed.

Definition progress_of (c t : Z) : Progress :=
  {| stage := "Generating clips"; total := of_Z t; current := of_Z c;
     message := EmptyString |}.

Lemma progressPercentage_never_divides_by_zero_witness :
  progressPercentage (progress_of 0 0) = of_Z 0
  /\ progressPercentage (progress_of 1 4) = mul (to_double (1 / 4)) (of_Z 100)
  /\ progressPercentage (progress_of 1 3) <> NaN.
Proof.
  refine (conj _ (conj _ _)).
  - exact (proj1 (progressPercentage_never_divides_by_zero (progress_of 0 0)) eq_refl).
  - refine (proj2 (proj2 (proj2 (proj2 (progressPercentage_never_divides_by_zero
                                          (progress_of 1 4)))
                                   1%Q 4%Q eq_refl eq_refl)) _).
    discriminate.
  - exact (proj1 (proj2 (proj2 (progressPercentage_never_divides_by_zero (progress_of 1 3)))
                    1%Q 3%Q eq_refl eq_refl)).
Defined.

(** One clip of four is 25%; one of three is the double 33.33333333333333,
    not the rational [100 / 3]. *)
Example percentages :
  progressPercentage (progress_of 1 4) = of_Z 25
  /\ progressPercentage (progress_of 1 3) = Fin (2345624805922133 # 70368744177664)
  /\ progressPercentage (progress_of 3 3) = of_Z 100.
Proof. vm_compute. repeat split. Qed.

(** Without the guard the same formula is not a number at [total = 0]. *)
Example unguarded_percentage_at_zero :
  mul (div (of_Z 0) (of_Z 0)) (of_Z 100) = NaN
  /\ mul (div (of_Z 3) (of_Z 0)) (of_Z 100) = PInf.
Proof. split; reflexivity. Qed.

(* ================================================================== *)
(** ** Reasoning about computations *)

Section Reasoning.
Context {St : Type}.

(** *** Computations that only move the state along a preorder *)

Variable R : St -> St -> Prop.
Hypothesis R_refl : forall s, R s s.
Hypothesis R_trans : forall s1 s2 s3, R s1 s2 -> R s2 s3 -> R s1 s3.

Definition along {A} (m : M St A) : Prop := forall s, R s (snd (m s)).

Lemma along_ret {A} (a : A) : along (ret a).
Proof. intro s. apply R_refl. Qed.

Lemma along_throw {A} (e : Thrown) : along (@throw St A e).
Proof. intro s. apply R_refl. Qed.

Lemma along_pending {A} : along (@pending St A).
Proof. intro s. apply R_refl. Qed.

Lemma along_gets {A} (f : St -> A) : along (gets f).
Proof. intro s. apply R_refl. Qed.

Lemma along_await {A} (reply : Settled A) : along (@await St A reply).
Proof. destruct reply; intro s; apply R_refl. Qed.

Lemma along_bind {A B} (m : M St A) (k : A -> M St B) :
  along m -> (forall a, along (k a)) -> along (bind m k).
Proof.
  intros Hm Hk s. unfold bind. specialize (Hm s).
  destruct (m s) as [[a|e|] s1]; simpl in *; auto.
  eapply R_trans; [exact Hm | apply Hk].
Qed.

Lemma along_try_catch {A} (m : M St A) (h : Thrown -> M St A) :
  along m -> (forall e, along (h e)) -> along (try_catch m h).
Proof.
  intros Hm Hh s. unfold try_catch. specialize (Hm s).
  destruct (m s) as [[a|e|] s1]; simpl in *; auto.
  eapply R_trans; [exact Hm | apply Hh].
Qed.

(** *** What a computation can throw *)

Variable P : Thrown -> Prop.

Definition throws_only {A} (m : M St A) : Prop :=
  forall s e, fst (m s) = Threw e -> P e.

Lemma throws_only_ret {A} (a : A) : throws_only (ret a).
Proof. intros s e H. discriminate. Qed.

Lemma throws_only_throw {A} (e : Thrown) : P e -> throws_only (@throw St A e).
Proof. intros H s e' E. inversion E. now subst. Qed.

Lemma throws_only_pending {A} : throws_only (@pending St A).
Proof. intros s e H. discriminate. Qed.

Lemma throws_only_gets {A} (f : St -> A) : throws_only (gets f).
Proof. intros s e H. discriminate. Qed.

Lemma throws_only_modify (f : St -> St) : throws_only (modify f).
Proof. intros s e H. discriminate. Qed.

Lemma throws_only_bind {A B} (m : M St A) (k : A -> M St B) :
  throws_only m -> (forall a, throws_only (k a)) -> throws_only (bind m k).
Proof.
  intros Hm Hk s e. unfold bind. specialize (Hm s).
  destruct (m s) as [[a|e1|] s1]; simpl in *.
  - apply Hk.
  - intro E. inversion E; subst. now apply Hm.
  - discriminate.
Qed.

(** A handler that rethrows decides alone what escapes the [try]. *)
Lemma throws_only_try_catch {A} (m : M St A) (h : Thrown -> M St A) :
  (forall e, throws_only (h e)) -> throws_only (try_catch m h).
Proof.
  intros Hh s e. unfold try_catch.
  destruct (m s) as [[a|e1|] s1]; simpl; try discriminate.
  apply Hh.
Qed.

End Reasoning.

(* ================================================================== *)
(** ** The service: what it throws *)

Definition nonempty_message (e : Thrown) : Prop := message_of e <> EmptyString.

Ltac throws_literal :=
  apply throws_only_throw; unfold nonempty_message; simpl; discriminate.

Lemma fileToBase64_throws (file : File) :
  throws_only nonempty_message (fileToBase64 file).
Proof.
  unfold fileToBase64. destruct (file_dataURL file).
  - apply throws_only_ret.
  - throws_literal.
Qed.

Lemma now_throws : throws_only nonempty_message now.
Proof. intros w e H. discriminate. Qed.

Lemma pollUntilDone_throws fuel apiKey operation wait deadline :
  throws_only nonempty_message (pollUntilDone fuel apiKey operation wait deadline).
Proof.
  revert operation wait.
  induction fuel as [|fuel IH]; intros operation wait; simpl;
    destruct (done operation); try apply throws_only_ret.
  - apply throws_only_pending.
  - apply throws_only_bind; [apply now_throws|]. intro t.
    destruct (t >? deadline)%Z.
    + throws_literal.
    + apply throws_only_bind; [apply throws_only_modify|]. intros _.
      apply throws_only_bind; [|intro; apply IH].
      apply throws_only_try_catch. intro e.
      throws_literal.
Qed.

(** Every rejection of [generateVideoClip] carries a non-empty message. *)
Lemma generateVideoClip_throws fuel seg photo :
  throws_only nonempty_message (generateVideoClip fuel seg photo).
Proof.
  unfold generateVideoClip.
  apply throws_only_bind; [apply throws_only_gets|]. intro key.
  assert (Hmissing : forall A, throws_only nonempty_message (@throw World A MissingCredential)).
  { intro A. throws_literal. }
  destruct key as [[|c key]|]; try apply Hmissing.
  apply throws_only_bind.
  { destruct photo as [photo|]; [|apply throws_only_ret].
    apply throws_only_bind; [apply fileToBase64_throws|]. intro. apply throws_only_ret. }
  intro imagePart.
  apply throws_only_bind.
  { apply throws_only_try_catch. intro e. throws_literal. }
  intro operation.
  apply throws_only_bind; [apply now_throws|]. intro started.
  apply throws_only_bind; [apply pollUntilDone_throws|]. intro finished.
  destruct (operation_error finished).
  { throws_literal. }
  destruct (video_uri finished) as [[|c' link]|];
    try throws_literal.
  apply throws_only_try_catch. intro e. throws_literal.
Qed.

(** Every rejection of [transcribeAndSegmentAudio] carries a non-empty
    message. *)
Lemma transcribeAndSegmentAudio_throws audio context chars :
  throws_only nonempty_message (transcribeAndSegmentAudio audio context chars).
Proof.
  unfold transcribeAndSegmentAudio.
  apply throws_only_bind; [apply throws_only_gets|]. intro key.
  apply throws_only_bind.
  { destruct key; [apply throws_only_ret | throws_literal]. }
  intro ai.
  apply throws_only_bind; [apply throws_only_modify|]. intros _.
  apply throws_only_bind.
  { unfold fileToGenerativePart.
    apply throws_only_bind; [apply fileToBase64_throws|]. intro. apply throws_only_ret. }
  intro audioPart.
  apply throws_only_try_catch. intro e.
  apply throws_only_bind; [apply throws_only_modify|]. intros _.
  throws_literal.
Qed.

(* ================================================================== *)
(** ** The service: how it moves the world *)

Definition is_mark (e : Event) : bool :=
  match e with
  | ClipInvoked _ _ _ | ClipSettled _ _ => true
  | _ => false
  end.

(** The orchestrator's marks in a trace. *)
Definition marks (trace : list Event) : list Event := filter is_mark trace.

(** [w'] is [w] after some service activity: the same outside world, a
    longer trace with no new mark, and more blob URLs, none taken back. *)
Record grows (w w' : World) : Prop := {
  grows_ext : ext w' = ext w;
  grows_events : exists new, events w' = events w ++ new /\ marks new = [];
  grows_urls : exists urls, objectURLs w' = objectURLs w ++ urls
}.

Lemma grows_refl w : grows w w.
Proof.
  split; [reflexivity| |]; exists []; now rewrite app_nil_r.
Qed.

Lemma grows_trans w1 w2 w3 : grows w1 w2 -> grows w2 w3 -> grows w1 w3.
Proof.
  intros [E1 (n1 & T1 & M1) (u1 & U1)] [E2 (n2 & T2 & M2) (u2 & U2)].
  split.
  - congruence.
  - exists (n1 ++ n2). split.
    + now rewrite T2, T1, app_assoc.
    + unfold marks in *. now rewrite filter_app, M1, M2.
  - exists (u1 ++ u2). now rewrite U2, U1, app_assoc.
Qed.

Lemma grows_emit e w : is_mark e = false -> grows w (emit e w).
Proof.
  intro H. split; simpl.
  - reflexivity.
  - exists [e]. split; [reflexivity|]. unfold marks. simpl. now rewrite H.
  - exists []. now rewrite app_nil_r.
Qed.

Lemma grows_same_trace w w' :
  ext w' = ext w -> events w' = events w -> objectURLs w' = objectURLs w -> grows w w'.
Proof.
  intros E T U. split; [exact E| |]; exists []; now rewrite app_nil_r.
Qed.

Lemma grows_add_objectURL url w : grows w (add_objectURL url w).
Proof.
  split; simpl; [reflexivity| |].
  - exists []. now rewrite app_nil_r.
  - now exists [url].
Qed.

Local Abbreviation steady := (along grows).

Ltac along_step :=
  first
    [ apply (along_ret grows grows_refl)
    | apply (along_throw grows grows_refl)
    | apply (along_pending grows grows_refl)
    | apply (along_gets grows grows_refl)
    | apply (along_await grows grows_refl)
    | apply (along_bind grows grows_trans)
    | apply (along_try_catch grows grows_trans) ].

Lemma progress_set_steady p : steady (progress_set p).
Proof. intro w. now apply grows_same_trace. Qed.

Lemma now_steady : steady now.
Proof. intro w. now apply grows_same_trace. Qed.

Lemma sleep_steady wait : steady (sleep wait).
Proof. intro w. now apply grows_emit. Qed.

Lemma createObjectURL_steady : steady createObjectURL.
Proof. intro w. apply grows_add_objectURL. Qed.

Lemma fileToBase64_steady file : steady (fileToBase64 file).
Proof. unfold fileToBase64. destruct (file_dataURL file); along_step. Qed.

Lemma external_call_steady {A} (reply : World -> Settled A) (e : World -> Event)
    (tick : World -> World) :
  (forall w, is_mark (e w) = false) ->
  (forall w, grows w (tick w)) ->
  steady (fun w => await (reply w) (tick (emit (e w) w))).
Proof.
  intros He Ht w.
  assert (G : grows w (tick (emit (e w) w))).
  { eapply grows_trans; [apply grows_emit, He | apply Ht]. }
  destruct (reply w); exact G.
Qed.

Lemma ai_generateContent_steady ai instruction audio :
  steady (ai_generateContent ai instruction audio).
Proof.
  apply (external_call_steady
           (fun w => models_generateContent (ext w) (n_content w))
           (fun _ => GenerateContent (apiKey_of ai) "gemini-2.5-flash" instruction audio)
           tick_content); intro w; [reflexivity | now apply grows_same_trace].
Qed.

Lemma ai_generateVideos_steady apiKey request :
  steady (ai_generateVideos apiKey request).
Proof.
  apply (external_call_steady
           (fun w => models_generateVideos (ext w) (n_videos w))
           (fun _ => GenerateVideos apiKey request) tick_videos);
    intro w; [reflexivity | now apply grows_same_trace].
Qed.

Lemma ai_getVideosOperation_steady apiKey operation :
  steady (ai_getVideosOperation apiKey operation).
Proof.
  apply (external_call_steady
           (fun w => operations_getVideosOperation (ext w) (n_poll w))
           (fun _ => GetVideosOperation apiKey operation) tick_poll);
    intro w; [reflexivity | now apply grows_same_trace].
Qed.

Lemma fetch_steady url : steady (fetch url).
Proof.
  apply (external_call_steady
           (fun w => fetch_reply (ext w) (n_fetch w)) (fun _ => Fetch url) tick_fetch);
    intro w; [reflexivity | now apply grows_same_trace].
Qed.

Lemma pollUntilDone_steady fuel apiKey operation wait deadline :
  steady (pollUntilDone fuel apiKey operation wait deadline).
Proof.
  revert operation wait.
  induction fuel as [|fuel IH]; intros operation wait; simpl;
    destruct (done operation); try along_step.
  - apply now_steady.
  - intro t. destruct (t >? deadline)%Z; [along_step|].
    along_step; [apply sleep_steady|]. intros _.
    along_step; [|intro; apply IH].
    along_step; [apply ai_getVideosOperation_steady|]. intro. along_step.
Qed.

Lemma generateVideoClip_steady fuel seg photo :
  steady (generateVideoClip fuel seg photo).
Proof.
  unfold generateVideoClip. along_step; [along_step|]. intro key.
  destruct key as [[|c key]|]; try along_step.
  { destruct photo as [photo|]; [|along_step].
    along_step; [apply fileToBase64_steady|]. intro. along_step. }
  intro imagePart. along_step.
  { along_step; [apply ai_generateVideos_steady|]. intro. along_step. }
  intro operation. along_step; [apply now_steady|]. intro started.
  along_step; [apply pollUntilDone_steady|]. intro finished.
  destruct (operation_error finished); [along_step|].
  destruct (video_uri finished) as [[|c' link]|]; try along_step.
  - along_step; [apply fetch_steady|]. intro response.
    destruct (negb (ok response)); [along_step|].
    along_step; [along_step|]. intro. apply createObjectURL_steady.
  - intro. along_step.
Qed.

Lemma transcribeAndSegmentAudio_steady audio context chars :
  steady (transcribeAndSegmentAudio audio context chars).
Proof.
  unfold transcribeAndSegmentAudio. along_step; [along_step|]. intro key.
  along_step; [destruct key; along_step|]. intro ai.
  along_step; [apply progress_set_steady|]. intros _.
  along_step.
  { unfold fileToGenerativePart. along_step; [apply fileToBase64_steady|].
    intro. along_step. }
  intro audioPart. along_step.
  - along_step; [apply ai_generateContent_steady|]. intro text.
    along_step.
    { intro w. destruct (JSON_parse (ext w) _); apply grows_refl. }
    intro segments. along_step; [apply progress_set_steady|]. intros _. along_step.
  - intro e. along_step; [apply progress_set_steady|]. intros _. along_step.
Qed.

(* ================================================================== *)
(** ** The polling loop, one iteration at a time *)

Lemma pollUntilDone_done fuel apiKey operation wait deadline w :
  done operation = true ->
  pollUntilDone fuel apiKey operation wait deadline w = (Returned operation, w).
Proof. intro H. destruct fuel; simpl; now rewrite H. Qed.

(** The world after one more wait and poll. *)
Definition polled (apiKey : string) (operation : Operation) (wait : number)
    (w : World) : World :=
  tick_poll (emit (GetVideosOperation apiKey operation)
               (emit (SetTimeout wait) (tick_clock w))).

Lemma pollUntilDone_step fuel apiKey operation wait deadline w :
  done operation = false ->
  pollUntilDone (S fuel) apiKey operation wait deadline w =
    if (Date_now (ext w) (n_clock w) >? deadline)%Z
    then (Threw GenerationTimedOut, tick_clock w)
    else
      match operations_getVideosOperation (ext w) (n_poll w) with
      | Fulfilled operation' =>
          pollUntilDone fuel apiKey operation' (next_wait wait) deadline
            (polled apiKey operation wait w)
      | Rejected e =>
          (Threw (ErrorObj ("Polling for video failed: " ++ message_of e)),
           polled apiKey operation wait w)
      end.
Proof.
  intro H. cbn [pollUntilDone]. rewrite H.
  unfold bind at 1. unfold now at 1.
  destruct (Date_now (ext w) (n_clock w) >? deadline)%Z; [reflexivity|].
  unfold bind at 1. unfold sleep, modify.
  unfold bind at 1. unfold try_catch, ai_getVideosOperation.
  cbn [ext emit tick_clock n_poll].
  now destruct (operations_getVideosOperation (ext w) (n_poll w)).
Qed.

(** The events of [n] iterations: a wait, then the poll of the operation
    in hand. *)
Fixpoint poll_trace (apiKey : string) (wait : number) (ops : list Operation)
    : list Event :=
  match ops with
  | [] => []
  | operation :: rest =>
      SetTimeout wait :: GetVideosOperation apiKey operation
        :: poll_trace apiKey (next_wait wait) rest
  end.

Lemma events_polled apiKey operation wait w :
  events (polled apiKey operation wait w)
  = events w ++ [SetTimeout wait; GetVideosOperation apiKey operation].
Proof. unfold polled. simpl. now rewrite <- app_assoc. Qed.

Lemma pollUntilDone_trace fuel apiKey operation wait deadline w :
  exists ops,
    events (snd (pollUntilDone fuel apiKey operation wait deadline w))
    = events w ++ poll_trace apiKey wait ops
    /\ n_poll (snd (pollUntilDone fuel apiKey operation wait deadline w))
       = n_poll w + List.length ops.
Proof.
  revert operation wait w.
  induction fuel as [|fuel IH]; intros operation wait w;
    destruct (done operation) eqn:D.
  - rewrite pollUntilDone_done by assumption. exists []. simpl.
    now rewrite app_nil_r, Nat.add_0_r.
  - simpl. rewrite D. exists []. simpl. now rewrite app_nil_r, Nat.add_0_r.
  - rewrite pollUntilDone_done by assumption. exists []. simpl.
    now rewrite app_nil_r, Nat.add_0_r.
  - rewrite pollUntilDone_step by assumption.
    destruct (Date_now (ext w) (n_clock w) >? deadline)%Z.
    { exists []. simpl. now rewrite app_nil_r, Nat.add_0_r. }
    destruct (operations_getVideosOperation (ext w) (n_poll w)) as [operation'|e].
    + destruct (IH operation' (next_wait wait) (polled apiKey operation wait w))
        as (ops & Hev & Hn).
      exists (operation :: ops). rewrite Hev, Hn, events_polled. split.
      * now rewrite <- app_assoc.
      * simpl. lia.
    + exists [operation]. split.
      * apply events_polled.
      * simpl. lia.
Qed.

(** *** The waits of the loop (C3) *)

(** The delays passed to [setTimeout], in order. *)
Definition waits (trace : list Event) : list number :=
  flat_map (fun e => match e with SetTimeout ms => [ms] | _ => [] end) trace.

(** The start requests sent. *)
Definition starts (trace : list Event) : list VideoRequest :=
  flat_map (fun e => match e with GenerateVideos _ request => [request] | _ => [] end) trace.

(** The polls made, as the operations they were made for. *)
Definition polls (trace : list Event) : list Operation :=
  flat_map (fun e => match e with GetVideosOperation _ op => [op] | _ => [] end) trace.

(** The specification's sequence 5000, 7500, 11250, 15000, 15000, ... *)
Definition backoff_ms (i : nat) : Z :=
  match i with
  | 0 => 5000
  | 1 => 7500
  | 2 => 11250
  | _ => 15000
  end.

Lemma next_wait_backoff (i : nat) :
  next_wait (of_Z (backoff_ms i)) = of_Z (backoff_ms (S i)).
Proof. destruct i as [|[|[|i]]]; reflexivity. Qed.

Lemma waits_poll_trace apiKey (ops : list Operation) : forall i,
  waits (poll_trace apiKey (of_Z (backoff_ms i)) ops)
  = map (fun j => of_Z (backoff_ms j)) (seq i (List.length ops)).
Proof.
  induction ops as [|operation ops IH]; intro i; [reflexivity|].
  cbn [poll_trace List.length seq map]. rewrite next_wait_backoff.
  change (waits (SetTimeout ?ms :: GetVideosOperation ?k ?o :: ?t))
    with (ms :: waits t).
  f_equal. apply IH.
Qed.

Lemma polls_poll_trace apiKey wait (ops : list Operation) :
  polls (poll_trace apiKey wait ops) = ops.
Proof.
  revert wait. induction ops as [|operation ops IH]; intro wait; [reflexivity|].
  cbn [poll_trace].
  change (polls (SetTimeout ?ms :: GetVideosOperation ?k ?o :: ?t))
    with (o :: polls t).
  f_equal. apply IH.
Qed.

(* ================================================================== *)
(** ** [generateVideoClip], stage by stage *)

(** [imagePart], when the photo can be read. *)
Definition image_part (photo : option File) : option ImagePart :=
  match photo with
  | Some p =>
      Some {| imageBytes := match file_dataURL p with
                            | Some result => base64_of_dataURL result
                            | None => None
                            end;
              image_mimeType := file_type p |}
  | None => None
  end.

Definition readable (photo : option File) : Prop :=
  forall p, photo = Some p -> file_dataURL p <> None.

(** The world once the start request is out. *)
Definition start_requested (apiKey : string) (seg : VideoSegment)
    (photo : option File) (w : World) : World :=
  tick_videos (emit (GenerateVideos apiKey (videoRequest seg (image_part photo))) w).

(** What [generateVideoClip] does once the loop has ended: the code from
    [if (operation.error)] to the end. *)
Definition deliver (apiKey : string) (operation : Operation) : M World string :=
  match operation_error operation with
  | Some msg => throw (ErrorObj ("Video generation failed: " ++ msg))
  | None =>
      match video_uri operation with
      | None | Some EmptyString =>
          throw (ErrorObj "Video generation succeeded, but no download link was returned.")
      | Some downloadLink =>
          try_catch
            (response <- fetch (downloadLink ++ "&key=" ++ apiKey) ;;
             if negb (ok response)
             then throw (ErrorObj ("Failed to download video: " ++ statusText response))
             else
               _ <- await (blob response) ;;
               createObjectURL)
            (fun error =>
               throw (ErrorObj ("Downloading video failed: " ++ message_of error)))
      end
  end.

Lemma generateVideoClip_stages fuel seg photo w (c : ascii) (key : string) :
  env_API_KEY (ext w) = Some (String c key) ->
  readable photo ->
  generateVideoClip fuel seg photo w
  = let apiKey := String c key in
    let w1 := start_requested apiKey seg photo w in
    match models_generateVideos (ext w) (n_videos w) with
    | Rejected e =>
        (Threw (ErrorObj ("Failed to start video generation: " ++ message_of e)), w1)
    | Fulfilled op0 =>
        match pollUntilDone fuel apiKey op0 (of_Z 5000)
                (Date_now (ext w) (n_clock w) + 10 * 60 * 1000)%Z (tick_clock w1) with
        | (Returned operation, w2) => deliver apiKey operation w2
        | (Threw e, w2) => (Threw e, w2)
        | (Pending, w2) => (Pending, w2)
        end
    end.
Proof.
  intros K Hphoto.
  unfold generateVideoClip. unfold bind at 1. unfold gets. rewrite K.
  unfold bind at 1.
  set (readPhoto := match photo with Some p => _ | None => _ end).
  assert (HP : readPhoto w = (Returned (image_part photo), w)).
  { subst readPhoto. destruct photo as [p|]; [|reflexivity].
    unfold bind, fileToBase64, image_part. specialize (Hphoto p eq_refl).
    destruct (file_dataURL p); [reflexivity | congruence]. }
  rewrite HP. cbv zeta.
  unfold bind at 1. unfold try_catch, ai_generateVideos.
  fold (start_requested (String c key) seg photo w).
  destruct (models_generateVideos (ext w) (n_videos w)) as [op0|e];
    cbn [await ret throw]; [|reflexivity].
  unfold bind at 1. unfold now at 1. unfold bind at 1.
  change (ext (start_requested (String c key) seg photo w)) with (ext w).
  change (n_clock (start_requested (String c key) seg photo w)) with (n_clock w).
  destruct (pollUntilDone fuel (String c key) op0 (of_Z 5000)
              (Date_now (ext w) (n_clock w) + 10 * 60 * 1000)
              (tick_clock (start_requested (String c key) seg photo w)))
    as [[operation|e|] w2]; reflexivity.
Qed.

Lemma deliver_steady apiKey operation : steady (deliver apiKey operation).
Proof.
  unfold deliver. destruct (operation_error operation); [along_step|].
  destruct (video_uri operation) as [[|c' link]|]; try along_step.
  - along_step; [apply fetch_steady|]. intro response.
    destruct (negb (ok response)); [along_step|].
    along_step; [along_step|]. intro. apply createObjectURL_steady.
  - intro. along_step.
Qed.

(** While the job is found running and the deadline has not passed, the
    loop goes on: a job not done, [k] polls that find it running, and no
    clock reading up to the [k]-th past the deadline, give at least
    [k + 1] waits and polls. *)
Lemma pollUntilDone_keeps_polling (k : nat) :
  forall fuel apiKey operation wait deadline w,
    k < fuel ->
    done operation = false ->
    (forall j, j < k ->
       exists operation',
         operations_getVideosOperation (ext w) (n_poll w + j) = Fulfilled operation'
         /\ done operation' = false) ->
    (forall j, j <= k -> (Date_now (ext w) (n_clock w + j) <= deadline)%Z) ->
    exists ops w1,
      List.length ops = S k
      /\ events w1 = events w ++ poll_trace apiKey wait ops
      /\ grows w1 (snd (pollUntilDone fuel apiKey operation wait deadline w)).
Proof.
  induction k as [|k IH]; intros fuel apiKey operation wait deadline w Hfuel D Hrunning Hclock;
    (destruct fuel as [|fuel]; [lia|]); rewrite pollUntilDone_step by assumption;
    pose proof (Hclock 0 ltac:(lia)) as H0; rewrite Nat.add_0_r in H0;
    (destruct (Z.gtb_spec (Date_now (ext w) (n_clock w)) deadline); [lia|]).
  - exists [operation], (polled apiKey operation wait w).
    split; [reflexivity|]. split; [apply events_polled|].
    destruct (operations_getVideosOperation (ext w) (n_poll w)) as [operation'|e].
    + apply pollUntilDone_steady.
    + apply grows_refl.
  - destruct (Hrunning 0 ltac:(lia)) as (operation' & Hreply & D').
    rewrite Nat.add_0_r in Hreply. rewrite Hreply.
    destruct (IH fuel apiKey operation' (next_wait wait) deadline
                (polled apiKey operation wait w))
      as (ops & w1 & Hlen & Hev & G); try assumption; try lia.
    + intros j Hj. specialize (Hrunning (S j) ltac:(lia)). simpl.
      now rewrite <- Nat.add_succ_comm in Hrunning.
    + intros j Hj. specialize (Hclock (S j) ltac:(lia)). simpl.
      now rewrite <- Nat.add_succ_comm in Hclock.
    + exists (operation :: ops), w1. split; [simpl; now rewrite Hlen|].
      split; [|exact G]. rewrite Hev, events_polled. now rewrite <- app_assoc.
Qed.

(** With a key and a readable photo the call sends its start request
    first, whatever follows. *)
Lemma generateVideoClip_sends_start fuel seg photo w (c : ascii) (key : string) :
  env_API_KEY (ext w) = Some (String c key) ->
  readable photo ->
  exists later,
    events (snd (generateVideoClip fuel seg photo w))
    = events w
        ++ GenerateVideos (String c key) (videoRequest seg (image_part photo)) :: later.
Proof.
  intros K Hphoto.
  rewrite (generateVideoClip_stages fuel seg photo w c key K Hphoto). cbv zeta.
  set (apiKey := String c key). set (w1 := start_requested apiKey seg photo w).
  assert (E1 : events (tick_clock w1)
               = events w ++ [GenerateVideos apiKey (videoRequest seg (image_part photo))])
    by reflexivity.
  assert (Hafter : forall w', grows (tick_clock w1) w' ->
            exists later,
              events w'
              = events w
                  ++ GenerateVideos apiKey (videoRequest seg (image_part photo)) :: later).
  { intros w' [_ (new & Hnew & _) _]. exists new. rewrite Hnew, E1.
    now rewrite <- app_assoc. }
  destruct (models_generateVideos (ext w) (n_videos w)) as [op0|e].
  - pose proof (pollUntilDone_steady fuel apiKey op0 (of_Z 5000)
                  (Date_now (ext w) (n_clock w) + 10 * 60 * 1000)%Z (tick_clock w1)) as G.
    destruct (pollUntilDone fuel apiKey op0 (of_Z 5000)
                (Date_now (ext w) (n_clock w) + 10 * 60 * 1000)%Z (tick_clock w1))
      as [[operation|e|] w2]; cbn [snd] in G |- *; try (apply Hafter; exact G).
    apply Hafter. eapply grows_trans; [exact G | apply deliver_steady].
  - exists []. reflexivity.
Qed.

(** A job started and found running by [k] polls, within the deadline,
    is waited for and polled at least [k + 1] times. *)
Lemma generateVideoClip_keeps_polling fuel k seg photo w (c : ascii) (key : string) op0 :
  env_API_KEY (ext w) = Some (String c key) ->
  readable photo ->
  models_generateVideos (ext w) (n_videos w) = Fulfilled op0 ->
  done op0 = false ->
  (forall j, j < k ->
     exists operation',
       operations_getVideosOperation (ext w) (n_poll w + j) = Fulfilled operation'
       /\ done operation' = false) ->
  (forall j, j <= k ->
     (Date_now (ext w) (n_clock w + 1 + j) - Date_now (ext w) (n_clock w)
        <= 10 * 60 * 1000)%Z) ->
  k < fuel ->
  exists ops later,
    List.length ops = S k
    /\ events (snd (generateVideoClip fuel seg photo w))
       = events w
           ++ GenerateVideos (String c key) (videoRequest seg (image_part photo))
                :: poll_trace (String c key) (of_Z 5000) ops ++ later.
Proof.
  intros K Hphoto Hstart D0 Hrunning Hclock Hfuel.
  rewrite (generateVideoClip_stages fuel seg photo w c key K Hphoto). cbv zeta.
  rewrite Hstart.
  set (apiKey := String c key). set (w1 := start_requested apiKey seg photo w).
  set (deadline := (Date_now (ext w) (n_clock w) + 10 * 60 * 1000)%Z).
  destruct (pollUntilDone_keeps_polling k fuel apiKey op0 (of_Z 5000) deadline (tick_clock w1))
    as (ops & w2 & Hlen & Hev & G); try assumption.
  { intros j Hj. subst deadline. specialize (Hclock j Hj).
    subst w1. cbn [ext n_clock tick_clock start_requested tick_videos emit].
    replace (S (n_clock w) + j) with (n_clock w + 1 + j) by lia. lia. }
  assert (Hafter : forall w', grows w2 w' ->
            exists later,
              events w'
              = events w
                  ++ GenerateVideos apiKey (videoRequest seg (image_part photo))
                       :: poll_trace apiKey (of_Z 5000) ops ++ later).
  { intros w' [_ (new & Hnew & _) _]. exists new. rewrite Hnew, Hev.
    subst w1. simpl. now rewrite <- !app_assoc. }
  exists ops.
  destruct (pollUntilDone fuel apiKey op0 (of_Z 5000) deadline (tick_clock w1))
    as [[operation|e|] w3]; cbn [snd] in G |- *;
    destruct (Hafter _ G) as [later Hlater]; try (exists later; split; assumption).
  destruct (Hafter (snd (deliver apiKey operation w3))) as [later' Hlater'].
  { eapply grows_trans; [exact G | apply deliver_steady]. }
  exists later'. split; assumption.
Qed.

(* ================================================================== *)
(** ** What one [generateVideoClip] call sends *)

(** Either nothing leaves the page, or a start request does, followed by
    the waits and polls of the loop and then at most one download. *)
Definition clip_trace_shape (seg : VideoSegment) (key : option string)
    (new : list Event) : Prop :=
  new = [] \/
  exists apiKey imagePart ops tail,
    key = Some apiKey
    /\ new = GenerateVideos apiKey (videoRequest seg imagePart)
               :: poll_trace apiKey (of_Z 5000) ops ++ tail
    /\ (tail = [] \/ exists url, tail = [Fetch url]).

Lemma generateVideoClip_trace fuel seg photo w :
  exists new,
    events (snd (generateVideoClip fuel seg photo w)) = events w ++ new
    /\ clip_trace_shape seg (env_API_KEY (ext w)) new.
Proof.
  assert (Hnone : forall w', events w' = events w ->
            exists new, events w' = events w ++ new
                        /\ clip_trace_shape seg (env_API_KEY (ext w)) new).
  { intros w' E. exists []. rewrite app_nil_r. split; [exact E|now left]. }
  unfold generateVideoClip. unfold bind at 1. unfold gets.
  destruct (env_API_KEY (ext w)) as [[|c key]|] eqn:K; try (apply Hnone; reflexivity).
  unfold bind at 1.
  set (readPhoto := match photo with Some p => _ | None => _ end).
  assert (HP : (exists img, readPhoto w = (Returned img, w))
               \/ exists e, readPhoto w = (Threw e, w)).
  { subst readPhoto. destruct photo as [p|]; [|left; eexists; reflexivity].
    unfold bind, fileToBase64. destruct (file_dataURL p); [left|right]; eexists; reflexivity. }
  destruct HP as [[img ->]|[e ->]]; [|apply Hnone; reflexivity].
  unfold bind at 1. unfold try_catch, ai_generateVideos.
  set (start := GenerateVideos (String c key) (videoRequest seg img)).
  set (w1 := tick_videos (emit start w)).
  destruct (models_generateVideos (ext w) (n_videos w)) as [op0|e]; cbn [await ret throw].
  2:{ exists [start]. split; [reflexivity|].
      right. exists (String c key), img, [], []. repeat split; auto. }
  unfold bind at 1. unfold now at 1. unfold bind at 1.
  set (deadline := (_ + _)%Z).
  destruct (pollUntilDone_trace fuel (String c key) op0 (of_Z 5000) deadline (tick_clock w1))
    as (ops & Hev & _).
  assert (Hpolled : forall w' tail,
            events w' = events (snd (pollUntilDone fuel (String c key) op0 (of_Z 5000)
                                       deadline (tick_clock w1))) ++ tail ->
            (tail = [] \/ exists url, tail = [Fetch url]) ->
            exists new, events w' = events w ++ new
                        /\ clip_trace_shape seg (Some (String c key)) new).
  { intros w' tail E Htail.
    exists (start :: poll_trace (String c key) (of_Z 5000) ops ++ tail). split.
    - rewrite E, Hev. subst w1. simpl. rewrite <- !app_assoc. reflexivity.
    - right. exists (String c key), img, ops, tail. auto. }
  destruct (pollUntilDone fuel (String c key) op0 (of_Z 5000) deadline (tick_clock w1))
    as [[opf|e|] w2]; cbn [snd] in Hpolled;
    try (apply (Hpolled w2 []); [now rewrite app_nil_r | now left]).
  destruct (operation_error opf);
    [apply (Hpolled w2 []); [now rewrite app_nil_r | now left]|].
  destruct (video_uri opf) as [[|c' link]|];
    try (apply (Hpolled w2 []); [now rewrite app_nil_r | now left]).
  set (url := (String c' link ++ "&key=" ++ String c key)%string).
  unfold try_catch, bind, fetch.
  destruct (fetch_reply (ext w2) (n_fetch w2)) as [response|e]; cbn [await ret throw].
  - destruct (ok response); cbn [negb].
    + destruct (blob response); cbn [await ret throw];
        apply (Hpolled _ [Fetch url]); try reflexivity; right; now exists url.
    + apply (Hpolled _ [Fetch url]); [reflexivity | right; now exists url].
  - apply (Hpolled _ [Fetch url]); [reflexivity | right; now exists url].
Qed.

Lemma waits_app (t1 t2 : list Event) : waits (t1 ++ t2) = waits t1 ++ waits t2.
Proof. unfold waits. apply flat_map_app. Qed.

Lemma polls_app (t1 t2 : list Event) : polls (t1 ++ t2) = polls t1 ++ polls t2.
Proof. unfold polls. apply flat_map_app. Qed.

Lemma backoff_ms_recurrence (i : nat) :
  (inject_Z (backoff_ms (S i)) == Qmin (inject_Z (backoff_ms i) * (3 # 2)) 15000)%Q.
Proof. destruct i as [|[|[|i]]]; reflexivity. Qed.

Lemma starts_poll_trace apiKey wait (ops : list Operation) :
  starts (poll_trace apiKey wait ops) = [].
Proof.
  revert wait. induction ops as [|operation ops IH]; intro wait; [reflexivity|].
  cbn [poll_trace].
  change (starts (SetTimeout ?ms :: GetVideosOperation ?k ?o :: ?t)) with (starts t).
  apply IH.
Qed.

Lemma firstn_of_seq (k : nat) : forall n i, k <= n -> firstn k (seq i n) = seq i k.
Proof.
  induction k as [|k IH]; intros n i H; [reflexivity|].
  destruct n as [|n]; [lia|]. cbn [seq firstn]. f_equal. apply IH. lia.
Qed.

Lemma firstn_backoff (k n : nat) :
  k <= n ->
  firstn k (map (fun i => of_Z (backoff_ms i)) (seq 0 n))
  = map (fun i => of_Z (backoff_ms i)) (seq 0 k).
Proof.
  intro H. rewrite firstn_map. now rewrite firstn_of_seq.
Qed.

(** C3. In every execution of [generateVideoClip], what is sent after the
    start request is a wait, a poll, a wait, a poll, ..., and the delays of
    those [setTimeout] waits, one before each poll, are the sequence 5000,
    7500, 11250, 15000, 15000, ...: the first is 5000 ms, each later one is
    the previous one times 1.5 capped at 15000 ms, none exceeds 15000 ms,
    and from the fourth on every wait is exactly 15000 ms. And the waits do
    happen: when the job is started and not done, [k] polls find it still
    running and no clock reading up to the [k]-th is past the deadline, the
    call makes at least [k + 1] waits, the first [k + 1] of them being
    5000, 7500, 11250, 15000, ... in that order. *)
Theorem polling_waits_back_off fuel seg photo w :
  (exists new,
     events (snd (generateVideoClip fuel seg photo w)) = events w ++ new
     /\ clip_trace_shape seg (env_API_KEY (ext w)) new
     /\ waits new
        = map (fun i => of_Z (backoff_ms i)) (seq 0 (List.length (polls new)))
     /\ (forall k c key op0,
           env_API_KEY (ext w) = Some (String c key) ->
           readable photo ->
           models_generateVideos (ext w) (n_videos w) = Fulfilled op0 ->
           done op0 = false ->
           (forall j, j < k ->
              exists operation',
                operations_getVideosOperation (ext w) (n_poll w + j) = Fulfilled operation'
                /\ done operation' = false) ->
           (forall j, j <= k ->
              (Date_now (ext w) (n_clock w + 1 + j) - Date_now (ext w) (n_clock w)
                 <= 10 * 60 * 1000)%Z) ->
           k < fuel ->
           S k <= List.length (waits new)
           /\ firstn (S k) (waits new)
              = map (fun i => of_Z (backoff_ms i)) (seq 0 (S k))))
  /\ backoff_ms 0 = 5000%Z
  /\ (forall i,
        (inject_Z (backoff_ms (S i)) == Qmin (inject_Z (backoff_ms i) * (3 # 2)) 15000)%Q)
  /\ map backoff_ms (seq 0 6) = [5000; 7500; 11250; 15000; 15000; 15000]%Z
  /\ (forall i, (backoff_ms i <= 15000)%Z)
  /\ (forall i, backoff_ms (3 + i) = 15000%Z).
Proof.
  split; [|split; [reflexivity|split; [apply backoff_ms_recurrence|split; [reflexivity|split]]]].
  - destruct (generateVideoClip_trace fuel seg photo w) as (new & E & Shape).
    exists new. split; [exact E|]. split; [exact Shape|].
    assert (Hwaits : waits new
                     = map (fun i => of_Z (backoff_ms i)) (seq 0 (List.length (polls new)))).
    { destruct Shape as [->|(apiKey & img & ops & tail & _ & -> & Htail)]; [reflexivity|].
      change (waits (GenerateVideos ?k ?r :: ?t)) with (waits t).
      change (polls (GenerateVideos ?k ?r :: ?t)) with (polls t).
      rewrite waits_app, polls_app, polls_poll_trace.
      change (poll_trace apiKey (of_Z 5000) ops)
        with (poll_trace apiKey (of_Z (backoff_ms 0)) ops).
      rewrite (waits_poll_trace apiKey ops 0).
      destruct Htail as [->|[url ->]]; simpl; now rewrite !app_nil_r. }
    split; [exact Hwaits|].
    intros k c key op0 K Hphoto Hstart D0 Hrunning Hclock Hfuel.
    destruct (generateVideoClip_keeps_polling fuel k seg photo w c key op0
                K Hphoto Hstart D0 Hrunning Hclock Hfuel) as (ops & later & Hlen & Hev).
    rewrite E in Hev. apply app_inv_head in Hev.
    assert (Hpolls : S k <= List.length (polls new)).
    { rewrite Hev.
      change (polls (GenerateVideos ?k ?r :: ?t)) with (polls t).
      rewrite polls_app, polls_poll_trace, length_app. lia. }
    rewrite Hwaits. split.
    + now rewrite length_map, length_seq.
    + now apply firstn_backoff.
  - intro i. destruct i as [|[|[|i]]]; simpl; lia.
  - reflexivity.
Qed.

(* ================================================================== *)
(** ** The duration sent with the start request (C5) *)

Lemma poll_trace_no_start apiKey wait (ops : list Operation) key request :
  ~ In (GenerateVideos key request) (poll_trace apiKey wait ops).
Proof.
  revert wait. induction ops as [|operation ops IH]; intros wait H; [contradiction|].
  cbn [poll_trace] in H. destruct H as [H|[H|H]]; try discriminate.
  exact (IH _ H).
Qed.

(** C5. For every segment with real (finite) start and end times, with
    [d = endTime - startTime] as the code computes it, the [durationSeconds]
    of the request that [generateVideoClip] builds for
    [ai.models.generateVideos] is the integer [c = clamp(round(d), 5, 8)],
    and [5 <= c <= 8], whatever [d] is. Every start request a call sends
    carries that duration; and with a key and a readable photo the call
    does send one, first of all and only once. *)
Theorem clip_duration_is_clamped (seg : VideoSegment) (s e : Q) :
  startTime seg = Fin s -> endTime seg = Fin e ->
  exists c : Z,
    clamped (sub (endTime seg) (startTime seg)) = Some c
    /\ (5 <= c <= 8)%Z
    /\ (forall imagePart, durationSeconds (videoRequest seg imagePart) = of_Z c)
    /\ (forall fuel photo w,
          exists new,
            events (snd (generateVideoClip fuel seg photo w)) = events w ++ new
            /\ (forall key request,
                  In (GenerateVideos key request) new -> durationSeconds request = of_Z c)
            /\ (forall ch key,
                  env_API_KEY (ext w) = Some (String ch key) ->
                  readable photo ->
                  exists later,
                    new = GenerateVideos (String ch key) (videoRequest seg (image_part photo))
                            :: later
                    /\ starts new = [videoRequest seg (image_part photo)]
                    /\ map durationSeconds (starts new) = [of_Z c])).
Proof.
  intros Hs He.
  destruct (clipDuration_clamped seg s e Hs He) as (c & Hc & Hd & Hb).
  exists c. split; [exact Hc|]. split; [exact Hb|].
  assert (Hreq : forall imagePart, durationSeconds (videoRequest seg imagePart) = of_Z c).
  { intro imagePart. exact Hd. }
  split; [exact Hreq|].
  intros fuel photo w.
  destruct (generateVideoClip_trace fuel seg photo w) as (new & E & Shape).
  exists new. split; [exact E|]. split.
  - intros key request Hin.
    destruct Shape as [->|(apiKey & img & ops & tail & _ & -> & Htail)]; [contradiction|].
    destruct Hin as [Hin|Hin].
    + inversion Hin; subst. apply Hreq.
    + apply in_app_or in Hin. destruct Hin as [Hin|Hin].
      * now apply poll_trace_no_start in Hin.
      * destruct Htail as [->|[url ->]]; [contradiction|].
        destruct Hin as [Hin|[]]. discriminate.
  - intros ch key K Hphoto.
    destruct (generateVideoClip_sends_start fuel seg photo w ch key K Hphoto)
      as (later & Hev).
    rewrite E in Hev. apply app_inv_head in Hev. exists later. split; [exact Hev|].
    assert (Hstarts : starts new = [videoRequest seg (image_part photo)]).
    { destruct Shape as [->|(apiKey & img & ops & tail & _ & Hnew & Htail)];
        [discriminate|].
      rewrite Hnew in Hev. injection Hev as _ Himg _. rewrite Hnew, Himg.
      change (starts (GenerateVideos ?k ?r :: ?t)) with (r :: starts t).
      unfold starts at 1. rewrite flat_map_app. fold (starts (poll_trace apiKey (of_Z 5000) ops)).
      rewrite starts_poll_trace.
      destruct Htail as [->|[url ->]]; reflexivity. }
    split; [exact Hstarts|]. rewrite Hstarts. cbn [map]. now rewrite Hreq.
Qed.

Definition segment_of_times (s e : Q) : VideoSegment :=
  {| topicSummary := "A storm gathers"; videoPrompt := "Dark clouds over a harbour";
     characterId := None; startTime := Fin s; endTime := Fin e |}.

(** Outside the reals the clamp does not apply: a missing time makes the
    difference [NaN], and [NaN] goes through [Math.min] and [Math.max]. *)
Example clip_duration_of_NaN :
  clipDuration {| topicSummary := EmptyString; videoPrompt := EmptyString;
                  characterId := None; startTime := of_Z 0; endTime := NaN |} = NaN.
Proof. reflexivity. Qed.

(** Out-of-range differences: negative, zero, far too long; and one in
    range, rounded. *)
Example clip_durations :
  map (fun se => clipDuration (segment_of_times (fst se) (snd se)))
      [(12, 1 # 2); (3, 3); (0, 250); (1 # 2, 7)]%Q
  = map of_Z [5; 5; 8; 7]%Z.
Proof. vm_compute. reflexivity. Qed.

(** The difference is the double one: from 0.1 to 5.6 it is exactly 5.5,
    which rounds up to 6, although the two doubles are less than 5.5
    apart. *)
Example clip_duration_of_a_rounded_difference :
  clipDuration (segment_of_times one_tenth five_point_six) = of_Z 6
  /\ round (five_point_six - one_tenth) = 5%Z.
Proof. vm_compute. split; reflexivity. Qed.

(* ================================================================== *)
(** ** The deadline (C4) *)

Lemma pollUntilDone_times_out (k : nat) :
  forall fuel apiKey operation wait deadline w,
    k < fuel ->
    done operation = false ->
    (forall j, j < k ->
       (Date_now (ext w) (n_clock w + j) <= deadline)%Z
       /\ exists operation',
            operations_getVideosOperation (ext w) (n_poll w + j) = Fulfilled operation'
            /\ done operation' = false) ->
    (Date_now (ext w) (n_clock w + k) > deadline)%Z ->
    exists ops w',
      pollUntilDone fuel apiKey operation wait deadline w = (Threw GenerationTimedOut, w')
      /\ List.length ops = k
      /\ events w' = events w ++ poll_trace apiKey wait ops
      /\ n_poll w' = n_poll w + k.
Proof.
  induction k as [|k IH]; intros fuel apiKey operation wait deadline w Hfuel D Hbefore Hlate;
    (destruct fuel as [|fuel]; [lia|]); rewrite pollUntilDone_step by assumption.
  - rewrite Nat.add_0_r in Hlate.
    destruct (Z.gtb_spec (Date_now (ext w) (n_clock w)) deadline); [|lia].
    exists [], (tick_clock w). simpl. now rewrite app_nil_r, Nat.add_0_r.
  - destruct (Hbefore 0 ltac:(lia)) as (Hearly & operation' & Hreply & D').
    rewrite Nat.add_0_r in Hearly, Hreply.
    destruct (Z.gtb_spec (Date_now (ext w) (n_clock w)) deadline); [lia|].
    rewrite Hreply.
    destruct (IH fuel apiKey operation' (next_wait wait) deadline
                (polled apiKey operation wait w)) as (ops & w' & Run & Hlen & Hev & Hn).
    + lia.
    + exact D'.
    + intros j Hj. specialize (Hbefore (S j) ltac:(lia)). simpl.
      now rewrite <- !Nat.add_succ_comm in Hbefore.
    + simpl. now rewrite <- Nat.add_succ_comm in Hlate.
    + exists (operation :: ops), w'. rewrite Run, Hev, Hn, events_polled.
      repeat split.
      * simpl. now rewrite Hlen.
      * now rewrite <- app_assoc.
      * simpl. lia.
Qed.

Lemma generateVideoClip_times_out (fuel k : nat) (seg : VideoSegment)
    (photo : option File) (w : World) (c : ascii) (key : string) (op0 : Operation) :
  env_API_KEY (ext w) = Some (String c key) ->
  (forall p, photo = Some p -> file_dataURL p <> None) ->
  models_generateVideos (ext w) (n_videos w) = Fulfilled op0 ->
  done op0 = false ->
  (forall j, j < k ->
     (Date_now (ext w) (n_clock w + 1 + j) - Date_now (ext w) (n_clock w)
        <= 10 * 60 * 1000)%Z
     /\ exists operation',
          operations_getVideosOperation (ext w) (n_poll w + j) = Fulfilled operation'
          /\ done operation' = false) ->
  (Date_now (ext w) (n_clock w + 1 + k) - Date_now (ext w) (n_clock w)
     > 10 * 60 * 1000)%Z ->
  k < fuel ->
  exists w' imagePart ops,
    generateVideoClip fuel seg photo w = (Threw GenerationTimedOut, w')
    /\ n_poll w' = n_poll w + k
    /\ List.length ops = k
    /\ events w'
       = events w
           ++ GenerateVideos (String c key) (videoRequest seg imagePart)
                :: poll_trace (String c key) (of_Z 5000) ops.
Proof.
  intros K Hphoto Hstart D0 Hbefore Hlate Hfuel.
  unfold generateVideoClip. unfold bind at 1. unfold gets. rewrite K.
  unfold bind at 1.
  set (readPhoto := match photo with Some p => _ | None => _ end).
  assert (HP : exists img, readPhoto w = (Returned img, w)).
  { subst readPhoto. destruct photo as [p|]; [|eexists; reflexivity].
    unfold bind, fileToBase64. specialize (Hphoto p eq_refl).
    destruct (file_dataURL p); [eexists; reflexivity | congruence]. }
  destruct HP as [img ->].
  unfold bind at 1. unfold try_catch, ai_generateVideos. rewrite Hstart.
  cbn [await ret].
  set (start := GenerateVideos (String c key) (videoRequest seg img)).
  set (w1 := tick_videos (emit start w)).
  unfold bind at 1. unfold now at 1. unfold bind at 1.
  destruct (pollUntilDone_times_out k fuel (String c key) op0 (of_Z 5000)
              (Date_now (ext w1) (n_clock w1) + 10 * 60 * 1000)%Z (tick_clock w1))
    as (ops & w' & Run & Hlen & Hev & Hn); try assumption.
  - intros j Hj. destruct (Hbefore j Hj) as (Hearly & Hreply).
    subst w1. cbn [ext n_clock n_poll tick_clock tick_videos emit].
    replace (S (n_clock w) + j) with (n_clock w + 1 + j) by lia.
    split; [lia | exact Hreply].
  - subst w1. cbn [ext n_clock tick_clock tick_videos emit].
    replace (S (n_clock w) + k) with (n_clock w + 1 + k) by lia. lia.
  - rewrite Run. exists w', img, ops. split; [reflexivity|]. split; [exact Hn|].
    split; [exact Hlen|]. rewrite Hev. subst w1. simpl.
    now rewrite <- app_assoc.
Qed.

(** C4. Let the job be started (the start request resolved at clock
    reading [started]) and stay not done: the first [k] polls all succeed
    and report [done = false]. If the first time the loop finds more than
    10 minutes elapsed is after those [k] polls, [generateVideoClip] rejects
    with the timeout error there, however quickly the polls were answered,
    and it has made exactly those [k] polls: nothing is sent after the last
    of them. *)
Theorem generation_times_out_past_deadline (fuel k : nat) (seg : VideoSegment)
    (photo : option File) (w : World) (c : ascii) (key : string) (op0 : Operation) :
  env_API_KEY (ext w) = Some (String c key) ->
  (forall p, photo = Some p -> file_dataURL p <> None) ->
  models_generateVideos (ext w) (n_videos w) = Fulfilled op0 ->
  done op0 = false ->
  (forall j, j < k ->
     (Date_now (ext w) (n_clock w + 1 + j) - Date_now (ext w) (n_clock w)
        <= 10 * 60 * 1000)%Z
     /\ exists operation',
          operations_getVideosOperation (ext w) (n_poll w + j) = Fulfilled operation'
          /\ done operation' = false) ->
  (Date_now (ext w) (n_clock w + 1 + k) - Date_now (ext w) (n_clock w)
     > 10 * 60 * 1000)%Z ->
  k < fuel ->
  fst (generateVideoClip fuel seg photo w) = Threw GenerationTimedOut
  /\ n_poll (snd (generateVideoClip fuel seg photo w)) = n_poll w + k
  /\ exists imagePart ops,
       List.length ops = k
       /\ events (snd (generateVideoClip fuel seg photo w))
          = events w
              ++ GenerateVideos (String c key) (videoRequest seg imagePart)
                   :: poll_trace (String c key) (of_Z 5000) ops.
Proof.
  intros K Hphoto Hstart D0 Hbefore Hlate Hfuel.
  destruct (generateVideoClip_times_out fuel k seg photo w c key op0)
    as (w' & img & ops & -> & Hn & Hlen & Hev); try assumption.
  split; [reflexivity|]. split; [exact Hn|]. now exists img, ops.
Qed.

(** *** The loop cannot outlast the deadline *)

(** The least total of the first [k] waits. *)
Fixpoint slept (k : nat) : Z :=
  match k with
  | O => 0
  | S k' => slept k' + backoff_ms k'
  end.

Lemma first_reading_past (reading : nat -> Z) (limit : Z) (n : nat) :
  (reading n > limit)%Z ->
  exists k, k <= n /\ (reading k > limit)%Z /\ forall j, j < k -> (reading j <= limit)%Z.
Proof.
  intro H.
  assert (G : forall m,
            (forall j, j < m -> (reading j <= limit)%Z) \/
            exists k, k < m /\ (reading k > limit)%Z
                      /\ forall j, j < k -> (reading j <= limit)%Z).
  { induction m as [|m [Hall|(k & Hk & Hl & Hb)]].
    - left. intros j Hj. lia.
    - destruct (Z_gt_le_dec (reading m) limit) as [Hg|Hle].
      + right. exists m. repeat split; [lia | exact Hg | exact Hall].
      + left. intros j Hj. destruct (Nat.eq_dec j m) as [->|Hne]; [exact Hle|].
        apply Hall. lia.
    - right. exists k. repeat split; [lia | exact Hl | exact Hb]. }
  destruct (G (S n)) as [Hall|(k & Hk & Hl & Hb)].
  - specialize (Hall n (Nat.lt_succ_diag_r n)). lia.
  - exists k. repeat split; [lia | exact Hl | exact Hb].
Qed.

(** If the job never completes, every poll is answered, and each wait
    lasts at least the delay asked for, the forty-third look at the clock
    at the latest is past the deadline: [generateVideoClip] does reject
    with the timeout error. *)
Lemma generation_cannot_outlast_deadline (fuel : nat) (seg : VideoSegment)
    (photo : option File) (w : World) (c : ascii) (key : string) (op0 : Operation) :
  env_API_KEY (ext w) = Some (String c key) ->
  (forall p, photo = Some p -> file_dataURL p <> None) ->
  models_generateVideos (ext w) (n_videos w) = Fulfilled op0 ->
  done op0 = false ->
  (forall j, exists operation',
      operations_getVideosOperation (ext w) (n_poll w + j) = Fulfilled operation'
      /\ done operation' = false) ->
  (Date_now (ext w) (n_clock w) <= Date_now (ext w) (n_clock w + 1))%Z ->
  (forall j, (Date_now (ext w) (n_clock w + 1 + j) + backoff_ms j
              <= Date_now (ext w) (n_clock w + 1 + S j))%Z) ->
  42 < fuel ->
  fst (generateVideoClip fuel seg photo w) = Threw GenerationTimedOut.
Proof.
  intros K Hphoto Hstart D0 Hpolls Hfirst Hsleep Hfuel.
  set (started := Date_now (ext w) (n_clock w)) in *.
  assert (Hlower : forall k,
            (started + slept k <= Date_now (ext w) (n_clock w + 1 + k))%Z).
  { induction k as [|k IH].
    - rewrite Nat.add_0_r. simpl. lia.
    - specialize (Hsleep k). cbn [slept]. lia. }
  destruct (first_reading_past
              (fun k => (Date_now (ext w) (n_clock w + 1 + k) - started)%Z)
              (10 * 60 * 1000)%Z 42) as (k & Hk & Hlate & Hbefore).
  { specialize (Hlower 42). change (slept 42) with 608750%Z in Hlower. lia. }
  destruct (generateVideoClip_times_out fuel k seg photo w c key op0)
    as (w' & img & ops & -> & _); try assumption; try lia.
  - intros j Hj. split; [apply Hbefore, Hj | apply Hpolls].
  - reflexivity.
Qed.

(* ================================================================== *)
(** ** Concrete worlds *)

Definition scene (summary : string) (s e : Z) : VideoSegment :=
  {| topicSummary := summary; videoPrompt := "Wide shot: " ++ summary;
     characterId := None; startTime := of_Z s; endTime := of_Z e |}.

Definition scene1 : VideoSegment := scene "The ship arrives" 0 6.
Definition scene2 : VideoSegment := scene "The crew goes ashore" 6 13.
Definition scene3 : VideoSegment := scene "Night falls" 13 20.

Definition narration : File :=
  {| file_name := "story.mp3"; file_type := "audio/mpeg";
     file_dataURL := Some "data:audio/mpeg;base64,QUJD" |}.

Definition running_operation : Operation :=
  {| done := false; operation_error := None; video_uri := None |}.

Definition finished_operation : Operation :=
  {| done := true; operation_error := None;
     video_uri := Some "https://videos.example/clip?alt=media" |}.

(** A service that answers everything: three scenes, and each job done at
    its first poll. *)
Definition healthy : External :=
  {| env_API_KEY := Some "secret";
     models_generateContent := fun _ => Fulfilled "```json[...]```";
     JSON_parse := fun _ => Fulfilled [scene1; scene2; scene3];
     models_generateVideos := fun _ => Fulfilled running_operation;
     operations_getVideosOperation := fun _ => Fulfilled finished_operation;
     Date_now := fun n => (1000 * Z.of_nat n)%Z;
     fetch_reply := fun _ => Fulfilled {| ok := true; statusText := "OK";
                                          blob := Fulfilled "bytes" |} |}.

(** The same with no credential in the environment. *)
Definition without_credential : External :=
  {| env_API_KEY := None;
     models_generateContent := models_generateContent healthy;
     JSON_parse := JSON_parse healthy;
     models_generateVideos := models_generateVideos healthy;
     operations_getVideosOperation := operations_getVideosOperation healthy;
     Date_now := Date_now healthy;
     fetch_reply := fetch_reply healthy |}.

(** Jobs that never complete, the clock read every 400 seconds. *)
Definition stalled : External :=
  {| env_API_KEY := Some "secret";
     models_generateContent := models_generateContent healthy;
     JSON_parse := JSON_parse healthy;
     models_generateVideos := models_generateVideos healthy;
     operations_getVideosOperation := fun _ => Fulfilled running_operation;
     Date_now := fun n => (400000 * Z.of_nat n)%Z;
     fetch_reply := fetch_reply healthy |}.

(** Two scenes, and a generator that refuses every start request. *)
Definition refusing : External :=
  {| env_API_KEY := Some "secret";
     models_generateContent := models_generateContent healthy;
     JSON_parse := fun _ => Fulfilled [scene1; scene2];
     models_generateVideos := fun _ => Rejected (ErrorObj "quota exceeded");
     operations_getVideosOperation := operations_getVideosOperation healthy;
     Date_now := Date_now healthy;
     fetch_reply := fetch_reply healthy |}.

(** The page once the user has chosen the narration and both players
    exist. *)
Definition ready_page (x : External) : Page :=
  let p := constructor x in
  {| app := set_audioFile (Some narration)
              (set_audioPlayer (Some {| currentTime := of_Z 0; audio_playing := false |})
                 (set_videoPlayer (Some {| src := EmptyString; video_playing := false |})
                    (app p)));
     world := world p |}.

Lemma generation_times_out_past_deadline_witness :
  fst (generateVideoClip 5 scene1 None (initial_world stalled)) = Threw GenerationTimedOut
  /\ n_poll (snd (generateVideoClip 5 scene1 None (initial_world stalled))) = 0 + 1
  /\ exists imagePart ops,
       List.length ops = 1
       /\ events (snd (generateVideoClip 5 scene1 None (initial_world stalled)))
          = [] ++ GenerateVideos "secret" (videoRequest scene1 imagePart)
                    :: poll_trace "secret" (of_Z 5000) ops.
Proof.
  apply (generation_times_out_past_deadline 5 1 scene1 None (initial_world stalled)
           "s"%char "ecret" running_operation).
  - reflexivity.
  - intros p H. discriminate.
  - reflexivity.
  - reflexivity.
  - intros j Hj. destruct j as [|j]; [|lia]. split.
    + vm_compute. discriminate.
    + exists running_operation. split; reflexivity.
  - reflexivity.
  - lia.
Defined.

(** Jobs done at their sixth poll. *)
Definition slow : External :=
  {| env_API_KEY := Some "secret";
     models_generateContent := models_generateContent healthy;
     JSON_parse := JSON_parse healthy;
     models_generateVideos := models_generateVideos healthy;
     operations_getVideosOperation :=
       fun n => Fulfilled (if n <? 5 then running_operation else finished_operation);
     Date_now := Date_now healthy;
     fetch_reply := fetch_reply healthy |}.

(** The waits of a slow job, evaluated. *)
Example slow_job_waits :
  let run := generateVideoClip 10 scene1 None (initial_world slow) in
  fst run = Returned "blob:0"%string
  /\ waits (events (snd run)) = map of_Z [5000; 7500; 11250; 15000; 15000; 15000]%Z.
Proof. vm_compute. split; reflexivity. Qed.

Lemma polling_waits_back_off_witness :
  exists new,
    events (snd (generateVideoClip 10 scene1 None (initial_world slow)))
    = events (initial_world slow) ++ new
    /\ 5 <= List.length (waits new)
    /\ firstn 5 (waits new) = map (fun i => of_Z (backoff_ms i)) (seq 0 5).
Proof.
  destruct (proj1 (polling_waits_back_off 10 scene1 None (initial_world slow)))
    as (new & E & _ & _ & H).
  exists new. refine (conj E _).
  apply (H 4 "s"%char "ecret" running_operation).
  - reflexivity.
  - intros p Hp. discriminate.
  - reflexivity.
  - reflexivity.
  - intros j Hj. exists running_operation. split; [|reflexivity].
    destruct j as [|[|[|[|j]]]]; try reflexivity. lia.
  - intros j Hj. cbn [slow healthy Date_now ext initial_world n_clock]. lia.
  - lia.
Defined.

Lemma clip_duration_is_clamped_witness :
  durationSeconds (videoRequest (segment_of_times 12 (1 # 2)) None) = of_Z 5
  /\ durationSeconds (videoRequest (segment_of_times 0 250) None) = of_Z 8
  /\ durationSeconds (videoRequest (segment_of_times one_tenth five_point_six) None) = of_Z 6
  /\ map durationSeconds
       (starts (events (snd (generateVideoClip 3 scene2 None (initial_world healthy)))))
     = [of_Z 7].
Proof.
  refine (conj _ (conj _ (conj _ _))).
  - destruct (clip_duration_is_clamped (segment_of_times 12 (1 # 2)) 12 (1 # 2)
                eq_refl eq_refl) as (c & Hc & _ & Hreq & _).
    vm_compute in Hc. injection Hc as <-. exact (Hreq None).
  - destruct (clip_duration_is_clamped (segment_of_times 0 250) 0 250
                eq_refl eq_refl) as (c & Hc & _ & Hreq & _).
    vm_compute in Hc. injection Hc as <-. exact (Hreq None).
  - destruct (clip_duration_is_clamped (segment_of_times one_tenth five_point_six)
                one_tenth five_point_six eq_refl eq_refl) as (c & Hc & _ & Hreq & _).
    vm_compute in Hc. injection Hc as <-. exact (Hreq None).
  - destruct (clip_duration_is_clamped scene2 6 13 eq_refl eq_refl)
      as (c & Hc & _ & _ & Hrun).
    vm_compute in Hc. injection Hc as <-.
    destruct (Hrun 3 None (initial_world healthy)) as (new & E & _ & Hsent).
    destruct (Hsent "s"%char "ecret" eq_refl ltac:(intros p Hp; discriminate))
      as (later & _ & _ & Hdur).
    rewrite E. exact Hdur.
Defined.

(** A stalled job under an honest clock times out, whatever the fuel
    beyond the forty-three readings. *)
Example stalled_job_times_out :
  fst (generateVideoClip 50 scene1 None (initial_world stalled)) = Threw GenerationTimedOut.
Proof.
  apply (generation_cannot_outlast_deadline 50 scene1 None (initial_world stalled)
           "s"%char "ecret" running_operation); try reflexivity.
  - intros p H. discriminate.
  - intro j. exists running_operation. split; reflexivity.
  - cbn. lia.
  - intro j. cbn [stalled Date_now ext initial_world n_clock].
    assert (backoff_ms j <= 15000)%Z by (destruct j as [|[|[|j]]]; simpl; lia). lia.
  - lia.
Qed.

(* ================================================================== *)
(** ** The orchestrator, one segment at a time *)

(** The progress note written before a clip is generated. *)
Definition announce (n i : nat) (seg : VideoSegment) (c : AppComponent) : AppComponent :=
  set_progress
    (set_current_message i
       ("Generating clip " ++ nat_to_string (i + 1) ++ "/" ++ nat_to_string n
          ++ ": " ++ topicSummary seg)
       (progress c)) c.

Definition add_clip (seg : VideoSegment) (url : string) (c : AppComponent) : AppComponent :=
  set_generatedClips (generatedClips c ++ [{| segment := seg; blobUrl := url |}]) c.

Lemma generateClips_step fuel n i seg rest p :
  generateClips fuel n i (seg :: rest) p =
    let a := announce n i seg (app p) in
    let photo := photo_for seg (characters (app p)) in
    match generateVideoClip fuel seg photo (emit (ClipInvoked i seg photo) (world p)) with
    | (Returned url, w) =>
        generateClips fuel n (S i) rest
          {| app := add_clip seg url a; world := emit (ClipSettled i (Returned url)) w |}
    | (Threw e, w) => (Threw e, {| app := a; world := emit (ClipSettled i (Threw e)) w |})
    | (Pending, w) => (Pending, {| app := a; world := w |})
    end.
Proof.
  cbn [generateClips]. unfold bind at 1. unfold update at 1.
  unfold bind at 1. unfold signal at 1. cbn [app world].
  unfold bind at 1. unfold mark, service, modify. cbn [app world].
  unfold bind at 1. unfold settling. cbn [app world characters set_progress].
  fold (announce n i seg (app p)).
  destruct (generateVideoClip fuel seg (photo_for seg (characters (app p)))
              (emit (ClipInvoked i seg (photo_for seg (characters (app p)))) (world p)))
    as [[url|e|] w]; cbn [app world]; reflexivity.
Qed.

(** The clips made of the first segments and the handles obtained for
    them. *)
Fixpoint clips_of (segs : list VideoSegment) (urls : list string) : list GeneratedClip :=
  match segs, urls with
  | seg :: segs', url :: urls' =>
      {| segment := seg; blobUrl := url |} :: clips_of segs' urls'
  | _, _ => []
  end.

(** The marks of a run over [todo], from index [i], that obtained [urls]
    for the first segments and then ended as [final] says. *)
Fixpoint call_log (chars : list Character) (i : nat) (todo : list VideoSegment)
    (urls : list string) (final : Outcome unit) : list Event :=
  match todo with
  | [] => []
  | seg :: rest =>
      ClipInvoked i seg (photo_for seg chars)
        :: match urls with
           | url :: urls' =>
               ClipSettled i (Returned url) :: call_log chars (S i) rest urls' final
           | [] =>
               match final with
               | Threw e => [ClipSettled i (Threw e)]
               | _ => []
               end
           end
  end.

Lemma marks_app (t1 t2 : list Event) : marks (t1 ++ t2) = marks t1 ++ marks t2.
Proof. apply filter_app. Qed.

Lemma marks_emit_mark e w :
  is_mark e = true -> marks (events (emit e w)) = marks (events w) ++ [e].
Proof. intro H. simpl. rewrite marks_app. unfold marks at 2. simpl. now rewrite H. Qed.

Lemma marks_grows w w' : grows w w' -> marks (events w') = marks (events w).
Proof.
  intros [_ (new & -> & Hnew) _]. rewrite marks_app, Hnew. apply app_nil_r.
Qed.

(** What a run of the loop leaves behind. *)
Lemma generateClips_run (todo : list VideoSegment) :
  forall fuel n i p,
  exists urls,
    generatedClips (app (snd (generateClips fuel n i todo p)))
    = generatedClips (app p) ++ clips_of todo urls
    /\ marks (events (world (snd (generateClips fuel n i todo p))))
       = marks (events (world p))
           ++ call_log (characters (app p)) i todo urls (fst (generateClips fuel n i todo p))
    /\ List.length urls <= List.length todo
    /\ (fst (generateClips fuel n i todo p) = Returned tt
        <-> List.length urls = List.length todo)
    /\ status (app (snd (generateClips fuel n i todo p))) = status (app p)
    /\ errorMsg (app (snd (generateClips fuel n i todo p))) = errorMsg (app p)
    /\ ext (world (snd (generateClips fuel n i todo p))) = ext (world p)
    /\ exists more,
         objectURLs (world (snd (generateClips fuel n i todo p)))
         = objectURLs (world p) ++ more.
Proof.
  induction todo as [|seg rest IH]; intros fuel n i p.
  - exists []. simpl. rewrite !app_nil_r. repeat split; auto.
    exists []. now rewrite app_nil_r.
  - rewrite generateClips_step. cbv zeta.
    set (photo := photo_for seg (characters (app p))).
    set (w0 := emit (ClipInvoked i seg photo) (world p)).
    pose proof (generateVideoClip_steady fuel seg photo w0) as G.
    assert (M0 : marks (events w0) = marks (events (world p)) ++ [ClipInvoked i seg photo])
      by (apply marks_emit_mark; reflexivity).
    destruct (generateVideoClip fuel seg photo w0) as [[url|e|] w1]; cbn [snd] in G.
    + set (p1 := {| app := add_clip seg url (announce n i seg (app p));
                    world := emit (ClipSettled i (Returned url)) w1 |}).
      destruct (IH fuel n (S i) p1)
        as (urls & Hclips & Hmarks & Hlen & Hret & Hst & Herr & Hext & more & Hurls).
      exists (url :: urls). rewrite Hclips, Hmarks, Hst, Herr, Hext, Hurls.
      subst p1. cbn [app world add_clip announce generatedClips set_generatedClips
                       set_progress characters status errorMsg clips_of call_log].
      rewrite marks_emit_mark by reflexivity. rewrite (marks_grows _ _ G), M0.
      rewrite <- !app_assoc. cbn [app].
      repeat split; auto.
      * cbn [List.length]. lia.
      * intro H. apply Hret in H. cbn [List.length]. lia.
      * intro H. apply Hret. cbn [List.length] in H. lia.
      * simpl. destruct G as [-> _ _]. reflexivity.
      * destruct G as [_ _ (u1 & Hu)]. simpl. rewrite Hu. exists (u1 ++ more).
        now rewrite app_assoc.
    + exists []. cbn [fst snd app world call_log clips_of List.length announce
                        generatedClips set_progress status errorMsg].
      rewrite marks_emit_mark by reflexivity. rewrite (marks_grows _ _ G), M0.
      rewrite <- !app_assoc, app_nil_r. cbn [app].
      repeat split; auto; try lia; try discriminate.
      * simpl. destruct G as [-> _ _]. reflexivity.
      * destruct G as [_ _ (u1 & Hu)]. simpl. rewrite Hu. now exists u1.
    + exists []. cbn [fst snd app world call_log clips_of List.length announce
                        generatedClips set_progress status errorMsg].
      rewrite (marks_grows _ _ G), M0. rewrite app_nil_r.
      repeat split; auto; try lia; try discriminate.
      * destruct G as [-> _ _]. reflexivity.
      * destruct G as [_ _ (u1 & Hu)]. simpl. rewrite Hu. now exists u1.
Qed.

(** *** Reading the marks *)

(** The generator calls recorded in a log: index and segment. *)
Definition invocations (log : list Event) : list (nat * VideoSegment) :=
  flat_map (fun e => match e with ClipInvoked j seg _ => [(j, seg)] | _ => [] end) log.

(** A log is sequential from index [i] when it is a call of index [i],
    then, if anything follows, how that call settled, and a further call
    only after a fulfilled one, with the next index. *)
Fixpoint sequential_from (i : nat) (log : list Event) : bool :=
  match log with
  | [] => true
  | ClipInvoked j _ _ :: after =>
      (j =? i) &&
      match after with
      | [] => true
      | ClipSettled j' (Returned _) :: rest => (j' =? i) && sequential_from (S i) rest
      | [ClipSettled j' _] => j' =? i
      | _ => false
      end
  | _ => false
  end.





Lemma clips_of_length (segs : list VideoSegment) :
  forall urls, List.length (clips_of segs urls)
               = Nat.min (List.length segs) (List.length urls).
Proof.
  induction segs as [|seg segs IH]; intros [|url urls]; simpl; auto.
Qed.


(* ================================================================== *)
(** ** [generateStory] as a whole *)

(** The signals once a run has begun. *)
Definition begun (c : AppComponent) : AppComponent :=
  set_errorMsg EmptyString (set_generatedClips [] (set_status processing c)).

(** The [catch] clause. *)
Definition failed (e : Thrown) (p : Page) : Page :=
  let c := set_status error (set_errorMsg (message_of e) (app p)) in
  {| app := set_progress (set_stage_message "Error" (message_of e) (progress c)) c;
     world := world p |}.

Definition planned (n : nat) (c : AppComponent) : AppComponent :=
  set_progress {| stage := "Generating clips"; total := of_nat n; current := of_Z 0;
                  message := "Starting video generation..." |} c.

Definition completed (n : nat) (p : Page) : Page :=
  {| app := set_status complete
              (set_progress {| stage := "Finished"; total := of_nat n; current := of_nat n;
                               message := "All clips generated!" |} (app p));
     world := world p |}.

Lemma generateStory_unfold fuel p audio :
  audioFile (app p) = Some audio ->
  generateStory fuel p =
    match transcribeAndSegmentAudio audio (storyContext (app p)) (characters (app p))
            (world p) with
    | (Returned segments, w) =>
        let n := List.length segments in
        match generateClips fuel n 0 segments
                {| app := planned n (begun (app p)); world := w |} with
        | (Returned _, p') => (Returned tt, completed n p')
        | (Threw e, p') => (Returned tt, failed e p')
        | (Pending, p') => (Pending, p')
        end
    | (Threw e, w) => (Returned tt, failed e {| app := begun (app p); world := w |})
    | (Pending, w) => (Pending, {| app := begun (app p); world := w |})
    end.
Proof.
  intro H. unfold generateStory. unfold bind at 1. unfold signal at 1. rewrite H.
  unfold bind at 1. unfold update at 1. unfold bind at 1. unfold update at 1.
  unfold bind at 1. unfold update at 1. cbn [app world].
  fold (begun (app p)).
  unfold try_catch. unfold bind at 1. unfold signal at 1.
  unfold bind at 1. unfold signal at 1. cbn [app world].
  unfold bind at 1. unfold service at 1. cbn [app world].
  change (storyContext (begun (app p))) with (storyContext (app p)).
  change (characters (begun (app p))) with (characters (app p)).
  destruct (transcribeAndSegmentAudio audio (storyContext (app p)) (characters (app p)) (world p))
    as [[segments|e|] w]; cbn [app world]; try reflexivity.
  unfold bind at 1. unfold update at 1. cbn [app world].
  fold (planned (List.length segments) (begun (app p))).
  unfold bind at 1.
  destruct (generateClips fuel (List.length segments) 0 segments
              {| app := planned (List.length segments) (begun (app p)); world := w |})
    as [[[]|e|] p']; reflexivity.
Qed.



(* ================================================================== *)
(** ** Order and number of the generator calls (C1) *)



(** The healthy run, evaluated: three calls, three clips, in order. *)
Example healthy_run :
  let p' := snd (generateStory 3 (ready_page healthy)) in
  status (app p') = complete
  /\ map segment (generatedClips (app p')) = [scene1; scene2; scene3]
  /\ map blobUrl (generatedClips (app p')) = ["blob:0"; "blob:1"; "blob:2"]
  /\ invocations (marks (events (world p'))) = [(0, scene1); (1, scene2); (2, scene3)]
  /\ sequential_from 0 (marks (events (world p'))) = true.
Proof. vm_compute. repeat split. Qed.


(** Two scenes; the second start request is refused. *)
Definition refusing_second : External :=
  {| env_API_KEY := Some "secret";
     models_generateContent := models_generateContent healthy;
     JSON_parse := fun _ => Fulfilled [scene1; scene2];
     models_generateVideos :=
       fun n => match n with
                | 0 => Fulfilled running_operation
                | _ => Rejected (ErrorObj "quota exceeded")
                end;
     operations_getVideosOperation := operations_getVideosOperation healthy;
     Date_now := Date_now healthy;
     fetch_reply := fetch_reply healthy |}.

(** The segmenter itself is refused. *)
Definition unreachable : External :=
  {| env_API_KEY := Some "secret";
     models_generateContent := fun _ => Rejected (ErrorObj "network down");
     JSON_parse := JSON_parse healthy;
     models_generateVideos := models_generateVideos healthy;
     operations_getVideosOperation := operations_getVideosOperation healthy;
     Date_now := Date_now healthy;
     fetch_reply := fetch_reply healthy |}.

(* ================================================================== *)
(** ** The service does not read the trace *)

(** Two worlds alike in all but the trace of what was sent. *)
Definition same_but_trace (w w' : World) : Prop :=
  ext w' = ext w /\ n_content w' = n_content w /\ n_videos w' = n_videos w
  /\ n_poll w' = n_poll w /\ n_clock w' = n_clock w /\ n_fetch w' = n_fetch w
  /\ objectURLs w' = objectURLs w /\ service_progress w' = service_progress w.

(** A computation whose result and whose effect on all but the trace do
    not depend on the trace. *)
Definition trace_blind {A} (m : M World A) : Prop :=
  forall w w', same_but_trace w w' ->
    fst (m w') = fst (m w) /\ same_but_trace (snd (m w)) (snd (m w')).

Lemma same_but_trace_refl w : same_but_trace w w.
Proof. repeat split. Qed.

Lemma same_but_trace_emit e w w' : same_but_trace w w' -> same_but_trace w (emit e w').
Proof. intro H. exact H. Qed.

Lemma trace_blind_ret {A} (a : A) : trace_blind (ret a).
Proof. intros w w' H. split; [reflexivity | exact H]. Qed.

Lemma trace_blind_throw {A} (e : Thrown) : trace_blind (@throw World A e).
Proof. intros w w' H. split; [reflexivity | exact H]. Qed.

Lemma trace_blind_pending {A} : trace_blind (@pending World A).
Proof. intros w w' H. split; [reflexivity | exact H]. Qed.

Lemma trace_blind_await {A} (reply : Settled A) : trace_blind (@await World A reply).
Proof. destruct reply; intros w w' H; (split; [reflexivity | exact H]). Qed.

Lemma trace_blind_bind {A B} (m : M World A) (k : A -> M World B) :
  trace_blind m -> (forall a, trace_blind (k a)) -> trace_blind (bind m k).
Proof.
  intros Hm Hk w w' H. unfold bind. destruct (Hm w w' H) as [R S1].
  destruct (m w) as [r w1], (m w') as [r' w1']. cbn [fst snd] in R, S1. subst r'.
  destruct r as [a|e|]; [apply Hk; exact S1 | |]; (split; [reflexivity | exact S1]).
Qed.

Lemma trace_blind_try_catch {A} (m : M World A) (h : Thrown -> M World A) :
  trace_blind m -> (forall e, trace_blind (h e)) -> trace_blind (try_catch m h).
Proof.
  intros Hm Hh w w' H. unfold try_catch. destruct (Hm w w' H) as [R S1].
  destruct (m w) as [r w1], (m w') as [r' w1']. cbn [fst snd] in R, S1. subst r'.
  destruct r as [a|e|]; [|apply Hh; exact S1|]; (split; [reflexivity | exact S1]).
Qed.

Ltac blind_primitive :=
  let w := fresh "w" in
  let w' := fresh "w'" in
  let H := fresh "H" in
  intros w w' H; unfold same_but_trace in H |- *;
  destruct H as (E1 & E2 & E3 & E4 & E5 & E6 & E7 & E8);
  cbv beta delta [gets now sleep modify createObjectURL ai_generateVideos
                    ai_getVideosOperation fetch];
  rewrite ?E1, ?E2, ?E3, ?E4, ?E5, ?E6, ?E7, ?E8;
  try match goal with
      | |- context [await ?reply] => destruct reply
      end;
  cbn [await ret throw fst snd ext n_content n_videos n_poll n_clock n_fetch objectURLs
         service_progress emit tick_content tick_videos tick_poll tick_clock tick_fetch
         add_objectURL];
  rewrite ?E1, ?E2, ?E3, ?E4, ?E5, ?E6, ?E7, ?E8;
  repeat split; auto.

Lemma key_trace_blind : trace_blind (gets (fun w => env_API_KEY (ext w))).
Proof. blind_primitive. Qed.

Lemma now_trace_blind : trace_blind now.
Proof. blind_primitive. Qed.

Lemma sleep_trace_blind wait : trace_blind (sleep wait).
Proof. blind_primitive. Qed.

Lemma createObjectURL_trace_blind : trace_blind createObjectURL.
Proof. blind_primitive. Qed.

Lemma ai_generateVideos_trace_blind apiKey request :
  trace_blind (ai_generateVideos apiKey request).
Proof. blind_primitive. Qed.

Lemma ai_getVideosOperation_trace_blind apiKey operation :
  trace_blind (ai_getVideosOperation apiKey operation).
Proof. blind_primitive. Qed.

Lemma fetch_trace_blind url : trace_blind (fetch url).
Proof. blind_primitive. Qed.

Lemma fileToBase64_trace_blind file : trace_blind (fileToBase64 file).
Proof.
  unfold fileToBase64. destruct (file_dataURL file);
    [apply trace_blind_ret | apply trace_blind_throw].
Qed.

Lemma pollUntilDone_trace_blind fuel apiKey operation wait deadline :
  trace_blind (pollUntilDone fuel apiKey operation wait deadline).
Proof.
  revert operation wait.
  induction fuel as [|fuel IH]; intros operation wait; simpl;
    destruct (done operation); try apply trace_blind_ret.
  - apply trace_blind_pending.
  - apply trace_blind_bind; [apply now_trace_blind|]. intro t.
    destruct (t >? deadline)%Z; [apply trace_blind_throw|].
    apply trace_blind_bind; [apply sleep_trace_blind|]. intros _.
    apply trace_blind_bind; [|intro; apply IH].
    apply trace_blind_try_catch; [apply ai_getVideosOperation_trace_blind|].
    intro e. apply trace_blind_throw.
Qed.

(** What [generateVideoClip] returns, and what it does to the counters,
    the handles and the progress, does not depend on what was sent
    before. *)
Lemma generateVideoClip_trace_blind fuel seg photo :
  trace_blind (generateVideoClip fuel seg photo).
Proof.
  unfold generateVideoClip.
  apply trace_blind_bind; [apply key_trace_blind|]. intro key.
  destruct key as [[|c key]|]; try apply trace_blind_throw.
  apply trace_blind_bind.
  { destruct photo as [photo|]; [|apply trace_blind_ret].
    apply trace_blind_bind; [apply fileToBase64_trace_blind|]. intro.
    apply trace_blind_ret. }
  intro imagePart.
  apply trace_blind_bind.
  { apply trace_blind_try_catch; [apply ai_generateVideos_trace_blind|].
    intro e. apply trace_blind_throw. }
  intro operation.
  apply trace_blind_bind; [apply now_trace_blind|]. intro started.
  apply trace_blind_bind; [apply pollUntilDone_trace_blind|]. intro finished.
  destruct (operation_error finished); [apply trace_blind_throw|].
  destruct (video_uri finished) as [[|c' link]|]; try apply trace_blind_throw.
  apply trace_blind_try_catch; [|intro e; apply trace_blind_throw].
  apply trace_blind_bind; [apply fetch_trace_blind|]. intro response.
  destruct (negb (ok response)); [apply trace_blind_throw|].
  apply trace_blind_bind; [apply trace_blind_await|]. intro.
  apply createObjectURL_trace_blind.
Qed.

(* ================================================================== *)
(** ** Failures (C2) *)

(** The generator called on [segs] one after the other, the first call
    made in the world [w]: every call returns, the handles returned are
    [urls] in that order, and the last call leaves the world [w']. *)
Inductive all_made (fuel : nat) (chars : list Character)
    : World -> list VideoSegment -> list string -> World -> Prop :=
| made_none w : all_made fuel chars w [] [] w
| made_next w seg url w1 segs urls w2 :
    generateVideoClip fuel seg (photo_for seg chars) w = (Returned url, w1) ->
    all_made fuel chars w1 segs urls w2 ->
    all_made fuel chars w (seg :: segs) (url :: urls) w2.

Lemma all_made_clips fuel chars w segs urls w' :
  all_made fuel chars w segs urls w' ->
  map segment (clips_of segs urls) = segs
  /\ map blobUrl (clips_of segs urls) = urls
  /\ List.length (clips_of segs urls) = List.length segs.
Proof.
  induction 1 as [|w seg url w1 segs urls w2 _ _ (IH1 & IH2 & IH3)]; [repeat split|].
  cbn [clips_of map List.length segment blobUrl]. now rewrite IH1, IH2, IH3.
Qed.

(** The loop over segments of which the first are made and the next one
    fails: it stops there, with the clips made. *)
Lemma generateClips_failing fuel chars w made urls w2 :
  all_made fuel chars w made urls w2 ->
  forall seg rest e w3 n i p,
    characters (app p) = chars ->
    same_but_trace w (world p) ->
    generateVideoClip fuel seg (photo_for seg chars) w2 = (Threw e, w3) ->
    let run := generateClips fuel n i (made ++ seg :: rest) p in
    fst run = Threw e
    /\ generatedClips (app (snd run)) = generatedClips (app p) ++ clips_of made urls
    /\ same_but_trace w3 (world (snd run)).
Proof.
  induction 1 as [w|w seg0 url w1 made urls w2 Hcall _ IH];
    intros seg rest e w3 n i p Hchars Hsame Hfail.
  - cbn [List.app]. rewrite generateClips_step. cbv zeta. rewrite Hchars.
    destruct (generateVideoClip_trace_blind fuel seg (photo_for seg chars) w
                (emit (ClipInvoked i seg (photo_for seg chars)) (world p)) Hsame)
      as [R S1].
    rewrite Hfail in R, S1. cbn [fst snd] in R, S1.
    destruct (generateVideoClip fuel seg (photo_for seg chars)
                (emit (ClipInvoked i seg (photo_for seg chars)) (world p))) as [r w'].
    cbn [fst snd] in R, S1. subst r. cbn [fst snd app world clips_of].
    split; [reflexivity|]. split; [now rewrite app_nil_r | exact S1].
  - cbn [List.app]. rewrite generateClips_step. cbv zeta. rewrite Hchars.
    destruct (generateVideoClip_trace_blind fuel seg0 (photo_for seg0 chars) w
                (emit (ClipInvoked i seg0 (photo_for seg0 chars)) (world p)) Hsame)
      as [R S1].
    rewrite Hcall in R, S1. cbn [fst snd] in R, S1.
    destruct (generateVideoClip fuel seg0 (photo_for seg0 chars)
                (emit (ClipInvoked i seg0 (photo_for seg0 chars)) (world p))) as [r w'].
    cbn [fst snd] in R, S1. subst r.
    set (p1 := {| app := add_clip seg0 url (announce n i seg0 (app p));
                  world := emit (ClipSettled i (Returned url)) w' |}).
    destruct (IH seg rest e w3 n (S i) p1 Hchars S1 Hfail) as (Hr & Hclips & Hw).
    split; [exact Hr|]. split; [|exact Hw].
    rewrite Hclips. subst p1. cbn [app add_clip announce generatedClips set_generatedClips
                                     set_progress clips_of].
    now rewrite <- app_assoc.
Qed.

(** C2. Let [generateStory] run with an audio file chosen. If the
    segmenter rejects, the clip list is left empty. If the segmenter
    returns and the generator, called on the segments one after the other,
    returns for the first [i] and rejects for the next, the clip list is
    left with exactly those [i] clips, in segment order, each with the
    handle its call returned, and no further call is made. In both cases
    the state becomes [error] and [errorMsg] holds the rejection's message,
    which is not empty. *)
Theorem failure_keeps_the_clips_made_so_far fuel p audio :
  audioFile (app p) = Some audio ->
  let p' := snd (generateStory fuel p) in
  let chars := characters (app p) in
  let segmenter := transcribeAndSegmentAudio audio (storyContext (app p)) chars (world p) in
  (forall e, fst segmenter = Threw e ->
     generatedClips (app p') = []
     /\ status (app p') = error
     /\ errorMsg (app p') = message_of e
     /\ errorMsg (app p') <> EmptyString)
  /\ (forall made seg rest urls w1 w2 e w3,
        segmenter = (Returned (made ++ seg :: rest), w1) ->
        all_made fuel chars w1 made urls w2 ->
        generateVideoClip fuel seg (photo_for seg chars) w2 = (Threw e, w3) ->
        List.length (generatedClips (app p')) = List.length made
        /\ map segment (generatedClips (app p')) = made
        /\ map blobUrl (generatedClips (app p')) = urls
        /\ status (app p') = error
        /\ errorMsg (app p') = message_of e
        /\ errorMsg (app p') <> EmptyString
        /\ same_but_trace w3 (world p')).
Proof.
  intros Haudio p' chars segmenter. split.
  - intros e He.
    pose proof (transcribeAndSegmentAudio_throws audio (storyContext (app p))
                  (characters (app p)) (world p) e He) as Hne.
    subst p'. rewrite (generateStory_unfold fuel p audio Haudio).
    fold chars. fold segmenter. destruct segmenter as [r w]. cbn [fst] in He. subst r.
    cbn [snd failed app begun generatedClips status errorMsg set_progress set_status
           set_errorMsg set_generatedClips].
    repeat split. exact Hne.
  - intros made seg rest urls w1 w2 e w3 Hsegments Hmade Hfail.
    pose proof (generateVideoClip_throws fuel seg (photo_for seg chars) w2 e) as Hne.
    rewrite Hfail in Hne. specialize (Hne eq_refl).
    subst p'. rewrite (generateStory_unfold fuel p audio Haudio).
    fold chars. fold segmenter. rewrite Hsegments. cbv zeta.
    set (n := List.length (made ++ seg :: rest)).
    set (p1 := {| app := planned n (begun (app p)); world := w1 |}).
    destruct (generateClips_failing fuel chars w1 made urls w2 Hmade seg rest e w3 n 0 p1
                eq_refl (same_but_trace_refl w1) Hfail) as (Hr & Hclips & Hw).
    destruct (generateClips fuel n 0 (made ++ seg :: rest) p1) as [r p2].
    cbn [fst snd] in Hr, Hclips, Hw. subst r.
    destruct (all_made_clips fuel chars w1 made urls w2 Hmade) as (Hs & Hu & Hl).
    cbn [snd failed app world generatedClips status errorMsg set_progress set_status
           set_errorMsg].
    rewrite Hclips. cbn [app planned begun generatedClips set_progress set_errorMsg
                           set_generatedClips set_status List.app].
    repeat split; auto; apply Hw.
Qed.

Lemma failure_keeps_the_clips_made_so_far_witness :
  (generatedClips (app (snd (generateStory 3 (ready_page unreachable)))) = []
   /\ status (app (snd (generateStory 3 (ready_page unreachable)))) = error
   /\ errorMsg (app (snd (generateStory 3 (ready_page unreachable))))
      = message_of (ErrorObj "Failed to analyze audio: network down")
   /\ errorMsg (app (snd (generateStory 3 (ready_page unreachable)))) <> EmptyString)
  /\ (List.length (generatedClips (app (snd (generateStory 3 (ready_page refusing_second)))))
      = List.length [scene1]
      /\ map segment (generatedClips (app (snd (generateStory 3 (ready_page refusing_second)))))
         = [scene1]
      /\ map blobUrl (generatedClips (app (snd (generateStory 3 (ready_page refusing_second)))))
         = ["blob:0"%string]
      /\ status (app (snd (generateStory 3 (ready_page refusing_second)))) = error
      /\ errorMsg (app (snd (generateStory 3 (ready_page refusing_second))))
         = message_of (ErrorObj "Failed to start video generation: quota exceeded")).
Proof.
  refine (conj _ _).
  - exact (proj1 (failure_keeps_the_clips_made_so_far 3 (ready_page unreachable) narration
                    eq_refl)
             (ErrorObj "Failed to analyze audio: network down") eq_refl).
  - set (p := ready_page refusing_second).
    set (w1 := snd (transcribeAndSegmentAudio narration (storyContext (app p))
                      (characters (app p)) (world p))).
    set (w2 := snd (generateVideoClip 3 scene1 (photo_for scene1 (characters (app p))) w1)).
    set (w3 := snd (generateVideoClip 3 scene2 (photo_for scene2 (characters (app p))) w2)).
    destruct (proj2 (failure_keeps_the_clips_made_so_far 3 p narration eq_refl)
                [scene1] scene2 [] ["blob:0"%string] w1 w2
                (ErrorObj "Failed to start video generation: quota exceeded") w3)
      as (Hlen & Hsegs & Hurls & Hstatus & Hmsg & _).
    + vm_compute. reflexivity.
    + apply (made_next 3 (characters (app p)) w1 scene1 "blob:0"%string w2 [] [] w2).
      * vm_compute. reflexivity.
      * apply made_none.
    + vm_compute. reflexivity.
    + exact (conj Hlen (conj Hsegs (conj Hurls (conj Hstatus Hmsg)))).
Defined.

(** The second run, evaluated: the first clip is kept, the state is
    [error], the message is the generator's. *)
Example refused_second_run :
  let p' := snd (generateStory 3 (ready_page refusing_second)) in
  map segment (generatedClips (app p')) = [scene1]
  /\ status (app p') = error
  /\ errorMsg (app p') = "Failed to start video generation: quota exceeded"%string
  /\ marks (events (world p'))
     = [ClipInvoked 0 scene1 None; ClipSettled 0 (Returned "blob:0");
        ClipInvoked 1 scene2 None;
        ClipSettled 1 (Threw (ErrorObj "Failed to start video generation: quota exceeded"))].
Proof. vm_compute. repeat split. Qed.

(* ================================================================== *)
(** ** The credential (C6) *)

(** C6. With no [API_KEY] in the environment both operations fail fast.
    [generateVideoClip] rejects with its own missing-credential error,
    [transcribeAndSegmentAudio] with the error of the SDK's constructor,
    and either leaves the world exactly as it was: nothing is sent, no file
    is read, no progress is written, no handle is created. A run of
    [generateStory] then ends in [error] with the constructor's message,
    nothing having left the page. *)
Theorem absent_credential_fails_before_any_request (w : World) :
  env_API_KEY (ext w) = None ->
  (forall fuel seg photo,
      generateVideoClip fuel seg photo w = (Threw MissingCredential, w))
  /\ (forall audio context chars,
        transcribeAndSegmentAudio audio context chars w = (Threw KeyRequired, w))
  /\ message_of MissingCredential <> EmptyString
  /\ message_of KeyRequired <> EmptyString
  /\ (forall fuel p audio,
        world p = w -> audioFile (app p) = Some audio ->
        let p' := snd (generateStory fuel p) in
        world p' = w
        /\ status (app p') = error
        /\ errorMsg (app p') = message_of KeyRequired
        /\ generatedClips (app p') = []).
Proof.
  intro K.
  assert (Hsegmenter : forall audio context chars,
            transcribeAndSegmentAudio audio context chars w = (Threw KeyRequired, w)).
  { intros audio context chars.
    unfold transcribeAndSegmentAudio. unfold bind at 1. unfold gets. rewrite K.
    reflexivity. }
  split; [|split; [exact Hsegmenter|split; [discriminate|split; [discriminate|]]]].
  - intros fuel seg photo. unfold generateVideoClip, bind, gets. now rewrite K.
  - intros fuel p audio Hw Haudio p'. subst p' w.
    rewrite (generateStory_unfold fuel p audio Haudio), Hsegmenter.
    repeat split.
Qed.

Lemma absent_credential_fails_before_any_request_witness :
  generateVideoClip 3 scene1 None (initial_world without_credential)
    = (Threw MissingCredential, initial_world without_credential)
  /\ transcribeAndSegmentAudio narration EmptyString [] (initial_world without_credential)
     = (Threw KeyRequired, initial_world without_credential)
  /\ events (world (snd (generateStory 3 (ready_page without_credential)))) = []
  /\ status (app (snd (generateStory 3 (ready_page without_credential)))) = error.
Proof.
  pose proof (absent_credential_fails_before_any_request (initial_world without_credential)
                eq_refl) as (Hgenerator & Hsegmenter & _ & _ & _).
  pose proof (absent_credential_fails_before_any_request
                (world (ready_page without_credential)) eq_refl) as (_ & _ & _ & _ & Hrun).
  destruct (Hrun 3 (ready_page without_credential) narration eq_refl eq_refl)
    as (Hworld & Hstatus & _).
  refine (conj (Hgenerator 3 scene1 None) (conj (Hsegmenter narration EmptyString []) _)).
  refine (conj _ Hstatus). rewrite Hworld. reflexivity.
Defined.

(** An empty key is stopped by the generator's own check. *)
Example generator_refuses_an_empty_key (w : World) (fuel : nat) seg photo :
  env_API_KEY (ext w) = Some EmptyString ->
  generateVideoClip fuel seg photo w = (Threw MissingCredential, w).
Proof. intro K. unfold generateVideoClip, bind, gets. now rewrite K. Qed.

(* ================================================================== *)
(** ** Reset (C7, C8) *)

(** C7. [startOver], from any state and so from [error] or [complete],
    returns the pipeline to [idle] with an empty clip list, a roster of
    exactly one blank character (empty name, description and photo), no
    audio asset, an empty context text and an empty error message. *)
Theorem startOver_returns_to_idle (p : Page) :
  let p' := snd (startOver p) in
  fst (startOver p) = Returned tt
  /\ status (app p') = idle
  /\ generatedClips (app p') = []
  /\ (exists char_id,
        characters (app p')
        = [{| id := char_id; name := EmptyString; description := EmptyString;
              photoUrl := EmptyString; photoFile := None |}])
  /\ audioFile (app p') = None
  /\ audioUrl (app p') = None
  /\ storyContext (app p') = EmptyString
  /\ errorMsg (app p') = EmptyString.
Proof.
  cbv zeta. unfold startOver, addCharacter, bind, update, service, progress_set, modify, now.
  cbn [app world fst snd status generatedClips characters audioFile audioUrl storyContext
         errorMsg set_status set_audioFile set_audioUrl set_storyContext set_characters
         set_generatedClips set_errorMsg].
  repeat split. eexists. reflexivity.
Qed.

(** A handle is live while the browser still holds it. *)
Definition live (url : string) (w : World) : Prop := In url (objectURLs w).

(** C8, as amended. [startOver] discards all accumulated clips, and
    releases no blob handle: the handles the browser holds after the reset
    are exactly those it held before, and nothing is sent or revoked. *)
Theorem startOver_releases_no_handle (p : Page) :
  let p' := snd (startOver p) in
  generatedClips (app p') = []
  /\ objectURLs (world p') = objectURLs (world p)
  /\ events (world p') = events (world p)
  /\ forall clip, In clip (generatedClips (app p)) ->
       (live (blobUrl clip) (world p') <-> live (blobUrl clip) (world p)).
Proof.
  cbv zeta. unfold startOver, addCharacter, bind, update, service, progress_set, modify, now.
  cbn [app world fst snd generatedClips set_status set_audioFile set_audioUrl
         set_storyContext set_characters set_generatedClips set_errorMsg].
  repeat split; auto.
Qed.

Lemma startOver_releases_no_handle_witness :
  live "blob:0" (world (snd (startOver (snd (generateStory 3 (ready_page healthy))))))
  <-> live "blob:0" (world (snd (generateStory 3 (ready_page healthy)))).
Proof.
  apply (proj2 (proj2 (proj2 (startOver_releases_no_handle
                                (snd (generateStory 3 (ready_page healthy))))))
           {| segment := scene1; blobUrl := "blob:0" |}).
  vm_compute. left. reflexivity.
Defined.

(** C8 as stated fails: after a complete run of three clips and a reset,
    the clip list is empty and the three handles of the run are all still
    held. *)
Lemma reset_leaves_clip_handles_counterexample :
  let p := snd (generateStory 3 (ready_page healthy)) in
  let p' := snd (startOver p) in
  map blobUrl (generatedClips (app p)) = ["blob:0"; "blob:1"; "blob:2"]%string
  /\ generatedClips (app p') = []
  /\ objectURLs (world p') = ["blob:0"; "blob:1"; "blob:2"]%string
  /\ ~ (forall clip, In clip (generatedClips (app p)) ->
          ~ live (blobUrl clip) (world p')).
Proof.
  cbv zeta. split; [vm_compute; reflexivity|]. split; [vm_compute; reflexivity|].
  split; [vm_compute; reflexivity|].
  intro H.
  apply (H {| segment := scene1; blobUrl := "blob:0" |}).
  - vm_compute. left. reflexivity.
  - vm_compute. left. reflexivity.
Qed.

(* ================================================================== *)
(** ** Playback (C9) *)

(** C9. With exactly three clips and both players present, [playStory]
    sets the clip index to 0 and the video source to clip 0. The first two
    [handleVideoEnded] calls move the index to 1 and then 2, each assigning
    the clip at the new index as video source and calling [play] on the
    video, with the audio element untouched. The third call only pauses
    the audio: the index stays 2 and no video source is assigned. *)
Theorem three_clips_play_in_order (c : AppComponent) (c0 c1 c2 : GeneratedClip)
    (v : HTMLVideoElement) (a : HTMLAudioElement) :
  generatedClips c = [c0; c1; c2] ->
  videoPlayer c = Some v ->
  audioPlayer c = Some a ->
  let s0 := snd (playStory c) in
  let s1 := snd (handleVideoEnded s0) in
  let s2 := snd (handleVideoEnded s1) in
  let s3 := snd (handleVideoEnded s2) in
  (currentClipIndex s0 = 0
   /\ videoPlayer s0 = Some {| src := blobUrl c0; video_playing := true |}
   /\ option_map audio_playing (audioPlayer s0) = Some true
   /\ media_calls s0
      = media_calls c ++ [VideoSetSrc (blobUrl c0); AudioSetCurrentTime (of_Z 0);
                          AudioPlay; VideoPlay])
  /\ (fst (handleVideoEnded s0) = Returned tt
      /\ currentClipIndex s1 = 1
      /\ videoPlayer s1 = Some {| src := blobUrl c1; video_playing := true |}
      /\ audioPlayer s1 = audioPlayer s0
      /\ media_calls s1 = media_calls s0 ++ [VideoSetSrc (blobUrl c1); VideoPlay])
  /\ (fst (handleVideoEnded s1) = Returned tt
      /\ currentClipIndex s2 = 2
      /\ videoPlayer s2 = Some {| src := blobUrl c2; video_playing := true |}
      /\ audioPlayer s2 = audioPlayer s1
      /\ media_calls s2 = media_calls s1 ++ [VideoSetSrc (blobUrl c2); VideoPlay])
  /\ (fst (handleVideoEnded s2) = Returned tt
      /\ currentClipIndex s3 = 2
      /\ videoPlayer s3 = videoPlayer s2
      /\ option_map audio_playing (audioPlayer s3) = Some false
      /\ media_calls s3 = media_calls s2 ++ [AudioPause]).
Proof.
  destruct c as [vp ap st af au chars ctx clips err idx prog calls].
  cbn [generatedClips videoPlayer audioPlayer]. intros -> -> ->.
  cbv zeta. cbn. rewrite <- !app_assoc. cbn.
  repeat split.
Qed.

Definition clip_number (n : nat) (seg : VideoSegment) : GeneratedClip :=
  {| segment := seg; blobUrl := "blob:" ++ nat_to_string n |}.

Definition three_clip_player : AppComponent :=
  set_generatedClips [clip_number 0 scene1; clip_number 1 scene2; clip_number 2 scene3]
    (app (ready_page healthy)).

Lemma three_clips_play_in_order_witness :
  let s0 := snd (playStory three_clip_player) in
  let s1 := snd (handleVideoEnded s0) in
  let s2 := snd (handleVideoEnded s1) in
  let s3 := snd (handleVideoEnded s2) in
  map currentClipIndex [s0; s1; s2; s3] = [0; 1; 2; 2]
  /\ media_calls s3
     = [VideoSetSrc "blob:0"; AudioSetCurrentTime (of_Z 0); AudioPlay; VideoPlay;
        VideoSetSrc "blob:1"; VideoPlay; VideoSetSrc "blob:2"; VideoPlay; AudioPause].
Proof.
  pose proof (three_clips_play_in_order three_clip_player
                (clip_number 0 scene1) (clip_number 1 scene2) (clip_number 2 scene3)
                {| src := EmptyString; video_playing := false |}
                {| currentTime := of_Z 0; audio_playing := false |}
                eq_refl eq_refl eq_refl) as H.
  cbv zeta in H |- *.
  destruct H as ((I0 & _ & _ & M0) & (_ & I1 & _ & _ & M1) & (_ & I2 & _ & _ & M2)
                 & (_ & I3 & _ & _ & M3)).
  split.
  - cbn [map]. rewrite I0, I1, I2, I3. reflexivity.
  - rewrite M3, M2, M1, M0. reflexivity.
Defined.

(* ================================================================== *)
(** * Further properties of the service *)

(** ** The segmenter, path by path *)

Definition analyzing (done_steps : Z) (msg : string) : Progress :=
  {| stage := "Analyzing audio"; current := of_Z done_steps; total := of_Z 1;
     message := msg |}.

Definition analysis_failed (e : Thrown) : Progress :=
  {| stage := "Error"; current := of_Z 1; total := of_Z 1;
     message := "Failed to analyze audio: " ++ message_of e |}.

(** [characters.map(c => `- ${c.name} (${c.id}): ${c.description}`).join('\n')] *)
Definition characterDescriptions (chars : list Character) : string :=
  String.concat newline
    (map (fun c => "- " ++ name c ++ " (" ++ id c ++ "): " ++ description c)%string chars).

(** The one request the segmenter sends. *)
Definition content_request (w : World) (audio : File) (result context : string)
    (chars : list Character) : Event :=
  GenerateContent (env_API_KEY (ext w)) "gemini-2.5-flash"
    (systemInstruction (characterDescriptions chars) context)
    {| data := base64_of_dataURL result; mimeType := file_type audio |}.

(** The world once the request is out. *)
Definition content_requested (w : World) (audio : File) (result context : string)
    (chars : list Character) : World :=
  tick_content
    (emit (content_request w audio result context chars)
       (set_service_progress (Some (analyzing 0 "Transcribing and creating scenes...")) w)).

Lemma transcribeAndSegmentAudio_unreadable audio context chars w key :
  env_API_KEY (ext w) = Some key ->
  file_dataURL audio = None ->
  transcribeAndSegmentAudio audio context chars w
  = (Threw ProgressEvent,
     set_service_progress (Some (analyzing 0 "Transcribing and creating scenes...")) w).
Proof.
  intros K H.
  unfold transcribeAndSegmentAudio, bind, gets, new_GoogleGenAI, progress_set, modify,
    fileToGenerativePart, fileToBase64, bind.
  now rewrite K, H.
Qed.

Lemma transcribeAndSegmentAudio_readable audio context chars w key result :
  env_API_KEY (ext w) = Some key ->
  file_dataURL audio = Some result ->
  transcribeAndSegmentAudio audio context chars w
  = let w1 := content_requested w audio result context chars in
    match models_generateContent (ext w) (n_content w) with
    | Rejected e =>
        (Threw (ErrorObj ("Failed to analyze audio: " ++ message_of e)),
         set_service_progress (Some (analysis_failed e)) w1)
    | Fulfilled text =>
        match JSON_parse (ext w) (strip_fences 0 (trim text)) with
        | Rejected e =>
            (Threw (ErrorObj ("Failed to analyze audio: " ++ message_of e)),
             set_service_progress (Some (analysis_failed e)) w1)
        | Fulfilled segments =>
            (Returned segments,
             set_service_progress (Some (analyzing 1 "Audio analysis complete.")) w1)
        end
    end.
Proof.
  intros K H.
  unfold transcribeAndSegmentAudio, bind, gets, new_GoogleGenAI, progress_set, modify,
    fileToGenerativePart, fileToBase64, try_catch, ai_generateContent, bind.
  unfold content_requested, content_request.
  rewrite K, H. cbn [ret ext set_service_progress n_content apiKey_of].
  destruct (models_generateContent (ext w) (n_content w)) as [text|e];
    cbn [await ret throw]; [|reflexivity].
  cbn [ext tick_content emit set_service_progress].
  destruct (JSON_parse (ext w) (strip_fences 0 (trim text))) as [segments|e];
    reflexivity.
Qed.

(** X1. With a key in the environment, whatever goes wrong once the audio
    is read (the request is rejected, or the reply does not parse), the
    segmenter rejects with an [Error] whose message is the cause's prefixed
    by "Failed to analyze audio: ", leaves the service progress at stage
    "Error" with that same message, and has sent exactly one request. *)
Theorem segmentation_failure_is_wrapped audio context chars w (c : ascii) (key : string)
    result e :
  env_API_KEY (ext w) = Some (String c key) ->
  file_dataURL audio = Some result ->
  (models_generateContent (ext w) (n_content w) = Rejected e
   \/ exists text,
        models_generateContent (ext w) (n_content w) = Fulfilled text
        /\ JSON_parse (ext w) (strip_fences 0 (trim text)) = Rejected e) ->
  let run := transcribeAndSegmentAudio audio context chars w in
  fst run = Threw (ErrorObj ("Failed to analyze audio: " ++ message_of e))
  /\ service_progress (snd run)
     = Some {| stage := "Error"; current := of_Z 1; total := of_Z 1;
               message := "Failed to analyze audio: " ++ message_of e |}
  /\ events (snd run) = events w ++ [content_request w audio result context chars]
  /\ objectURLs (snd run) = objectURLs w.
Proof.
  intros K Hread Hcause run. subst run.
  rewrite (transcribeAndSegmentAudio_readable audio context chars w _ result K Hread).
  cbv zeta.
  destruct Hcause as [->|(text & -> & ->)]; repeat split.
Qed.

Lemma segmentation_failure_is_wrapped_witness :
  let run := transcribeAndSegmentAudio narration EmptyString []
               (initial_world unreachable) in
  fst run = Threw (ErrorObj ("Failed to analyze audio: "
                             ++ message_of (ErrorObj "network down")))
  /\ service_progress (snd run)
     = Some {| stage := "Error"; current := of_Z 1; total := of_Z 1;
               message := "Failed to analyze audio: "
                          ++ message_of (ErrorObj "network down") |}
  /\ events (snd run)
     = events (initial_world unreachable)
         ++ [content_request (initial_world unreachable) narration
               "data:audio/mpeg;base64,QUJD" EmptyString []]
  /\ objectURLs (snd run) = objectURLs (initial_world unreachable).
Proof.
  apply (segmentation_failure_is_wrapped narration EmptyString []
           (initial_world unreachable) "s"%char "ecret" "data:audio/mpeg;base64,QUJD"
           (ErrorObj "network down")).
  - reflexivity.
  - reflexivity.
  - left. reflexivity.
Defined.

(** X2. With a key in the environment, when the request is answered and
    the reply parses, the segmenter returns exactly the segments parsed
    from the reply text trimmed and stripped of its fences, none left out
    or added, leaves the service progress at "Analyzing audio" 1 of 1, and
    has sent exactly one request: the model name, the environment's key,
    the instruction built from roster and context, and the audio as the
    part of its data URL after the first comma with the file's MIME
    type. *)
Theorem segmentation_returns_the_parsed_reply audio context chars w (c : ascii)
    (key : string) result text segments :
  env_API_KEY (ext w) = Some (String c key) ->
  file_dataURL audio = Some result ->
  models_generateContent (ext w) (n_content w) = Fulfilled text ->
  JSON_parse (ext w) (strip_fences 0 (trim text)) = Fulfilled segments ->
  let run := transcribeAndSegmentAudio audio context chars w in
  fst run = Returned segments
  /\ service_progress (snd run)
     = Some {| stage := "Analyzing audio"; current := of_Z 1; total := of_Z 1;
               message := "Audio analysis complete." |}
  /\ events (snd run)
     = events w
         ++ [GenerateContent (Some (String c key)) "gemini-2.5-flash"
               (systemInstruction (characterDescriptions chars) context)
               {| data := base64_of_dataURL result; mimeType := file_type audio |}]
  /\ n_content (snd run) = S (n_content w).
Proof.
  intros K Hread Hreply Hparse run. subst run.
  rewrite (transcribeAndSegmentAudio_readable audio context chars w _ result K Hread).
  cbv zeta. rewrite Hreply, Hparse. unfold content_requested, content_request.
  rewrite K. repeat split.
Qed.

Lemma segmentation_returns_the_parsed_reply_witness :
  let run := transcribeAndSegmentAudio narration "At sea" [] (initial_world healthy) in
  fst run = Returned [scene1; scene2; scene3]
  /\ service_progress (snd run)
     = Some {| stage := "Analyzing audio"; current := of_Z 1; total := of_Z 1;
               message := "Audio analysis complete." |}
  /\ events (snd run)
     = events (initial_world healthy)
         ++ [GenerateContent (Some "secret") "gemini-2.5-flash"
               (systemInstruction (characterDescriptions []) "At sea")
               {| data := base64_of_dataURL "data:audio/mpeg;base64,QUJD";
                  mimeType := file_type narration |}]
  /\ n_content (snd run) = S (n_content (initial_world healthy)).
Proof.
  apply (segmentation_returns_the_parsed_reply narration "At sea" [] (initial_world healthy)
           "s"%char "ecret" "data:audio/mpeg;base64,QUJD" "```json[...]```"
           [scene1; scene2; scene3]);
    reflexivity.
Defined.

(** X3. With a key in the environment, an audio file the reader cannot
    read is reported raw: the segmenter rejects with the reader's event
    itself, not an [Error] and not prefixed, before anything is sent, and
    the service progress stays at "Analyzing audio" 0 of 1 rather than
    "Error". Through [generateStory] the user then sees the state [error]
    with the message "[object ProgressEvent]". *)
Theorem unreadable_audio_is_reported_raw (audio : File) :
  file_dataURL audio = None ->
  (forall context chars w (c : ascii) (key : string),
      env_API_KEY (ext w) = Some (String c key) ->
      let run := transcribeAndSegmentAudio audio context chars w in
      fst run = Threw ProgressEvent
      /\ events (snd run) = events w
      /\ service_progress (snd run)
         = Some {| stage := "Analyzing audio"; current := of_Z 0; total := of_Z 1;
                   message := "Transcribing and creating scenes..." |})
  /\ (forall fuel p (c : ascii) (key : string),
        env_API_KEY (ext (world p)) = Some (String c key) ->
        audioFile (app p) = Some audio ->
        let p' := snd (generateStory fuel p) in
        status (app p') = error
        /\ errorMsg (app p') = "[object ProgressEvent]"%string
        /\ generatedClips (app p') = []
        /\ events (world p') = events (world p)).
Proof.
  intro Hread. split.
  - intros context chars w c key K run. subst run.
    rewrite (transcribeAndSegmentAudio_unreadable audio context chars w _ K Hread).
    repeat split.
  - intros fuel p c key K Haudio p'. subst p'.
    rewrite (generateStory_unfold fuel p audio Haudio).
    rewrite (transcribeAndSegmentAudio_unreadable audio _ _ _ _ K Hread).
    repeat split.
Qed.

Definition damaged : File :=
  {| file_name := "broken.mp3"; file_type := "audio/mpeg"; file_dataURL := None |}.

Lemma unreadable_audio_is_reported_raw_witness :
  let p := {| app := set_audioFile (Some damaged) (app (ready_page healthy));
              world := world (ready_page healthy) |} in
  let p' := snd (generateStory 3 p) in
  status (app p') = error
  /\ errorMsg (app p') = "[object ProgressEvent]"%string
  /\ generatedClips (app p') = []
  /\ events (world p') = events (world p).
Proof.
  exact (proj2 (unreadable_audio_is_reported_raw damaged eq_refl) 3
           {| app := set_audioFile (Some damaged) (app (ready_page healthy));
              world := world (ready_page healthy) |} "s"%char "ecret" eq_refl eq_refl).
Defined.

(* ================================================================== *)
(** ** The reply text: white space and fences *)

Open Scope string_scope.

(** No character of [s] is [c]. *)
Fixpoint lacks (c : ascii) (s : string) : bool :=
  match s with
  | EmptyString => true
  | String a rest => negb (Ascii.eqb a c) && lacks c rest
  end.

(** The text made of the characters [chars], one after the other. *)
Definition text_of (chars : list string) : string :=
  fold_right String.append EmptyString chars.

(** Every one of [chars] is a white-space character. *)
Definition all_space (chars : list string) : bool :=
  forallb (fun c => existsb (String.eqb c) white_space) chars.

(** A fence, "```", occurs somewhere in [s]. *)
Fixpoint has_fence (s : string) : bool :=
  match s with
  | EmptyString => false
  | String _ rest => prefix "```" s || has_fence rest
  end.

Lemma prefix_other_head (c a : ascii) (pre rest : string) :
  Ascii.eqb a c = false -> prefix (String c pre) (String a rest) = false.
Proof.
  intro H. cbn [prefix]. destruct (ascii_dec c a) as [->|]; [|reflexivity].
  now rewrite Ascii.eqb_refl in H.
Qed.

Lemma strip_fences_skip (pre : string) :
  forall s, strip_fences (String.length pre) (pre ++ s) = strip_fences 0 s.
Proof.
  induction pre as [|a pre IH]; intro s; [reflexivity|].
  cbn [String.length String.append strip_fences]. apply IH.
Qed.

Lemma strip_fences_plain (s : string) :
  lacks "`" s = true -> strip_fences 0 s = s.
Proof.
  induction s as [|a s IH]; intro H; [reflexivity|].
  cbn [lacks] in H. apply andb_prop in H. destruct H as [Ha Hs].
  apply negb_true_iff in Ha.
  cbn [strip_fences]. rewrite !(prefix_other_head "`" a) by exact Ha.
  now rewrite IH.
Qed.

Lemma strip_fences_closing (body : string) :
  lacks "`" body = true -> strip_fences 0 (body ++ "```") = body.
Proof.
  induction body as [|a body IH]; intro H; [reflexivity|].
  cbn [lacks] in H. apply andb_prop in H. destruct H as [Ha Hs].
  apply negb_true_iff in Ha.
  cbn [String.append strip_fences]. rewrite !(prefix_other_head "`" a) by exact Ha.
  now rewrite IH.
Qed.

Lemma append_assoc (a b c : string) : (a ++ b) ++ c = a ++ (b ++ c).
Proof. induction a as [|x a IH]; [reflexivity|]. cbn [String.append]. now rewrite IH. Qed.

Lemma prefix_refl_append (pre s : string) : prefix pre (pre ++ s) = true.
Proof.
  induction pre as [|a pre IH]; [now destruct s|].
  cbn [String.append prefix]. destruct (ascii_dec a a); [exact IH | congruence].
Qed.

Lemma strip_fences_here (c : ascii) (rest : string) :
  strip_fences 0 (String c rest)
  = if prefix "```json" (String c rest) then strip_fences 6 rest
    else if prefix "```" (String c rest) then strip_fences 2 rest
         else String c (strip_fences 0 rest).
Proof. reflexivity. Qed.

Lemma strip_fences_opening (s : string) :
  strip_fences 0 ("```json" ++ s) = strip_fences 0 s.
Proof.
  change ("```json" ++ s) with (String "`" ("``json" ++ s)).
  rewrite strip_fences_here.
  change (String "`" ("``json" ++ s)) with ("```json" ++ s).
  rewrite prefix_refl_append.
  apply (strip_fences_skip "``json").
Qed.

Lemma append_empty (s : string) : s ++ EmptyString = s.
Proof. induction s as [|a s IH]; [reflexivity|]. cbn [String.append]. now rewrite IH. Qed.

Lemma reverse_onto_append (s : string) :
  forall acc, reverse_onto s acc = reverse s ++ acc.
Proof.
  unfold reverse. induction s as [|a s IH]; intro acc; [reflexivity|].
  cbn [reverse_onto]. rewrite IH, (IH (String a EmptyString)), append_assoc. reflexivity.
Qed.

Lemma reverse_append (a b : string) : reverse (a ++ b) = reverse b ++ reverse a.
Proof.
  induction a as [|x a IH].
  - cbn [String.append]. now rewrite append_empty.
  - cbn [String.append]. unfold reverse at 1 3. cbn [reverse_onto].
    rewrite !reverse_onto_append, IH, append_assoc. reflexivity.
Qed.

Lemma reverse_reverse (s : string) : reverse (reverse s) = s.
Proof.
  induction s as [|a s IH]; [reflexivity|].
  unfold reverse at 2. cbn [reverse_onto]. rewrite reverse_onto_append.
  rewrite reverse_append, IH. reflexivity.
Qed.

Lemma skip_spaces_skip (table : list string) (pre : string) :
  forall s, skip_spaces table (String.length pre) (pre ++ s) = skip_spaces table 0 s.
Proof.
  induction pre as [|a pre IH]; intro s.
  - cbn [String.length String.append]. reflexivity.
  - cbn [String.length String.append skip_spaces]. apply IH.
Qed.

Ltac one_of_the_spaces H :=
  cbv in H;
  repeat (destruct H as [<-|H]; [reflexivity|]);
  destruct H.

(** A white-space character at the head goes, forwards and backwards. *)
Lemma trim_start_space (c s : string) :
  In c white_space -> trim_start (c ++ s) = trim_start s.
Proof. intro H. unfold trim_start. one_of_the_spaces H. Qed.

Lemma skip_reversed_space (c s : string) :
  In c white_space ->
  skip_spaces (map reverse white_space) 0 (reverse c ++ s)
  = skip_spaces (map reverse white_space) 0 s.
Proof. intro H. one_of_the_spaces H. Qed.

Lemma all_space_In (chars : list string) :
  all_space chars = true -> Forall (fun c => In c white_space) chars.
Proof.
  unfold all_space. rewrite forallb_forall. intro H. apply Forall_forall.
  intros c Hc. specialize (H c Hc). apply existsb_exists in H.
  destruct H as (ws & Hin & E). apply String.eqb_eq in E. now subst.
Qed.

Lemma trim_start_spaces (lead : list string) (s : string) :
  all_space lead = true -> trim_start (text_of lead ++ s) = trim_start s.
Proof.
  intro H. apply all_space_In in H.
  induction H as [|c lead Hc _ IH]; [reflexivity|].
  cbn [text_of fold_right]. fold (text_of lead).
  rewrite append_assoc, (trim_start_space c _ Hc). exact IH.
Qed.

Lemma trim_end_spaces (s : string) (trail : list string) :
  all_space trail = true -> trim_end (s ++ text_of trail) = trim_end s.
Proof.
  intro H. apply all_space_In in H. unfold trim_end. f_equal.
  rewrite reverse_append. revert s.
  induction H as [|c trail Hc _ IH]; intro s; [reflexivity|].
  cbn [text_of fold_right]. fold (text_of trail).
  rewrite reverse_append, append_assoc, <- (reverse_append s c), IH, reverse_append.
  apply (skip_reversed_space c _ Hc).
Qed.

(** A text that begins with a backquote loses nothing at its start, one
    that ends with a backquote nothing at its end. *)
Lemma trim_start_kept (s : string) : trim_start (String "`" s) = String "`" s.
Proof. reflexivity. Qed.

Lemma trim_end_kept (s : string) :
  trim_end (s ++ String "`" EmptyString) = s ++ String "`" EmptyString.
Proof.
  unfold trim_end. rewrite reverse_append.
  change (reverse (String "`" EmptyString) ++ reverse s) with (String "`" (reverse s)).
  change (skip_spaces (map reverse white_space) 0 (String "`" (reverse s)))
    with (String "`" (reverse s)).
  change (String "`" (reverse s)) with (reverse (String "`" EmptyString) ++ reverse s).
  now rewrite <- reverse_append, reverse_reverse.
Qed.

(** X4. The text given to [JSON.parse]. A reply that is a JSON text with
    no backquote, wrapped in a "```json" fence and a closing "```" and
    surrounded by any white space (any of the characters that [trim]
    strips, as listed in [white_space]), is handed over as exactly that
    JSON text; a reply with no backquote at all is handed over unchanged by
    the replacement. *)
Theorem fenced_reply_is_unwrapped (lead trail : list string) (body : string) :
  lacks "`" body = true ->
  all_space lead = true ->
  all_space trail = true ->
  strip_fences 0 (trim (text_of lead ++ "```json" ++ body ++ "```" ++ text_of trail)) = body
  /\ strip_fences 0 body = body.
Proof.
  intros Hbody Hlead Htrail. split; [|now apply strip_fences_plain].
  assert (E : "```json" ++ body ++ "```" ++ text_of trail
               = (("```json" ++ body ++ "``") ++ String "`" EmptyString) ++ text_of trail).
  { rewrite !append_assoc. reflexivity. }
  unfold trim. rewrite (trim_start_spaces lead _ Hlead).
  change ("```json" ++ body ++ "```" ++ text_of trail)
    with (String "`" ("``json" ++ body ++ "```" ++ text_of trail)).
  rewrite trim_start_kept.
  change (String "`" ("``json" ++ body ++ "```" ++ text_of trail))
    with ("```json" ++ body ++ "```" ++ text_of trail).
  rewrite E, (trim_end_spaces _ trail Htrail), trim_end_kept.
  rewrite !append_assoc.
  rewrite strip_fences_opening.
  change (body ++ "``" ++ "`") with (body ++ "```").
  now apply strip_fences_closing.
Qed.

Lemma fenced_reply_is_unwrapped_witness :
  strip_fences 0
    (trim (text_of [newline; utf8 [239; 187; 191]]
           ++ "```json" ++ "[1, 2]" ++ "```"
           ++ text_of [" "; utf8 [194; 160]; utf8 [226; 128; 169]; newline]))
    = "[1, 2]"
  /\ strip_fences 0 "[1, 2]" = "[1, 2]".
Proof.
  apply (fenced_reply_is_unwrapped [newline; utf8 [239; 187; 191]]
           [" "; utf8 [194; 160]; utf8 [226; 128; 169]; newline] "[1, 2]");
    reflexivity.
Defined.

Lemma prefix_cons (a b : ascii) (pre s : string) :
  prefix (String a pre) (String b s) = Ascii.eqb a b && prefix pre s.
Proof.
  cbn [prefix]. destruct (ascii_dec a b) as [->|N].
  - now rewrite Ascii.eqb_refl.
  - destruct (Ascii.eqb_spec a b); [contradiction | reflexivity].
Qed.

Lemma prefix_nil (s : string) : prefix EmptyString s = true.
Proof. now destruct s. Qed.

Lemma strip_fences_kept (a : ascii) (rest : string) :
  Ascii.eqb "`" a = false ->
  strip_fences 0 (String a rest) = String a (strip_fences 0 rest).
Proof.
  intro H. rewrite strip_fences_here, !prefix_cons, H. reflexivity.
Qed.

(** Two backquotes open the stripped text only if they open the text. *)
Lemma strip_fences_two_backquotes (s : string) :
  prefix "``" (strip_fences 0 s) = true -> prefix "``" s = true.
Proof.
  destruct s as [|a [|b r]]; try (intro H; exact H).
  - destruct (Ascii.eqb_spec "`" a) as [<-|Na]; [intro H; exact H|].
    rewrite strip_fences_kept by (now apply Ascii.eqb_neq).
    rewrite !prefix_cons.
    destruct (Ascii.eqb_spec "`" a); [contradiction | intro H; exact H].
  - destruct (Ascii.eqb "`" a) eqn:Ea.
    + destruct (Ascii.eqb "`" b) eqn:Eb.
      * intros _. now rewrite !prefix_cons, Ea, Eb, prefix_nil.
      * rewrite strip_fences_here, !prefix_cons, Ea, Eb. cbn [andb].
        rewrite strip_fences_kept by exact Eb.
        now rewrite !prefix_cons, Ea, Eb.
    + rewrite strip_fences_kept by exact Ea. now rewrite !prefix_cons, Ea.
Qed.

Lemma strip_fences_leaves_no_fence (s : string) :
  forall skip, has_fence (strip_fences skip s) = false.
Proof.
  induction s as [|a rest IH]; intros [|k]; try reflexivity; [|apply IH].
  rewrite strip_fences_here.
  destruct (prefix "```json" (String a rest)); [apply IH|].
  destruct (prefix "```" (String a rest)) eqn:F; [apply IH|].
  cbn [has_fence]. rewrite IH, orb_false_r.
  rewrite prefix_cons in F |- *.
  destruct (Ascii.eqb "`" a); [|reflexivity]. cbn [andb] in *.
  destruct (prefix "``" (strip_fences 0 rest)) eqn:T; [|reflexivity].
  apply strip_fences_two_backquotes in T. congruence.
Qed.

(** X5. Whatever the reply, the text given to [JSON.parse] contains no
    "```" anywhere: every fence is removed, and removing them never brings
    the backquotes around them together into a new one. *)
Theorem parsed_text_has_no_fence (text : string) :
  has_fence (strip_fences 0 (trim text)) = false.
Proof. apply strip_fences_leaves_no_fence. Qed.

(** Six backquotes are two fences; five are a fence and two that stay. *)
Example backquote_runs :
  strip_fences 0 "``````" = EmptyString /\ strip_fences 0 "`````[]" = "``[]".
Proof. split; reflexivity. Qed.

(* ================================================================== *)
(** ** Data URLs *)

Lemma split_without (sep : ascii) (s : string) :
  lacks sep s = true -> split sep s = [s].
Proof.
  induction s as [|a s IH]; intro H; [reflexivity|].
  cbn [lacks] in H. apply andb_prop in H. destruct H as [Ha Hs].
  apply negb_true_iff in Ha. cbn [split]. now rewrite Ha, (IH Hs).
Qed.

Lemma split_at_first (sep : ascii) (head rest : string) :
  lacks sep head = true ->
  split sep (head ++ String sep rest) = head :: split sep rest.
Proof.
  induction head as [|a head IH]; intro H.
  - cbn [String.append split]. now rewrite Ascii.eqb_refl.
  - cbn [lacks] in H. apply andb_prop in H. destruct H as [Ha Hh].
    apply negb_true_iff in Ha. cbn [String.append split]. now rewrite Ha, (IH Hh).
Qed.

(** X6. What is sent as a file's bytes. If the reader's data URL is a
    header with no comma, a comma and a payload with no comma (base64 has
    none), [fileToBase64] resolves with exactly the payload, and the audio
    part carries it with the file's MIME type. If the data URL holds no
    comma at all, the bytes are [undefined] and the part is still built. *)
Theorem reader_payload_is_what_follows_the_comma (file : File) (w : World) :
  (forall header payload,
      lacks "," header = true -> lacks "," payload = true ->
      file_dataURL file = Some (header ++ "," ++ payload) ->
      fileToBase64 file w = (Returned (Some payload), w)
      /\ fileToGenerativePart file w
         = (Returned {| data := Some payload; mimeType := file_type file |}, w))
  /\ (forall result,
        lacks "," result = true ->
        file_dataURL file = Some result ->
        fileToBase64 file w = (Returned None, w)
        /\ fileToGenerativePart file w
           = (Returned {| data := None; mimeType := file_type file |}, w)).
Proof.
  split.
  - intros header payload Hh Hp Hread.
    assert (E : base64_of_dataURL (header ++ "," ++ payload) = Some payload).
    { unfold base64_of_dataURL.
      change (header ++ "," ++ payload) with (header ++ String "," payload).
      now rewrite (split_at_first "," header payload Hh), (split_without "," payload Hp). }
    unfold fileToGenerativePart, bind, fileToBase64. rewrite Hread, E. split; reflexivity.
  - intros result Hr Hread.
    assert (E : base64_of_dataURL result = None).
    { unfold base64_of_dataURL. now rewrite (split_without "," result Hr). }
    unfold fileToGenerativePart, bind, fileToBase64. rewrite Hread, E. split; reflexivity.
Qed.

Lemma reader_payload_is_what_follows_the_comma_witness :
  fileToBase64 narration (initial_world healthy)
    = (Returned (Some "QUJD"), initial_world healthy)
  /\ fileToGenerativePart narration (initial_world healthy)
     = (Returned {| data := Some "QUJD"; mimeType := file_type narration |},
        initial_world healthy).
Proof.
  apply (proj1 (reader_payload_is_what_follows_the_comma narration (initial_world healthy))
           "data:audio/mpeg;base64" "QUJD"); reflexivity.
Defined.

Open Scope list_scope.

(* ================================================================== *)
(** * Further properties of the generator *)

(** Two worlds that differ only in the loop's own doing: the trace, the
    clock readings used and the polls made. *)
Definition same_outside_loop (w w' : World) : Prop :=
  ext w' = ext w /\ n_content w' = n_content w /\ n_videos w' = n_videos w
  /\ n_fetch w' = n_fetch w /\ objectURLs w' = objectURLs w
  /\ service_progress w' = service_progress w.

Lemma pollUntilDone_frame fuel :
  forall apiKey operation wait deadline w,
    same_outside_loop w (snd (pollUntilDone fuel apiKey operation wait deadline w)).
Proof.
  induction fuel as [|fuel IH]; intros apiKey operation wait deadline w;
    destruct (done operation) eqn:D.
  - rewrite pollUntilDone_done by assumption. repeat split.
  - simpl. rewrite D. repeat split.
  - rewrite pollUntilDone_done by assumption. repeat split.
  - rewrite pollUntilDone_step by assumption.
    destruct (Date_now (ext w) (n_clock w) >? deadline)%Z; [repeat split|].
    destruct (operations_getVideosOperation (ext w) (n_poll w)) as [operation'|e];
      [|repeat split].
    exact (IH apiKey operation' (next_wait wait) deadline (polled apiKey operation wait w)).
Qed.

(** The job is reported done, as [final]: by the start request itself
    ([k = 0]), or by the [k]-th poll after [k - 1] polls that found it
    running, no clock reading taken before a poll being past the
    deadline. *)
Definition job_completes (w : World) (k : nat) (final : Operation) : Prop :=
  done final = true
  /\ match k with
     | O => models_generateVideos (ext w) (n_videos w) = Fulfilled final
     | S k' =>
         (exists op0, models_generateVideos (ext w) (n_videos w) = Fulfilled op0
                      /\ done op0 = false)
         /\ (forall j, j < k' ->
               exists operation',
                 operations_getVideosOperation (ext w) (n_poll w + j) = Fulfilled operation'
                 /\ done operation' = false)
         /\ operations_getVideosOperation (ext w) (n_poll w + k') = Fulfilled final
         /\ (forall j, j <= k' ->
               (Date_now (ext w) (n_clock w + 1 + j) - Date_now (ext w) (n_clock w)
                  <= 10 * 60 * 1000)%Z)
     end.

Lemma pollUntilDone_completes (k : nat) :
  forall fuel apiKey operation wait deadline w final,
    S k <= fuel ->
    done operation = false ->
    done final = true ->
    (forall j, j < k ->
       exists operation',
         operations_getVideosOperation (ext w) (n_poll w + j) = Fulfilled operation'
         /\ done operation' = false) ->
    operations_getVideosOperation (ext w) (n_poll w + k) = Fulfilled final ->
    (forall j, j <= k -> (Date_now (ext w) (n_clock w + j) <= deadline)%Z) ->
    exists ops w',
      pollUntilDone fuel apiKey operation wait deadline w = (Returned final, w')
      /\ List.length ops = S k
      /\ events w' = events w ++ poll_trace apiKey wait ops.
Proof.
  induction k as [|k IH];
    intros fuel apiKey operation wait deadline w final Hfuel D Dfinal Hrunning Hlast Hclock;
    (destruct fuel as [|fuel]; [lia|]); rewrite pollUntilDone_step by assumption;
    pose proof (Hclock 0 ltac:(lia)) as H0; rewrite Nat.add_0_r in H0;
    (destruct (Z.gtb_spec (Date_now (ext w) (n_clock w)) deadline); [lia|]).
  - rewrite Nat.add_0_r in Hlast. rewrite Hlast.
    rewrite pollUntilDone_done by assumption.
    exists [operation], (polled apiKey operation wait w).
    repeat split. apply events_polled.
  - destruct (Hrunning 0 ltac:(lia)) as (operation' & Hreply & D').
    rewrite Nat.add_0_r in Hreply. rewrite Hreply.
    destruct (IH fuel apiKey operation' (next_wait wait) deadline
                (polled apiKey operation wait w) final)
      as (ops & w' & Run & Hlen & Hev); try assumption; try lia.
    + intros j Hj. specialize (Hrunning (S j) ltac:(lia)). simpl.
      now rewrite <- Nat.add_succ_comm in Hrunning.
    + simpl. now rewrite <- Nat.add_succ_comm in Hlast.
    + intros j Hj. specialize (Hclock (S j) ltac:(lia)). simpl.
      now rewrite <- Nat.add_succ_comm in Hclock.
    + exists (operation :: ops), w'. rewrite Run, Hev, events_polled.
      repeat split.
      * simpl. now rewrite Hlen.
      * now rewrite <- app_assoc.
Qed.

Lemma generateVideoClip_delivers fuel k seg photo w (c : ascii) (key : string) final :
  env_API_KEY (ext w) = Some (String c key) ->
  readable photo ->
  job_completes w k final ->
  k <= fuel ->
  exists ops w2,
    generateVideoClip fuel seg photo w = deliver (String c key) final w2
    /\ List.length ops = k
    /\ events w2
       = events w
           ++ GenerateVideos (String c key) (videoRequest seg (image_part photo))
                :: poll_trace (String c key) (of_Z 5000) ops
    /\ same_outside_loop (start_requested (String c key) seg photo w) w2.
Proof.
  intros K Hphoto [Dfinal Hjob] Hfuel.
  rewrite (generateVideoClip_stages fuel seg photo w c key K Hphoto). cbv zeta.
  set (apiKey := String c key). set (w1 := start_requested apiKey seg photo w).
  set (deadline := (Date_now (ext w) (n_clock w) + 10 * 60 * 1000)%Z).
  pose proof (pollUntilDone_frame fuel apiKey) as Hframe.
  destruct k as [|k].
  - rewrite Hjob. rewrite pollUntilDone_done by assumption.
    exists [], (tick_clock w1). split; [reflexivity|]. split; [reflexivity|].
    split; [reflexivity|]. repeat split.
  - destruct Hjob as ((op0 & Hstart & D0) & Hrunning & Hlast & Hclock).
    rewrite Hstart.
    destruct (pollUntilDone_completes k fuel apiKey op0 (of_Z 5000) deadline
                (tick_clock w1) final) as (ops & w2 & Run & Hlen & Hev);
      try assumption.
    + intros j Hj. subst deadline. specialize (Hclock j Hj).
      subst w1. cbn [ext n_clock tick_clock start_requested tick_videos emit].
      replace (S (n_clock w) + j) with (n_clock w + 1 + j) by lia. lia.
    + specialize (Hframe op0 (of_Z 5000) deadline (tick_clock w1)).
      rewrite Run in Hframe |- *. cbn [snd] in Hframe.
      exists ops, w2. split; [reflexivity|]. split; [exact Hlen|]. split.
      * rewrite Hev. subst w1. simpl. now rewrite <- app_assoc.
      * exact Hframe.
Qed.

Lemma deliver_error apiKey operation w msg :
  operation_error operation = Some msg ->
  deliver apiKey operation w = (Threw (ErrorObj ("Video generation failed: " ++ msg)), w).
Proof. intro H. unfold deliver. now rewrite H. Qed.

Lemma deliver_no_link apiKey operation w :
  operation_error operation = None ->
  video_uri operation = None \/ video_uri operation = Some EmptyString ->
  deliver apiKey operation w
  = (Threw (ErrorObj "Video generation succeeded, but no download link was returned."), w).
Proof. intros He [H|H]; unfold deliver; now rewrite He, H. Qed.

(** The world once the download request is out. *)
Definition download_requested (url : string) (w : World) : World :=
  tick_fetch (emit (Fetch url) w).

Lemma deliver_download apiKey operation w (a : ascii) (link : string) :
  operation_error operation = None ->
  video_uri operation = Some (String a link) ->
  deliver apiKey operation w
  = let w1 := download_requested (String a link ++ "&key=" ++ apiKey) w in
    match fetch_reply (ext w) (n_fetch w) with
    | Rejected e =>
        (Threw (ErrorObj ("Downloading video failed: " ++ message_of e)), w1)
    | Fulfilled response =>
        if ok response then
          match blob response with
          | Fulfilled _ => createObjectURL w1
          | Rejected e =>
              (Threw (ErrorObj ("Downloading video failed: " ++ message_of e)), w1)
          end
        else
          (Threw (ErrorObj ("Downloading video failed: "
                            ++ ("Failed to download video: " ++ statusText response))), w1)
    end.
Proof.
  intros He Hu. unfold deliver. rewrite He, Hu.
  unfold try_catch, bind, fetch, download_requested. cbv zeta.
  destruct (fetch_reply (ext w) (n_fetch w)) as [response|e]; cbn [await ret throw];
    [|reflexivity].
  destruct (ok response); cbn [negb]; [|reflexivity].
  destruct (blob response); cbn [await ret throw]; [|reflexivity].
  unfold createObjectURL. reflexivity.
Qed.

(** ** How a call ends *)

(** X7. The successful call. With a key, a readable photo or none, a job
    reported done without error and with a link (at once or by its [k]-th
    poll) and a download that succeeds, [generateVideoClip] returns a new
    blob handle. It has sent the start request (prompt, image part of the
    photo, clamped duration), then exactly [k] waits and polls, then one
    download of the link with "&key=" and the key appended, and the handle
    returned is the one handle it created. *)
Theorem clip_is_fetched_once_the_job_is_done fuel k seg photo w (c a : ascii)
    (key link bytes : string) final response :
  env_API_KEY (ext w) = Some (String c key) ->
  readable photo ->
  job_completes w k final ->
  k <= fuel ->
  operation_error final = None ->
  video_uri final = Some (String a link) ->
  fetch_reply (ext w) (n_fetch w) = Fulfilled response ->
  ok response = true ->
  blob response = Fulfilled bytes ->
  let run := generateVideoClip fuel seg photo w in
  exists url ops,
    fst run = Returned url
    /\ List.length ops = k
    /\ events (snd run)
       = events w
           ++ GenerateVideos (String c key) (videoRequest seg (image_part photo))
                :: poll_trace (String c key) (of_Z 5000) ops
           ++ [Fetch (String a link ++ "&key=" ++ String c key)]
    /\ objectURLs (snd run) = objectURLs w ++ [url].
Proof.
  intros K Hphoto Hjob Hfuel Herr Hlink Hfetch Hok Hblob run. subst run.
  destruct (generateVideoClip_delivers fuel k seg photo w c key final K Hphoto Hjob Hfuel)
    as (ops & w2 & -> & Hlen & Hev & (Hext & _ & _ & Hnf & Hurls & _)).
  rewrite (deliver_download _ _ w2 a link Herr Hlink). cbv zeta.
  rewrite Hext, Hnf. change (ext (start_requested _ seg photo w)) with (ext w).
  change (n_fetch (start_requested (String c key) seg photo w)) with (n_fetch w).
  rewrite Hfetch, Hok, Hblob.
  eexists. exists ops. split; [reflexivity|]. split; [exact Hlen|].
  cbn [snd createObjectURL add_objectURL download_requested events objectURLs
         tick_fetch emit].
  rewrite Hev, Hurls. split; [|reflexivity].
  rewrite <- !app_assoc. reflexivity.
Qed.

Ltac done_at_first_poll :=
  split; [reflexivity|];
  split; [eexists; split; reflexivity|];
  split; [intros ? ?; lia|];
  split; [reflexivity|];
  let j := fresh "j" in
  intros j ?; destruct j; [vm_compute; discriminate | lia].

Lemma clip_is_fetched_once_the_job_is_done_witness :
  let run := generateVideoClip 3 scene1 None (initial_world healthy) in
  exists url ops,
    fst run = Returned url
    /\ List.length ops = 1
    /\ events (snd run)
       = events (initial_world healthy)
           ++ GenerateVideos "secret" (videoRequest scene1 (image_part None))
                :: poll_trace "secret" (of_Z 5000) ops
           ++ [Fetch ("https://videos.example/clip?alt=media" ++ "&key=" ++ "secret")]
    /\ objectURLs (snd run) = objectURLs (initial_world healthy) ++ [url].
Proof.
  apply (clip_is_fetched_once_the_job_is_done 3 1 scene1 None (initial_world healthy)
           "s"%char "h"%char "ecret" "ttps://videos.example/clip?alt=media" "bytes"
           finished_operation {| ok := true; statusText := "OK"; blob := Fulfilled "bytes" |}).
  - reflexivity.
  - intros p H. discriminate.
  - done_at_first_poll.
  - lia.
  - reflexivity.
  - reflexivity.
  - reflexivity.
  - reflexivity.
  - reflexivity.
Defined.

(** X8. A job that ends with an error is never downloaded: whenever the
    operation reported done carries an error, [generateVideoClip] rejects
    with "Video generation failed: " and the error's message, whether or
    not the operation also carries a link; no download is requested and no
    handle is created. *)
Theorem failed_job_is_not_downloaded fuel k seg photo w (c : ascii) (key msg : string)
    final :
  env_API_KEY (ext w) = Some (String c key) ->
  readable photo ->
  job_completes w k final ->
  k <= fuel ->
  operation_error final = Some msg ->
  let run := generateVideoClip fuel seg photo w in
  fst run = Threw (ErrorObj ("Video generation failed: " ++ msg))
  /\ n_fetch (snd run) = n_fetch w
  /\ objectURLs (snd run) = objectURLs w
  /\ exists ops,
       List.length ops = k
       /\ events (snd run)
          = events w
              ++ GenerateVideos (String c key) (videoRequest seg (image_part photo))
                   :: poll_trace (String c key) (of_Z 5000) ops.
Proof.
  intros K Hphoto Hjob Hfuel Herr run. subst run.
  destruct (generateVideoClip_delivers fuel k seg photo w c key final K Hphoto Hjob Hfuel)
    as (ops & w2 & -> & Hlen & Hev & (_ & _ & _ & Hnf & Hurls & _)).
  rewrite (deliver_error _ _ w2 msg Herr). cbn [fst snd].
  split; [reflexivity|]. split; [exact Hnf|]. split; [exact Hurls|].
  now exists ops.
Qed.

Definition rejected_operation : Operation :=
  {| done := true; operation_error := Some "prompt refused";
     video_uri := Some "https://videos.example/clip?alt=media" |}.

(** Jobs that end with an error, and a link all the same. *)
Definition failing_jobs : External :=
  {| env_API_KEY := Some "secret";
     models_generateContent := models_generateContent healthy;
     JSON_parse := JSON_parse healthy;
     models_generateVideos := models_generateVideos healthy;
     operations_getVideosOperation := fun _ => Fulfilled rejected_operation;
     Date_now := Date_now healthy;
     fetch_reply := fetch_reply healthy |}.

Lemma failed_job_is_not_downloaded_witness :
  let run := generateVideoClip 3 scene1 None (initial_world failing_jobs) in
  fst run = Threw (ErrorObj ("Video generation failed: " ++ "prompt refused"))
  /\ n_fetch (snd run) = n_fetch (initial_world failing_jobs)
  /\ objectURLs (snd run) = objectURLs (initial_world failing_jobs)
  /\ exists ops,
       List.length ops = 1
       /\ events (snd run)
          = events (initial_world failing_jobs)
              ++ GenerateVideos "secret" (videoRequest scene1 (image_part None))
                   :: poll_trace "secret" (of_Z 5000) ops.
Proof.
  apply (failed_job_is_not_downloaded 3 1 scene1 None (initial_world failing_jobs)
           "s"%char "ecret" "prompt refused" rejected_operation).
  - reflexivity.
  - intros p H. discriminate.
  - done_at_first_poll.
  - lia.
  - reflexivity.
Defined.

(** X9. A job done with neither error nor link, or with an empty link,
    is reported as such: [generateVideoClip] rejects with "Video generation
    succeeded, but no download link was returned.", requests no download
    and creates no handle. *)
Theorem job_without_link_is_reported fuel k seg photo w (c : ascii) (key : string) final :
  env_API_KEY (ext w) = Some (String c key) ->
  readable photo ->
  job_completes w k final ->
  k <= fuel ->
  operation_error final = None ->
  video_uri final = None \/ video_uri final = Some EmptyString ->
  let run := generateVideoClip fuel seg photo w in
  fst run
  = Threw (ErrorObj "Video generation succeeded, but no download link was returned.")
  /\ n_fetch (snd run) = n_fetch w
  /\ objectURLs (snd run) = objectURLs w.
Proof.
  intros K Hphoto Hjob Hfuel Herr Hlink run. subst run.
  destruct (generateVideoClip_delivers fuel k seg photo w c key final K Hphoto Hjob Hfuel)
    as (ops & w2 & -> & Hlen & Hev & (_ & _ & _ & Hnf & Hurls & _)).
  rewrite (deliver_no_link _ _ w2 Herr Hlink). cbn [fst snd].
  split; [reflexivity|]. split; [exact Hnf | exact Hurls].
Qed.

(** Jobs done at once, with nothing to download. *)
Definition linkless : External :=
  {| env_API_KEY := Some "secret";
     models_generateContent := models_generateContent healthy;
     JSON_parse := JSON_parse healthy;
     models_generateVideos :=
       fun _ => Fulfilled {| done := true; operation_error := None;
                             video_uri := Some EmptyString |};
     operations_getVideosOperation := operations_getVideosOperation healthy;
     Date_now := Date_now healthy;
     fetch_reply := fetch_reply healthy |}.

Lemma job_without_link_is_reported_witness :
  let run := generateVideoClip 0 scene1 None (initial_world linkless) in
  fst run
  = Threw (ErrorObj "Video generation succeeded, but no download link was returned.")
  /\ n_fetch (snd run) = n_fetch (initial_world linkless)
  /\ objectURLs (snd run) = objectURLs (initial_world linkless).
Proof.
  apply (job_without_link_is_reported 0 0 scene1 None (initial_world linkless)
           "s"%char "ecret"
           {| done := true; operation_error := None; video_uri := Some EmptyString |}).
  - reflexivity.
  - intros p H. discriminate.
  - split; reflexivity.
  - lia.
  - reflexivity.
  - right. reflexivity.
Defined.

(** X10. Every way the download can fail ends in one message shape:
    "Downloading video failed: " and the cause. A rejected request or a
    rejected body gives the cause's message; a response that is not [ok]
    gives "Failed to download video: " and its status text, the error
    thrown inside the [try] being caught by the same [catch] and wrapped
    again. One download was requested, and no handle is created. *)
Theorem failed_download_is_wrapped fuel k seg photo w (c a : ascii) (key link : string)
    final :
  env_API_KEY (ext w) = Some (String c key) ->
  readable photo ->
  job_completes w k final ->
  k <= fuel ->
  operation_error final = None ->
  video_uri final = Some (String a link) ->
  let run := generateVideoClip fuel seg photo w in
  (forall e, fetch_reply (ext w) (n_fetch w) = Rejected e ->
     fst run = Threw (ErrorObj ("Downloading video failed: " ++ message_of e))
     /\ objectURLs (snd run) = objectURLs w)
  /\ (forall response,
        fetch_reply (ext w) (n_fetch w) = Fulfilled response -> ok response = false ->
        fst run = Threw (ErrorObj ("Downloading video failed: Failed to download video: "
                                   ++ statusText response))
        /\ objectURLs (snd run) = objectURLs w)
  /\ (forall response e,
        fetch_reply (ext w) (n_fetch w) = Fulfilled response -> ok response = true ->
        blob response = Rejected e ->
        fst run = Threw (ErrorObj ("Downloading video failed: " ++ message_of e))
        /\ objectURLs (snd run) = objectURLs w)
  /\ n_fetch (snd run) = S (n_fetch w).
Proof.
  intros K Hphoto Hjob Hfuel Herr Hlink run. subst run.
  destruct (generateVideoClip_delivers fuel k seg photo w c key final K Hphoto Hjob Hfuel)
    as (ops & w2 & -> & Hlen & Hev & (Hext & _ & _ & Hnf & Hurls & _)).
  rewrite (deliver_download _ _ w2 a link Herr Hlink). cbv zeta.
  rewrite Hext, Hnf. change (ext (start_requested _ seg photo w)) with (ext w).
  change (n_fetch (start_requested (String c key) seg photo w)) with (n_fetch w).
  change (objectURLs (start_requested (String c key) seg photo w)) with (objectURLs w)
    in Hurls.
  split; [|split; [|split]].
  - intros e ->. cbn [fst snd download_requested tick_fetch emit objectURLs]. auto.
  - intros response -> ->. cbn [fst snd download_requested tick_fetch emit objectURLs].
    auto.
  - intros response e -> -> ->.
    cbn [fst snd download_requested tick_fetch emit objectURLs]. auto.
  - destruct (fetch_reply (ext w) (n_fetch w)) as [response|e];
      [destruct (ok response); [destruct (blob response)|]|];
      cbn [snd createObjectURL add_objectURL download_requested tick_fetch emit n_fetch];
      now rewrite Hnf.
Qed.

(** Downloads that are refused. *)
Definition forbidden : External :=
  {| env_API_KEY := Some "secret";
     models_generateContent := models_generateContent healthy;
     JSON_parse := JSON_parse healthy;
     models_generateVideos := models_generateVideos healthy;
     operations_getVideosOperation := operations_getVideosOperation healthy;
     Date_now := Date_now healthy;
     fetch_reply := fun _ => Fulfilled {| ok := false; statusText := "Forbidden";
                                          blob := Fulfilled EmptyString |} |}.

Lemma failed_download_is_wrapped_witness :
  let run := generateVideoClip 3 scene1 None (initial_world forbidden) in
  fst run = Threw (ErrorObj ("Downloading video failed: Failed to download video: "
                             ++ "Forbidden"))
  /\ objectURLs (snd run) = objectURLs (initial_world forbidden).
Proof.
  refine (proj1 (proj2 (failed_download_is_wrapped 3 1 scene1 None (initial_world forbidden)
                          "s"%char "h"%char "ecret" "ttps://videos.example/clip?alt=media"
                          finished_operation _ _ _ _ _ _))
            {| ok := false; statusText := "Forbidden"; blob := Fulfilled EmptyString |}
            eq_refl eq_refl).
  - reflexivity.
  - intros p H. discriminate.
  - done_at_first_poll.
  - lia.
  - reflexivity.
  - reflexivity.
Defined.

(** X11. A refused start request ends the call there: [generateVideoClip]
    rejects with "Failed to start video generation: " and the cause's
    message, having sent the start request and nothing else; it reads no
    clock, polls nothing, downloads nothing and creates no handle. *)
Theorem refused_start_ends_the_call fuel seg photo w (c : ascii) (key : string) e :
  env_API_KEY (ext w) = Some (String c key) ->
  readable photo ->
  models_generateVideos (ext w) (n_videos w) = Rejected e ->
  let run := generateVideoClip fuel seg photo w in
  fst run = Threw (ErrorObj ("Failed to start video generation: " ++ message_of e))
  /\ events (snd run)
     = events w ++ [GenerateVideos (String c key) (videoRequest seg (image_part photo))]
  /\ n_clock (snd run) = n_clock w
  /\ n_poll (snd run) = n_poll w
  /\ n_fetch (snd run) = n_fetch w
  /\ objectURLs (snd run) = objectURLs w.
Proof.
  intros K Hphoto Hstart run. subst run.
  rewrite (generateVideoClip_stages fuel seg photo w c key K Hphoto). cbv zeta.
  rewrite Hstart. repeat split.
Qed.

Lemma refused_start_ends_the_call_witness :
  let run := generateVideoClip 3 scene1 None (initial_world refusing) in
  fst run = Threw (ErrorObj ("Failed to start video generation: "
                             ++ message_of (ErrorObj "quota exceeded")))
  /\ events (snd run)
     = events (initial_world refusing)
         ++ [GenerateVideos "secret" (videoRequest scene1 (image_part None))]
  /\ n_clock (snd run) = n_clock (initial_world refusing)
  /\ n_poll (snd run) = n_poll (initial_world refusing)
  /\ n_fetch (snd run) = n_fetch (initial_world refusing)
  /\ objectURLs (snd run) = objectURLs (initial_world refusing).
Proof.
  apply (refused_start_ends_the_call 3 scene1 None (initial_world refusing)
           "s"%char "ecret" (ErrorObj "quota exceeded")).
  - reflexivity.
  - intros p H. discriminate.
  - reflexivity.
Defined.

(** X12. A character photo the reader cannot read stops the call before
    anything is sent: [generateVideoClip] rejects with the reader's event
    itself and leaves the world exactly as it was. *)
Theorem unreadable_photo_sends_nothing fuel seg (p : File) w (c : ascii) (key : string) :
  env_API_KEY (ext w) = Some (String c key) ->
  file_dataURL p = None ->
  generateVideoClip fuel seg (Some p) w = (Threw ProgressEvent, w)
  /\ message_of ProgressEvent = "[object ProgressEvent]"%string.
Proof.
  intros K Hread. split; [|reflexivity].
  unfold generateVideoClip. unfold bind at 1. unfold gets. rewrite K.
  unfold bind at 1. unfold bind at 1. unfold fileToBase64. now rewrite Hread.
Qed.

Lemma unreadable_photo_sends_nothing_witness :
  generateVideoClip 3 scene1 (Some damaged) (initial_world healthy)
    = (Threw ProgressEvent, initial_world healthy)
  /\ message_of ProgressEvent = "[object ProgressEvent]"%string.
Proof.
  apply (unreadable_photo_sends_nothing 3 scene1 damaged (initial_world healthy)
           "s"%char "ecret"); reflexivity.
Defined.

Lemma pollUntilDone_poll_rejected (k : nat) :
  forall fuel apiKey operation wait deadline w e,
    S k <= fuel ->
    done operation = false ->
    (forall j, j < k ->
       exists operation',
         operations_getVideosOperation (ext w) (n_poll w + j) = Fulfilled operation'
         /\ done operation' = false) ->
    operations_getVideosOperation (ext w) (n_poll w + k) = Rejected e ->
    (forall j, j <= k -> (Date_now (ext w) (n_clock w + j) <= deadline)%Z) ->
    exists ops w',
      pollUntilDone fuel apiKey operation wait deadline w
      = (Threw (ErrorObj ("Polling for video failed: " ++ message_of e)), w')
      /\ List.length ops = S k
      /\ events w' = events w ++ poll_trace apiKey wait ops.
Proof.
  induction k as [|k IH];
    intros fuel apiKey operation wait deadline w e Hfuel D Hrunning Hlast Hclock;
    (destruct fuel as [|fuel]; [lia|]); rewrite pollUntilDone_step by assumption;
    pose proof (Hclock 0 ltac:(lia)) as H0; rewrite Nat.add_0_r in H0;
    (destruct (Z.gtb_spec (Date_now (ext w) (n_clock w)) deadline); [lia|]).
  - rewrite Nat.add_0_r in Hlast. rewrite Hlast.
    exists [operation], (polled apiKey operation wait w).
    repeat split. apply events_polled.
  - destruct (Hrunning 0 ltac:(lia)) as (operation' & Hreply & D').
    rewrite Nat.add_0_r in Hreply. rewrite Hreply.
    destruct (IH fuel apiKey operation' (next_wait wait) deadline
                (polled apiKey operation wait w) e)
      as (ops & w' & Run & Hlen & Hev); try assumption; try lia.
    + intros j Hj. specialize (Hrunning (S j) ltac:(lia)). simpl.
      now rewrite <- Nat.add_succ_comm in Hrunning.
    + simpl. now rewrite <- Nat.add_succ_comm in Hlast.
    + intros j Hj. specialize (Hclock (S j) ltac:(lia)). simpl.
      now rewrite <- Nat.add_succ_comm in Hclock.
    + exists (operation :: ops), w'. rewrite Run, Hev, events_polled.
      repeat split.
      * simpl. now rewrite Hlen.
      * now rewrite <- app_assoc.
Qed.

(** X13. A poll that is rejected ends the call: if the job was started,
    [k] polls found it running and the next poll is rejected, no clock
    reading before a poll being past the deadline, [generateVideoClip]
    rejects with "Polling for video failed: " and the cause's message. It
    has made exactly [k + 1] polls, does not poll again, downloads nothing
    and creates no handle. *)
Theorem rejected_poll_ends_the_call fuel k seg photo w (c : ascii) (key : string) op0 e :
  env_API_KEY (ext w) = Some (String c key) ->
  readable photo ->
  models_generateVideos (ext w) (n_videos w) = Fulfilled op0 ->
  done op0 = false ->
  (forall j, j < k ->
     exists operation',
       operations_getVideosOperation (ext w) (n_poll w + j) = Fulfilled operation'
       /\ done operation' = false) ->
  operations_getVideosOperation (ext w) (n_poll w + k) = Rejected e ->
  (forall j, j <= k ->
     (Date_now (ext w) (n_clock w + 1 + j) - Date_now (ext w) (n_clock w)
        <= 10 * 60 * 1000)%Z) ->
  k < fuel ->
  let run := generateVideoClip fuel seg photo w in
  fst run = Threw (ErrorObj ("Polling for video failed: " ++ message_of e))
  /\ n_fetch (snd run) = n_fetch w
  /\ objectURLs (snd run) = objectURLs w
  /\ exists ops,
       List.length ops = S k
       /\ events (snd run)
          = events w
              ++ GenerateVideos (String c key) (videoRequest seg (image_part photo))
                   :: poll_trace (String c key) (of_Z 5000) ops.
Proof.
  intros K Hphoto Hstart D0 Hrunning Hlast Hclock Hfuel run. subst run.
  rewrite (generateVideoClip_stages fuel seg photo w c key K Hphoto). cbv zeta.
  rewrite Hstart.
  set (apiKey := String c key). set (w1 := start_requested apiKey seg photo w).
  set (deadline := (Date_now (ext w) (n_clock w) + 10 * 60 * 1000)%Z).
  pose proof (pollUntilDone_frame fuel apiKey op0 (of_Z 5000) deadline (tick_clock w1))
    as Hframe.
  destruct (pollUntilDone_poll_rejected k fuel apiKey op0 (of_Z 5000) deadline
              (tick_clock w1) e) as (ops & w2 & Run & Hlen & Hev); try assumption; try lia.
  - intros j Hj. subst deadline. specialize (Hclock j Hj).
    subst w1. cbn [ext n_clock tick_clock start_requested tick_videos emit].
    replace (S (n_clock w) + j) with (n_clock w + 1 + j) by lia. lia.
  - rewrite Run in Hframe |- *. cbn [fst snd] in *.
    destruct Hframe as (_ & _ & _ & Hnf & Hurls & _).
    split; [reflexivity|]. split; [exact Hnf|]. split; [exact Hurls|].
    exists ops. split; [exact Hlen|]. rewrite Hev. subst w1. simpl.
    now rewrite <- app_assoc.
Qed.

(** Polls that are refused. *)
Definition unpollable : External :=
  {| env_API_KEY := Some "secret";
     models_generateContent := models_generateContent healthy;
     JSON_parse := JSON_parse healthy;
     models_generateVideos := models_generateVideos healthy;
     operations_getVideosOperation := fun _ => Rejected (NonError "503");
     Date_now := Date_now healthy;
     fetch_reply := fetch_reply healthy |}.

Lemma rejected_poll_ends_the_call_witness :
  let run := generateVideoClip 3 scene1 None (initial_world unpollable) in
  fst run = Threw (ErrorObj ("Polling for video failed: " ++ message_of (NonError "503")))
  /\ n_fetch (snd run) = n_fetch (initial_world unpollable)
  /\ objectURLs (snd run) = objectURLs (initial_world unpollable)
  /\ exists ops,
       List.length ops = 1
       /\ events (snd run)
          = events (initial_world unpollable)
              ++ GenerateVideos "secret" (videoRequest scene1 (image_part None))
                   :: poll_trace "secret" (of_Z 5000) ops.
Proof.
  apply (rejected_poll_ends_the_call 3 0 scene1 None (initial_world unpollable)
           "s"%char "ecret" running_operation (NonError "503")).
  - reflexivity.
  - intros p H. discriminate.
  - reflexivity.
  - reflexivity.
  - intros j Hj. lia.
  - reflexivity.
  - intros j Hj. destruct j; [vm_compute; discriminate | lia].
  - lia.
Defined.

Lemma deliver_handles apiKey operation w :
  service_progress (snd (deliver apiKey operation w)) = service_progress w
  /\ match fst (deliver apiKey operation w) with
     | Returned url => objectURLs (snd (deliver apiKey operation w)) = objectURLs w ++ [url]
     | _ => objectURLs (snd (deliver apiKey operation w)) = objectURLs w
     end.
Proof.
  destruct (operation_error operation) as [msg|] eqn:He.
  { rewrite (deliver_error _ _ w msg He). split; reflexivity. }
  destruct (video_uri operation) as [[|a link]|] eqn:Hu;
    try (rewrite (deliver_no_link _ _ w He) by auto; split; reflexivity).
  rewrite (deliver_download _ _ w a link He Hu). cbv zeta.
  destruct (fetch_reply (ext w) (n_fetch w)) as [response|e];
    [destruct (ok response); [destruct (blob response)|]|]; split; reflexivity.
Qed.

Lemma generateVideoClip_handles fuel seg photo w :
  let run := generateVideoClip fuel seg photo w in
  service_progress (snd run) = service_progress w
  /\ match fst run with
     | Returned url => objectURLs (snd run) = objectURLs w ++ [url]
     | _ => objectURLs (snd run) = objectURLs w
     end.
Proof.
  cbv zeta.
  destruct (env_API_KEY (ext w)) as [[|c key]|] eqn:K;
    try (unfold generateVideoClip, bind, gets; rewrite K; split; reflexivity).
  assert (Hphoto : readable photo \/ exists p, photo = Some p /\ file_dataURL p = None).
  { destruct photo as [p|]; [|left; intros p H; discriminate].
    destruct (file_dataURL p) eqn:R; [left|right; now exists p].
    intros p' [= <-]. congruence. }
  destruct Hphoto as [Hphoto|(p & -> & Hread)].
  2:{ assert (E : generateVideoClip fuel seg (Some p) w = (Threw ProgressEvent, w)).
      { unfold generateVideoClip. unfold bind at 1. unfold gets. rewrite K.
        unfold bind at 1. unfold bind at 1. unfold fileToBase64. now rewrite Hread. }
      rewrite E. split; reflexivity. }
  rewrite (generateVideoClip_stages fuel seg photo w c key K Hphoto). cbv zeta.
  destruct (models_generateVideos (ext w) (n_videos w)) as [op0|e]; [|split; reflexivity].
  pose proof (pollUntilDone_frame fuel (String c key) op0 (of_Z 5000)
                (Date_now (ext w) (n_clock w) + 10 * 60 * 1000)%Z
                (tick_clock (start_requested (String c key) seg photo w))) as Hframe.
  destruct (pollUntilDone fuel (String c key) op0 (of_Z 5000)
              (Date_now (ext w) (n_clock w) + 10 * 60 * 1000)%Z
              (tick_clock (start_requested (String c key) seg photo w)))
    as [[operation|e|] w2]; cbn [fst snd] in *;
    destruct Hframe as (_ & _ & _ & _ & Hurls & Hprogress);
    cbn [objectURLs service_progress tick_clock start_requested tick_videos emit]
      in Hurls, Hprogress; try (split; assumption).
  destruct (deliver_handles (String c key) operation w2) as [Hp Hu].
  rewrite Hp, Hprogress. split; [reflexivity|].
  destruct (fst (deliver (String c key) operation w2)); now rewrite Hu, Hurls.
Qed.

(* ================================================================== *)
(** * Further properties of the component *)

From Stdlib Require Import DecimalPos DecimalZ.

(** ** The roster *)

Lemma Z_to_string_inj (x y : Z) : Z_to_string x = Z_to_string y -> x = y.
Proof.
  unfold Z_to_string. intro H.
  assert (Hok : forall z, NilZero.int_of_string (NilZero.string_of_int (Z.to_int z))
                          = Some (Z.to_int z)).
  { intro z. apply NilZero.isi; destruct z; simpl; try discriminate;
      intros [= E]; now apply (Unsigned.to_uint_nonnil p). }
  apply DecimalZ.to_int_inj.
  pose proof (Hok x) as Hx. rewrite H, Hok in Hx. congruence.
Qed.

Lemma append_inj_l (pre a b : string) : (pre ++ a = pre ++ b)%string -> a = b.
Proof.
  induction pre as [|c pre IH]; intro H; [exact H|].
  cbn [String.append] in H. inversion H. auto.
Qed.

(** X15. Character ids follow the clock. Two characters added one after
    the other are appended in that order after the existing roster, and
    they have the same id exactly when [Date.now()] gave the same reading
    for both: within one millisecond, ids are not unique. *)
Theorem character_ids_follow_the_clock (p : Page) :
  let first := Date_now (ext (world p)) (n_clock (world p)) in
  let second := Date_now (ext (world p)) (S (n_clock (world p))) in
  let p2 := snd (addCharacter (snd (addCharacter p))) in
  exists c1 c2,
    characters (app p2) = characters (app p) ++ [c1; c2]
    /\ c1 = blank_character ("char_" ++ Z_to_string first)
    /\ c2 = blank_character ("char_" ++ Z_to_string second)
    /\ (id c1 = id c2 <-> first = second).
Proof.
  cbv zeta. eexists. eexists.
  split; [|split; [reflexivity|split; [reflexivity|]]].
  - unfold addCharacter, bind, service, now, update.
    cbn [app world fst snd characters set_characters ext n_clock tick_clock].
    now rewrite <- app_assoc.
  - cbn [id blank_character]. split.
    + intro H. apply append_inj_l in H. now apply Z_to_string_inj.
    + now intros ->.
Qed.

Lemma filter_keeps_all {A} (f : A -> bool) (l : list A) :
  (forall x, In x l -> f x = true) -> filter f l = l.
Proof.
  induction l as [|x l IH]; intro H; [reflexivity|].
  cbn [filter]. rewrite (H x (or_introl eq_refl)). f_equal.
  apply IH. intros y Hy. apply H. now right.
Qed.

Lemma keeps_other_ids (cid : string) (cs : list Character) :
  (forall c, In c cs -> id c <> cid) ->
  filter (fun ch => negb (String.eqb (id ch) cid)) cs = cs.
Proof.
  intro H. apply filter_keeps_all. intros c Hc.
  apply negb_true_iff, String.eqb_neq. now apply H.
Qed.

(** X16. Adding a character and removing it again restores the roster,
    provided no character already has the id the clock gives the new one.
    And one removal is enough for two: if a second character was added at
    the same clock reading, removing that id takes both away. *)
Theorem added_character_can_be_removed (p : Page) :
  let t := Date_now (ext (world p)) (n_clock (world p)) in
  let cid := ("char_" ++ Z_to_string t)%string in
  (forall c, In c (characters (app p)) -> id c <> cid) ->
  characters (app (snd (removeCharacter cid (snd (addCharacter p))))) = characters (app p)
  /\ (Date_now (ext (world p)) (S (n_clock (world p))) = t ->
      characters
        (app (snd (removeCharacter cid (snd (addCharacter (snd (addCharacter p)))))))
      = characters (app p)).
Proof.
  intros t cid Hfresh. split.
  - unfold removeCharacter, addCharacter, bind, service, now, update.
    cbn [app world fst snd characters set_characters ext n_clock tick_clock].
    fold t. fold cid. rewrite filter_app. cbn [filter id blank_character].
    rewrite String.eqb_refl. cbn [negb]. rewrite app_nil_r.
    now apply keeps_other_ids.
  - intro Hsame.
    unfold removeCharacter, addCharacter, bind, service, now, update.
    cbn [app world fst snd characters set_characters ext n_clock tick_clock].
    rewrite Hsame. fold t. fold cid. rewrite !filter_app. cbn [filter id blank_character].
    rewrite String.eqb_refl. cbn [negb]. rewrite !app_nil_r.
    now apply keeps_other_ids.
Qed.

(** A clock that stands still. *)
Definition frozen : External :=
  {| env_API_KEY := Some "secret";
     models_generateContent := models_generateContent healthy;
     JSON_parse := JSON_parse healthy;
     models_generateVideos := models_generateVideos healthy;
     operations_getVideosOperation := operations_getVideosOperation healthy;
     Date_now := fun _ => 1700000000000%Z;
     fetch_reply := fetch_reply healthy |}.

Definition empty_page (x : External) : Page :=
  {| app := new_component; world := initial_world x |}.

Lemma added_character_can_be_removed_witness :
  characters (app (snd (removeCharacter "char_1700000000000"
                          (snd (addCharacter (empty_page frozen))))))
    = characters (app (empty_page frozen))
  /\ (Date_now (ext (world (empty_page frozen))) (S (n_clock (world (empty_page frozen))))
        = 1700000000000%Z ->
      characters
        (app (snd (removeCharacter "char_1700000000000"
                     (snd (addCharacter (snd (addCharacter (empty_page frozen))))))))
      = characters (app (empty_page frozen))).
Proof.
  apply (added_character_can_be_removed (empty_page frozen)).
  intros c H. destruct H.
Defined.

(** [updateCharacter]'s change to one character. *)
Definition edited (field : CharacterField) (value : string) (ch : Character) : Character :=
  match field with
  | field_name =>
      {| id := id ch; name := value; description := description ch;
         photoUrl := photoUrl ch; photoFile := photoFile ch |}
  | field_description =>
      {| id := id ch; name := name ch; description := value;
         photoUrl := photoUrl ch; photoFile := photoFile ch |}
  end.

Lemma updateCharacter_characters char_id field value p :
  characters (app (snd (updateCharacter char_id field value p)))
  = map (fun ch => if String.eqb (id ch) char_id then edited field value ch else ch)
        (characters (app p)).
Proof.
  unfold updateCharacter, update. cbn [snd app characters set_characters].
  apply map_ext. intro ch. destruct (String.eqb (id ch) char_id); [|reflexivity].
  now destruct field.
Qed.

(** X17. Editing a character keeps the roster in place: the characters
    keep their number, order, ids and photos; every character with the
    given id gets the new value in the chosen field and keeps the other
    field; every other character is untouched; and with no character of
    that id the roster does not change at all. *)
Theorem editing_keeps_the_roster_in_place char_id field value (p : Page) :
  let cs := characters (app p) in
  let cs' := characters (app (snd (updateCharacter char_id field value p))) in
  map id cs' = map id cs
  /\ map photoFile cs' = map photoFile cs
  /\ map photoUrl cs' = map photoUrl cs
  /\ (forall i c, nth_error cs i = Some c ->
        nth_error cs' i
        = Some (if String.eqb (id c) char_id then edited field value c else c))
  /\ (forall c', In c' cs' -> id c' = char_id ->
        match field with
        | field_name => name c' = value
        | field_description => description c' = value
        end)
  /\ ((forall c, In c cs -> id c <> char_id) -> cs' = cs)
  /\ world (snd (updateCharacter char_id field value p)) = world p.
Proof.
  cbv zeta. rewrite updateCharacter_characters.
  set (f := fun ch => if String.eqb (id ch) char_id then edited field value ch else ch).
  assert (Hid : forall ch, id (f ch) = id ch).
  { intro ch. unfold f. destruct (String.eqb (id ch) char_id); [|reflexivity].
    now destruct field. }
  assert (Hfile : forall ch, photoFile (f ch) = photoFile ch).
  { intro ch. unfold f. destruct (String.eqb (id ch) char_id); [|reflexivity].
    now destruct field. }
  assert (Hurl : forall ch, photoUrl (f ch) = photoUrl ch).
  { intro ch. unfold f. destruct (String.eqb (id ch) char_id); [|reflexivity].
    now destruct field. }
  split; [rewrite map_map; now apply map_ext|].
  split; [rewrite map_map; now apply map_ext|].
  split; [rewrite map_map; now apply map_ext|].
  split; [|split; [|split]].
  - intros i c Hnth. rewrite nth_error_map, Hnth. reflexivity.
  - intros c' Hin Hc'. apply in_map_iff in Hin. destruct Hin as (ch & <- & _).
    rewrite Hid in Hc'. unfold f.
    apply String.eqb_eq in Hc'. rewrite Hc'. now destruct field.
  - intro Habsent. rewrite <- (map_id (characters (app p))) at 2.
    apply map_ext_in. intros ch Hch. unfold f.
    destruct (String.eqb_spec (id ch) char_id) as [E|]; [|reflexivity].
    now apply Habsent in Hch.
  - reflexivity.
Qed.

Definition hero : Character :=
  {| id := "char_1"; name := "Ana"; description := "The captain";
     photoUrl := EmptyString; photoFile := None |}.

Definition sidekick : Character :=
  {| id := "char_2"; name := "Bo"; description := "The cook";
     photoUrl := EmptyString; photoFile := None |}.

Definition cast_page (x : External) : Page :=
  {| app := set_characters [hero; sidekick] (app (ready_page x)); world := world (ready_page x) |}.

Lemma editing_keeps_the_roster_in_place_witness :
  characters (app (snd (updateCharacter "char_9" field_name "Cy" (cast_page healthy))))
  = characters (app (cast_page healthy))
  /\ nth_error (characters (app (snd (updateCharacter "char_2" field_name "Cy"
                                        (cast_page healthy))))) 1
     = Some (if String.eqb (id sidekick) "char_2" then edited field_name "Cy" sidekick
             else sidekick).
Proof.
  pose proof (editing_keeps_the_roster_in_place "char_9" field_name "Cy" (cast_page healthy))
    as H9.
  pose proof (editing_keeps_the_roster_in_place "char_2" field_name "Cy" (cast_page healthy))
    as H2.
  cbv zeta in H9, H2.
  destruct H9 as (_ & _ & _ & _ & _ & Habsent & _).
  destruct H2 as (_ & _ & _ & Hnth & _).
  split.
  - apply Habsent. intros c [<-|[<-|[]]]; discriminate.
  - apply (Hnth 1 sidekick). reflexivity.
Defined.

(** ** Files chosen by the user *)

(** X18. Choosing an audio file records it and a new preview handle for
    it, and releases nothing: choosing twice leaves both preview handles
    held by the browser while only the second is referenced. With no file
    in the event nothing changes. *)
Theorem choosing_audio_releases_nothing (f1 f2 : File) (p : Page) :
  let p1 := snd (handleFileChange (Some f1) p) in
  let p2 := snd (handleFileChange (Some f2) p1) in
  (exists u1 u2,
      audioUrl (app p1) = Some u1
      /\ audioFile (app p1) = Some f1
      /\ objectURLs (world p1) = objectURLs (world p) ++ [u1]
      /\ audioUrl (app p2) = Some u2
      /\ audioFile (app p2) = Some f2
      /\ objectURLs (world p2) = objectURLs (world p) ++ [u1; u2])
  /\ handleFileChange None p = (Returned tt, p)
  /\ events (world p2) = events (world p)
  /\ generatedClips (app p2) = generatedClips (app p)
  /\ status (app p2) = status (app p).
Proof.
  cbv zeta. split; [|repeat split].
  eexists. eexists.
  unfold handleFileChange, bind, update, service, createObjectURL.
  cbn [app world fst snd audioUrl audioFile set_audioUrl set_audioFile objectURLs
         add_objectURL].
  repeat split. now rewrite <- app_assoc.
Qed.

Lemma find_map_same {A} (test : A -> bool) (g : A -> A) (l : list A) :
  (forall x, test (g x) = test x) ->
  find test (map g l) = option_map g (find test l).
Proof.
  intro H. induction l as [|x l IH]; [reflexivity|].
  cbn [map find]. rewrite H. now destruct (test x).
Qed.

(** [handleCharacterPhoto]'s change to one character. *)
Definition pictured (file : File) (url : string) (ch : Character) : Character :=
  {| id := id ch; name := name ch; description := description ch;
     photoUrl := url; photoFile := Some file |}.

(** X19. A photo chosen for a character id is the photo the generator
    will be given for every segment naming that id, as soon as some
    character has the id: all characters with it get the file and its new
    preview handle, ids, names and descriptions staying as they were, and
    segments naming another id get what they got before. The handle is
    created even when no character has the id. *)
Theorem chosen_photo_reaches_the_generator (file : File) (char_id : string) (p : Page) :
  let cs := characters (app p) in
  let p' := snd (handleCharacterPhoto (Some file) char_id p) in
  let cs' := characters (app p') in
  exists url,
    objectURLs (world p') = objectURLs (world p) ++ [url]
    /\ cs' = map (fun ch => if String.eqb (id ch) char_id then pictured file url ch else ch) cs
    /\ map id cs' = map id cs
    /\ map name cs' = map name cs
    /\ map description cs' = map description cs
    /\ (forall seg, characterId seg = Some char_id ->
          (exists c, In c cs /\ id c = char_id) ->
          photo_for seg cs' = Some file)
    /\ (forall seg other, characterId seg = Some other -> other <> char_id ->
          photo_for seg cs' = photo_for seg cs).
Proof.
  cbv zeta. eexists.
  unfold handleCharacterPhoto, bind, update, service, createObjectURL.
  cbn [app world fst snd characters set_characters objectURLs add_objectURL].
  set (url := ("blob:" ++ nat_to_string (List.length (objectURLs (world p))))%string).
  set (g := fun ch => if String.eqb (id ch) char_id then pictured file url ch else ch).
  assert (Hid : forall ch, id (g ch) = id ch).
  { intro ch. unfold g. now destruct (String.eqb (id ch) char_id). }
  split; [reflexivity|]. split; [reflexivity|].
  fold g. rewrite !map_map.
  split; [now apply map_ext|].
  split; [apply map_ext; intro ch; unfold g; now destruct (String.eqb (id ch) char_id)|].
  split; [apply map_ext; intro ch; unfold g; now destruct (String.eqb (id ch) char_id)|].
  split.
  - intros seg Hseg (c & Hc & Hcid). unfold photo_for. rewrite Hseg.
    rewrite (find_map_same (fun ch => String.eqb (id ch) char_id) g)
      by (intro x; now rewrite Hid).
    destruct (find (fun ch => String.eqb (id ch) char_id) (characters (app p)))
      as [found|] eqn:F.
    + apply find_some in F. destruct F as [_ F]. cbn [option_map]. unfold g.
      now rewrite F.
    + exfalso. apply (find_none _ _ F) in Hc. cbn in Hc.
      apply String.eqb_neq in Hc. contradiction.
  - intros seg other Hseg Hother. unfold photo_for. rewrite Hseg.
    rewrite (find_map_same (fun ch => String.eqb (id ch) other) g)
      by (intro x; now rewrite Hid).
    destruct (find (fun ch => String.eqb (id ch) other) (characters (app p)))
      as [found|] eqn:F; [|reflexivity].
    apply find_some in F. destruct F as [_ F]. cbn [option_map]. unfold g.
    apply String.eqb_eq in F.
    destruct (String.eqb_spec (id found) char_id) as [E|]; [congruence | reflexivity].
Qed.

Definition portrait : File :=
  {| file_name := "ana.png"; file_type := "image/png";
     file_dataURL := Some "data:image/png;base64,iVBORw0KGgo=" |}.

Lemma chosen_photo_reaches_the_generator_witness :
  photo_for {| topicSummary := "Ana at the helm"; videoPrompt := "Ana steers";
               characterId := Some "char_1"; startTime := of_Z 0; endTime := of_Z 6 |}
    (characters (app (snd (handleCharacterPhoto (Some portrait) "char_1"
                             (cast_page healthy)))))
  = Some portrait.
Proof.
  destruct (chosen_photo_reaches_the_generator portrait "char_1" (cast_page healthy))
    as (url & _ & _ & _ & _ & _ & Hphoto & _).
  apply Hphoto; [reflexivity|].
  exists hero. split; [left; reflexivity | reflexivity].
Defined.

(** X14. A call creates a blob handle only to return it. Whatever the
    outside world answers, the handles the browser holds after a
    [generateVideoClip] call are those it held before and, when the call
    returns a handle, that handle; a call that rejects leaves them exactly
    as they were. The call never touches the service's progress. *)
Theorem handle_is_created_only_to_be_returned fuel seg photo w :
  let run := generateVideoClip fuel seg photo w in
  service_progress (snd run) = service_progress w
  /\ (forall url, live url (snd run) <-> live url w \/ fst run = Returned url)
  /\ (forall e, fst run = Threw e -> objectURLs (snd run) = objectURLs w).
Proof.
  cbv zeta. destruct (generateVideoClip_handles fuel seg photo w) as [Hp Hu].
  cbv zeta in Hp, Hu. split; [exact Hp|].
  unfold live. destruct (fst (generateVideoClip fuel seg photo w)) as [made|e|];
    rewrite Hu; split.
  - intro url. rewrite in_app_iff. cbn [In]. split.
    + intros [H|[->|[]]]; [now left | now right].
    + intros [H|[= ->]]; [now left | right; now left].
  - intros e H. discriminate.
  - intro url. split; [now left | intros [H|H]; [exact H | discriminate]].
  - reflexivity.
  - intro url. split; [now left | intros [H|H]; [exact H | discriminate]].
  - intros e H. discriminate.
Qed.

(** ** Runs of [generateStory] *)

(** X20. Without an audio file [generateStory] does nothing at all; and a
    reset clears the file, so a run asked for right after [startOver] does
    nothing either, until a file is chosen again. *)
Theorem nothing_runs_without_audio (fuel : nat) (p : Page) :
  (audioFile (app p) = None -> generateStory fuel p = (Returned tt, p))
  /\ generateStory fuel (snd (startOver p)) = (Returned tt, snd (startOver p)).
Proof.
  assert (Hnone : forall q, audioFile (app q) = None -> generateStory fuel q = (Returned tt, q)).
  { intros q H. unfold generateStory, bind, signal. now rewrite H. }
  split; [apply Hnone | apply Hnone; reflexivity].
Qed.

Lemma nothing_runs_without_audio_witness :
  generateStory 3 (empty_page healthy) = (Returned tt, empty_page healthy).
Proof.
  apply (proj1 (nothing_runs_without_audio 3 (empty_page healthy))). reflexivity.
Defined.

Lemma of_nat_is_zero (n : nat) : strict_eq (of_nat n) (of_Z 0) = (n =? 0)%nat.
Proof.
  unfold strict_eq, of_nat, of_Z, Qeq_bool, inject_Z. simpl.
  rewrite Z.mul_1_r. destruct n; [reflexivity|].
  now destruct (Z.eqb_spec (Z.of_nat (S n)) 0); [lia|].
Qed.

(** The percentage of a finished run of [n] clips. *)
Lemma finished_percentage (n : nat) (st msg : string) :
  progressPercentage {| stage := st; total := of_nat n; current := of_nat n; message := msg |}
  = of_Z (if (n =? 0)%nat then 0 else 100).
Proof.
  unfold progressPercentage. cbn [total current]. rewrite of_nat_is_zero.
  destruct n as [|n]; [reflexivity|]. cbn [Nat.eqb].
  unfold of_nat, of_Z, div. unfold sign_of. cbn [Qnum inject_Z].
  change (Z.of_nat (S n) ?= 0)%Z with Gt. cbv iota.
  assert (N : ~ (inject_Z (Z.of_nat (S n)) == 0)%Q).
  { unfold Qeq, inject_Z. simpl. lia. }
  assert (One : (inject_Z (Z.of_nat (S n)) / inject_Z (Z.of_nat (S n)) == 1)%Q).
  { unfold Qdiv. now rewrite Qmult_inv_r by exact N. }
  rewrite (to_double_eq _ _ One). vm_compute. reflexivity.
Qed.

Lemma generateStory_outcomes fuel p audio :
  audioFile (app p) = Some audio ->
  let p' := snd (generateStory fuel p) in
  (status (app p') = complete /\ fst (generateStory fuel p) = Returned tt
   /\ exists n, n = List.length (generatedClips (app p'))
        /\ progress (app p')
           = {| stage := "Finished"; total := of_nat n; current := of_nat n;
                message := "All clips generated!" |})
  \/ (status (app p') = error /\ fst (generateStory fuel p) = Returned tt
      /\ stage (progress (app p')) = "Error"%string
      /\ message (progress (app p')) = errorMsg (app p'))
  \/ (status (app p') = processing /\ fst (generateStory fuel p) = Pending).
Proof.
  intros Haudio p'. subst p'.
  rewrite (generateStory_unfold fuel p audio Haudio).
  destruct (transcribeAndSegmentAudio audio (storyContext (app p)) (characters (app p))
              (world p)) as [[segments|e|] w].
  - cbv zeta.
    set (p1 := {| app := planned (List.length segments) (begun (app p)); world := w |}).
    destruct (generateClips_run segments fuel (List.length segments) 0 p1)
      as (urls & Hclips & _ & Hlen & Hret & Hst & _).
    destruct (generateClips fuel (List.length segments) 0 segments p1) as [[[]|e|] p2];
      cbn [fst snd] in *.
    + left. split; [reflexivity|]. split; [reflexivity|].
      exists (List.length segments). split; [|reflexivity].
      cbn [completed app generatedClips set_status set_progress].
      rewrite Hclips. cbn [p1 app planned begun generatedClips set_progress set_errorMsg
                              set_generatedClips set_status List.app].
      rewrite clips_of_length. apply proj1 in Hret. specialize (Hret eq_refl). lia.
    + right. left. repeat split.
    + right. right. split; [exact Hst | reflexivity].
  - right. left. repeat split.
  - right. right. split; reflexivity.
Qed.

(** X21. How a run ends. With an audio file chosen, [generateStory] ends
    in exactly one of three ways. Complete: the progress it leaves is
    "Finished" with [current = total =] the number of clips, of which the
    derived percentage is 100, or 0 for a story of no clips. Error: the
    progress is at stage "Error" and its message is the error message
    shown. Or the run is still pending and the state is [processing]. It
    never ends [idle]. *)
Theorem a_run_ends_complete_or_in_error fuel p audio :
  audioFile (app p) = Some audio ->
  let p' := snd (generateStory fuel p) in
  (status (app p') = complete ->
     stage (progress (app p')) = "Finished"%string
     /\ total (progress (app p')) = of_nat (List.length (generatedClips (app p')))
     /\ current (progress (app p')) = total (progress (app p'))
     /\ progressPercentage (progress (app p'))
        = of_Z (if (List.length (generatedClips (app p')) =? 0)%nat then 0 else 100))
  /\ (status (app p') = error ->
        stage (progress (app p')) = "Error"%string
        /\ message (progress (app p')) = errorMsg (app p'))
  /\ (fst (generateStory fuel p) = Returned tt ->
        status (app p') = complete \/ status (app p') = error)
  /\ status (app p') <> idle.
Proof.
  intros Haudio p'.
  destruct (generateStory_outcomes fuel p audio Haudio)
    as [(Hst & Hret & n & Hn & Hprog)|[(Hst & Hret & Hstage & Hmsg)|(Hst & Hret)]];
    fold p' in Hst.
  - fold p' in Hprog, Hn.
    split; [|split; [|split]].
    + intros _. rewrite Hprog, <- Hn. cbn [stage total current].
      repeat split. apply finished_percentage.
    + intro H. rewrite Hst in H. discriminate.
    + intros _. now left.
    + rewrite Hst. discriminate.
  - fold p' in Hstage, Hmsg.
    split; [|split; [|split]].
    + intro H. rewrite Hst in H. discriminate.
    + intros _. now split.
    + intros _. now right.
    + rewrite Hst. discriminate.
  - split; [|split; [|split]].
    + intro H. rewrite Hst in H. discriminate.
    + intro H. rewrite Hst in H. discriminate.
    + intro H. rewrite Hret in H. discriminate.
    + rewrite Hst. discriminate.
Qed.

Lemma a_run_ends_complete_or_in_error_witness :
  let p' := snd (generateStory 3 (ready_page healthy)) in
  stage (progress (app p')) = "Finished"%string
  /\ total (progress (app p')) = of_nat (List.length (generatedClips (app p')))
  /\ current (progress (app p')) = total (progress (app p'))
  /\ progressPercentage (progress (app p'))
     = of_Z (if (List.length (generatedClips (app p')) =? 0)%nat then 0 else 100).
Proof.
  apply (proj1 (a_run_ends_complete_or_in_error 3 (ready_page healthy) narration eq_refl)).
  reflexivity.
Defined.

(** X22. A story of no scenes. When the segmenter returns an empty list,
    [generateStory] completes at once: the state is [complete], there is no
    clip, the generator is never called and nothing is sent or created
    after the segmenter's request, and the progress it leaves is
    "Finished" 0 of 0, of which the derived percentage is 0. *)
Theorem empty_story_completes_at_once fuel p audio w :
  audioFile (app p) = Some audio ->
  transcribeAndSegmentAudio audio (storyContext (app p)) (characters (app p)) (world p)
    = (Returned [], w) ->
  let p' := snd (generateStory fuel p) in
  fst (generateStory fuel p) = Returned tt
  /\ status (app p') = complete
  /\ generatedClips (app p') = []
  /\ world p' = w
  /\ progress (app p')
     = {| stage := "Finished"; total := of_Z 0; current := of_Z 0;
          message := "All clips generated!" |}
  /\ progressPercentage (progress (app p')) = of_Z 0.
Proof.
  intros Haudio Hsegments p'. subst p'.
  rewrite (generateStory_unfold fuel p audio Haudio), Hsegments.
  repeat split.
Qed.

(** A reply that holds no scene. *)
Definition silent : External :=
  {| env_API_KEY := Some "secret";
     models_generateContent := fun _ => Fulfilled "[]";
     JSON_parse := fun _ => Fulfilled [];
     models_generateVideos := models_generateVideos healthy;
     operations_getVideosOperation := operations_getVideosOperation healthy;
     Date_now := Date_now healthy;
     fetch_reply := fetch_reply healthy |}.

Lemma empty_story_completes_at_once_witness :
  let p' := snd (generateStory 3 (ready_page silent)) in
  fst (generateStory 3 (ready_page silent)) = Returned tt
  /\ status (app p') = complete
  /\ generatedClips (app p') = []
  /\ world p'
     = snd (transcribeAndSegmentAudio narration EmptyString
              (characters (app (ready_page silent))) (world (ready_page silent)))
  /\ progress (app p')
     = {| stage := "Finished"; total := of_Z 0; current := of_Z 0;
          message := "All clips generated!" |}
  /\ progressPercentage (progress (app p')) = of_Z 0.
Proof.
  apply (empty_story_completes_at_once 3 (ready_page silent) narration
           (snd (transcribeAndSegmentAudio narration EmptyString
                   (characters (app (ready_page silent))) (world (ready_page silent)))));
    reflexivity.
Defined.

(** What a run reads but never writes. *)
Definition same_inputs (a a' : AppComponent) : Prop :=
  characters a' = characters a /\ audioFile a' = audioFile a
  /\ audioUrl a' = audioUrl a /\ storyContext a' = storyContext a
  /\ videoPlayer a' = videoPlayer a /\ audioPlayer a' = audioPlayer a
  /\ currentClipIndex a' = currentClipIndex a /\ media_calls a' = media_calls a.

Lemma same_inputs_refl a : same_inputs a a.
Proof. repeat split. Qed.

Lemma same_inputs_trans a b c : same_inputs a b -> same_inputs b c -> same_inputs a c.
Proof.
  unfold same_inputs. intros (H1 & H2 & H3 & H4 & H5 & H6 & H7 & H8)
    (G1 & G2 & G3 & G4 & G5 & G6 & G7 & G8).
  repeat split; congruence.
Qed.

Lemma generateClips_inputs (todo : list VideoSegment) :
  forall fuel n i p, same_inputs (app p) (app (snd (generateClips fuel n i todo p))).
Proof.
  induction todo as [|seg rest IH]; intros fuel n i p; [apply same_inputs_refl|].
  rewrite generateClips_step. cbv zeta.
  destruct (generateVideoClip fuel seg (photo_for seg (characters (app p)))
              (emit (ClipInvoked i seg (photo_for seg (characters (app p)))) (world p)))
    as [[url|e|] w].
  - eapply same_inputs_trans; [|apply IH]. repeat split.
  - repeat split.
  - repeat split.
Qed.

Lemma generateClips_live (todo : list VideoSegment) :
  forall fuel n i p,
    (forall url, live url (world p) -> live url (world (snd (generateClips fuel n i todo p))))
    /\ (forall clip, In clip (generatedClips (app (snd (generateClips fuel n i todo p)))) ->
          In clip (generatedClips (app p))
          \/ live (blobUrl clip) (world (snd (generateClips fuel n i todo p)))).
Proof.
  induction todo as [|seg rest IH]; intros fuel n i p; [split; auto|].
  rewrite generateClips_step. cbv zeta.
  set (photo := photo_for seg (characters (app p))).
  set (w0 := emit (ClipInvoked i seg photo) (world p)).
  destruct (generateVideoClip_handles fuel seg photo w0) as [_ Hu]. cbv zeta in Hu.
  change (objectURLs w0) with (objectURLs (world p)) in Hu.
  destruct (generateVideoClip fuel seg photo w0) as [[url|e|] w1]; cbn [fst snd] in *.
  - set (p1 := {| app := add_clip seg url (announce n i seg (app p));
                  world := emit (ClipSettled i (Returned url)) w1 |}).
    destruct (IH fuel n (S i) p1) as [Hkeep Hclips].
    assert (Hstep : forall u, live u (world p) \/ u = url -> live u (world p1)).
    { intros u H. unfold live. cbn [p1 world emit objectURLs]. rewrite Hu.
      apply in_app_iff. destruct H as [H| ->]; [now left | right; now left]. }
    split.
    + intros u H. apply Hkeep, Hstep. now left.
    + intros clip H. apply Hclips in H. destruct H as [H|H]; [|now right].
      cbn [p1 app add_clip announce generatedClips set_generatedClips set_progress] in H.
      apply in_app_iff in H. destruct H as [H|[<-|[]]]; [now left|].
      right. apply Hkeep, Hstep. now right.
  - unfold live. cbn [app world emit objectURLs announce generatedClips set_progress].
    rewrite Hu. split; auto.
  - unfold live. cbn [app world announce generatedClips set_progress].
    rewrite Hu. split; auto.
Qed.

(** X23. What a run keeps. [generateStory] never changes the roster, the
    audio file and its preview handle, the context text, the players or
    the clip index; it releases no blob handle, so the handles of an
    earlier run's clips stay held although the new run drops those clips;
    and after a run with an audio file chosen every clip in the list has a
    handle the browser holds. *)
Theorem a_run_keeps_inputs_and_handles fuel (p : Page) :
  let p' := snd (generateStory fuel p) in
  same_inputs (app p) (app p')
  /\ (forall url, live url (world p) -> live url (world p'))
  /\ (audioFile (app p) <> None ->
      forall clip, In clip (generatedClips (app p')) -> live (blobUrl clip) (world p')).
Proof.
  cbv zeta. destruct (audioFile (app p)) as [audio|] eqn:Haudio.
  2:{ assert (E : generateStory fuel p = (Returned tt, p)).
      { unfold generateStory, bind, signal. now rewrite Haudio. }
      rewrite E. split; [apply same_inputs_refl|]. split; [auto|]. congruence. }
  rewrite (generateStory_unfold fuel p audio Haudio).
  pose proof (transcribeAndSegmentAudio_steady audio (storyContext (app p))
                (characters (app p)) (world p)) as G.
  destruct (transcribeAndSegmentAudio audio (storyContext (app p)) (characters (app p))
              (world p)) as [[segments|e|] w]; cbn [snd] in G;
    destruct G as [_ _ (urls & Hurls)].
  - cbv zeta.
    set (p1 := {| app := planned (List.length segments) (begun (app p)); world := w |}).
    pose proof (generateClips_inputs segments fuel (List.length segments) 0 p1) as Hin.
    destruct (generateClips_live segments fuel (List.length segments) 0 p1)
      as [Hkeep Hclips].
    assert (Hw : forall url, live url (world p) -> live url (world p1)).
    { intros url H. unfold live. cbn [p1 world]. rewrite Hurls. apply in_app_iff. now left. }
    assert (H1 : same_inputs (app p) (app p1)) by (repeat split).
    destruct (generateClips fuel (List.length segments) 0 segments p1) as [[[]|e|] p2];
      cbn [snd] in *;
      (split; [eapply same_inputs_trans; [exact H1|];
               eapply same_inputs_trans; [exact Hin|]; repeat split|]);
      (split; [intros url H; apply Hkeep, Hw, H|]);
      intros _ clip H; destruct (Hclips clip H) as [[]|Hl]; exact Hl.
  - split; [repeat split|]. split.
    + intros url H. unfold live, failed. cbv zeta. cbn [snd world]. rewrite Hurls.
      apply in_app_iff. now left.
    + intros _ clip [].
  - split; [repeat split|]. split.
    + intros url H. unfold live. cbn [snd world]. rewrite Hurls. apply in_app_iff. now left.
    + intros _ clip [].
Qed.

Lemma a_run_keeps_inputs_and_handles_witness :
  audioFile (app (ready_page healthy)) <> None
  /\ Forall (fun clip => live (blobUrl clip) (world (snd (generateStory 3 (ready_page healthy)))))
       (generatedClips (app (snd (generateStory 3 (ready_page healthy))))).
Proof.
  refine (conj _ _); [discriminate|].
  apply Forall_forall.
  apply (proj2 (proj2 (a_run_keeps_inputs_and_handles 3 (ready_page healthy)))).
  discriminate.
Defined.

(** ** Playback over any number of clips *)

Open Scope nat_scope.

(** The component after [k] more [ended] events of the video. *)
Definition after_endings (k : nat) (c : AppComponent) : AppComponent :=
  Nat.iter k (fun s => snd (handleVideoEnded s)) c.

(** Where playback stands after [k] endings of a story [c0] being played. *)
Definition playing_at (c0 : AppComponent) (k : nat) (s : AppComponent) : Prop :=
  let N := List.length (generatedClips c0) in
  generatedClips s = generatedClips c0
  /\ currentClipIndex s = Nat.min k (N - 1)
  /\ (exists v, videoPlayer s = Some v /\ src v = currentClipUrl s)
  /\ (exists a, audioPlayer s = Some a /\ audio_playing a = (k <? N)).

Lemma playStory_starts c v a :
  videoPlayer c = Some v -> audioPlayer c = Some a -> generatedClips c <> [] ->
  fst (playStory c) = Returned tt /\ playing_at c 0 (snd (playStory c)).
Proof.
  intros Hv Ha Hclips.
  destruct c as [vp ap st af au chs ctx clips err idx pr calls].
  cbn in Hv, Ha, Hclips. subst vp ap.
  destruct clips as [|clip clips]; [congruence|].
  split; [reflexivity|]. unfold playing_at. cbn. repeat split.
  - eexists. split; reflexivity.
  - eexists. split; reflexivity.
Qed.

Lemma handleVideoEnded_steps c0 k s :
  generatedClips c0 <> [] ->
  playing_at c0 k s ->
  fst (handleVideoEnded s) = Returned tt
  /\ playing_at c0 (S k) (snd (handleVideoEnded s))
  /\ (k + 1 < List.length (generatedClips c0) ->
      audioPlayer (snd (handleVideoEnded s)) = audioPlayer s
      /\ media_calls (snd (handleVideoEnded s))
         = media_calls s
             ++ [VideoSetSrc (match nth_error (generatedClips c0) (k + 1) with
                              | Some clip => blobUrl clip
                              | None => EmptyString
                              end); VideoPlay])
  /\ (List.length (generatedClips c0) <= k + 1 ->
      videoPlayer (snd (handleVideoEnded s)) = videoPlayer s
      /\ media_calls (snd (handleVideoEnded s)) = media_calls s ++ [AudioPause]).
Proof.
  intros Hne (Hclips & Hidx & (v & Hv & Hsrc) & (a & Ha & Hplaying)).
  set (N := List.length (generatedClips c0)) in *.
  assert (HN : 0 < N).
  { subst N. destruct (generatedClips c0); [congruence | simpl; lia]. }
  destruct s as [vp ap st af au chs ctx clips err idx pr calls].
  unfold currentClipUrl in Hsrc.
  cbn [videoPlayer audioPlayer generatedClips currentClipIndex] in Hclips, Hidx, Hv, Ha, Hsrc.
  subst vp ap clips idx.
  unfold handleVideoEnded, playing_at, bind, gets, modify, video_set_src, video_play,
    audio_pause, on_video, on_audio, currentClipUrl.
  cbn [videoPlayer audioPlayer generatedClips currentClipIndex media_calls
         set_currentClipIndex set_videoPlayer set_audioPlayer log_media fst snd].
  fold N.
  destruct (Nat.ltb_spec (Nat.min k (N - 1) + 1) N) as [Hnext|Hlast];
    cbn [videoPlayer audioPlayer generatedClips currentClipIndex media_calls
           set_currentClipIndex set_videoPlayer set_audioPlayer log_media fst snd
           src audio_playing].
  - assert (Hk : k + 1 < N) by lia.
    replace (Nat.min k (N - 1) + 1) with (k + 1) by lia.
    split; [reflexivity|]. split; [|split].
    + split; [reflexivity|]. split; [lia|]. split.
      * eexists. split; [reflexivity|].
        replace (Nat.min (S k) (N - 1)) with (k + 1) by lia. reflexivity.
      * exists a. split; [reflexivity|]. rewrite Hplaying.
        destruct (Nat.ltb_spec k N), (Nat.ltb_spec (S k) N); try reflexivity; lia.
    + intros _. split; [reflexivity|].
      rewrite <- app_assoc. reflexivity.
    + intro H. lia.
  - assert (Hk : N <= k + 1) by lia.
    split; [reflexivity|]. split; [|split].
    + split; [reflexivity|]. split; [lia|]. split.
      * exists v. split; [reflexivity|]. rewrite Hsrc.
        replace (Nat.min (S k) (N - 1)) with (Nat.min k (N - 1)) by lia. reflexivity.
      * eexists. split; [reflexivity|]. cbn [audio_playing].
        destruct (Nat.ltb_spec (S k) N); [lia | reflexivity].
    + intro H. lia.
    + intros _. split; reflexivity.
Qed.

Lemma after_endings_playing c v a (k : nat) :
  videoPlayer c = Some v -> audioPlayer c = Some a -> generatedClips c <> [] ->
  playing_at c k (after_endings k (snd (playStory c))).
Proof.
  intros Hv Ha Hne. induction k as [|k IH].
  - apply (playStory_starts c v a Hv Ha Hne).
  - cbn [after_endings Nat.iter]. fold (after_endings k (snd (playStory c))).
    apply (handleVideoEnded_steps c k _ Hne IH).
Qed.

(** X24. Playback over any story. With both players present and [N >= 1]
    clips, after [playStory] and [k] endings of the video the clip index is
    [min k (N - 1)], never out of range, the video source is the handle of
    the clip at that index, and the audio is playing exactly while
    [k < N]. Each of the first [N - 1] endings assigns the next clip and
    plays the video without touching the audio; every later ending only
    pauses the audio and leaves the video as it is. No ending throws. *)
Theorem playback_walks_the_clips c v a (k : nat) :
  videoPlayer c = Some v -> audioPlayer c = Some a -> generatedClips c <> [] ->
  let N := List.length (generatedClips c) in
  let s := after_endings k (snd (playStory c)) in
  currentClipIndex s = Nat.min k (N - 1)
  /\ currentClipIndex s < N
  /\ option_map src (videoPlayer s)
     = option_map blobUrl (nth_error (generatedClips c) (Nat.min k (N - 1)))
  /\ option_map audio_playing (audioPlayer s) = Some (k <? N)
  /\ fst (handleVideoEnded s) = Returned tt
  /\ (k + 1 < N ->
      audioPlayer (after_endings (S k) (snd (playStory c))) = audioPlayer s
      /\ media_calls (after_endings (S k) (snd (playStory c)))
         = media_calls s
             ++ [VideoSetSrc (match nth_error (generatedClips c) (k + 1) with
                              | Some clip => blobUrl clip
                              | None => EmptyString
                              end); VideoPlay])
  /\ (N <= k + 1 ->
      videoPlayer (after_endings (S k) (snd (playStory c))) = videoPlayer s
      /\ media_calls (after_endings (S k) (snd (playStory c)))
         = media_calls s ++ [AudioPause]).
Proof.
  intros Hv Ha Hne N s.
  pose proof (after_endings_playing c v a k Hv Ha Hne) as Hat. fold s in Hat.
  destruct (handleVideoEnded_steps c k s Hne Hat) as (Hret & _ & Hadvance & Hfinish).
  destruct Hat as (Hclips & Hidx & (v' & Hv' & Hsrc) & (a' & Ha' & Hplaying)).
  fold N in Hidx, Hplaying.
  assert (HN : 0 < N).
  { subst N. destruct (generatedClips c); [congruence | simpl; lia]. }
  split; [exact Hidx|]. split; [lia|]. split.
  { rewrite Hv'. cbn [option_map]. rewrite Hsrc. unfold currentClipUrl.
    rewrite Hclips, Hidx.
    destruct (nth_error (generatedClips c) (Nat.min k (N - 1))) eqn:E; [reflexivity|].
    apply nth_error_None in E. fold N in E. lia. }
  split; [rewrite Ha'; cbn [option_map]; now rewrite Hplaying|].
  split; [exact Hret|]. split; [exact Hadvance | exact Hfinish].
Qed.

Lemma playback_walks_the_clips_witness :
  let s := after_endings 5 (snd (playStory three_clip_player)) in
  currentClipIndex s = Nat.min 5 (3 - 1)
  /\ currentClipIndex s < 3
  /\ option_map src (videoPlayer s)
     = option_map blobUrl (nth_error (generatedClips three_clip_player) (Nat.min 5 (3 - 1)))
  /\ option_map audio_playing (audioPlayer s) = Some (5 <? 3).
Proof.
  pose proof (playback_walks_the_clips three_clip_player
                {| src := EmptyString; video_playing := false |}
                {| currentTime := of_Z 0; audio_playing := false |} 5
                eq_refl eq_refl ltac:(discriminate)) as H.
  cbv zeta in H. destruct H as (H1 & H2 & H3 & H4 & _).
  cbv zeta. repeat apply conj; assumption.
Defined.

(** X25. [playStory] needs both players and a clip: with no clip, or with
    either player missing, it changes nothing and calls nothing. *)
Theorem play_needs_players_and_a_clip (c : AppComponent) :
  generatedClips c = [] \/ videoPlayer c = None \/ audioPlayer c = None ->
  playStory c = (Returned tt, c).
Proof.
  intros [H|[H|H]]; unfold playStory; rewrite H;
    try reflexivity; destruct (audioPlayer c); try reflexivity;
    destruct (videoPlayer c); reflexivity.
Qed.

Lemma play_needs_players_and_a_clip_witness :
  playStory (app (ready_page healthy)) = (Returned tt, app (ready_page healthy)).
Proof.
  apply (play_needs_players_and_a_clip (app (ready_page healthy))).
  left. reflexivity.
Defined.

(** X26. A reset does not reset the progress. [startOver] clears the
    service's progress but leaves the component's own progress, and so the
    percentage derived from it, as they were; the constructor's effect,
    which copies only a non-null service progress, then changes nothing.
    The players, the clip index and what the browser holds are left alone
    too. *)
Theorem reset_keeps_the_progress (p : Page) :
  let p' := snd (startOver p) in
  progress (app p') = progress (app p)
  /\ progressPercentage (progress (app p')) = progressPercentage (progress (app p))
  /\ service_progress (world p') = None
  /\ progress_effect p' = (Returned tt, p')
  /\ currentClipIndex (app p') = currentClipIndex (app p)
  /\ videoPlayer (app p') = videoPlayer (app p)
  /\ audioPlayer (app p') = audioPlayer (app p)
  /\ media_calls (app p') = media_calls (app p).
Proof.
  cbv zeta. unfold startOver, addCharacter, bind, update, service, progress_set, modify, now.
  cbn [app world fst snd]. repeat split.
Qed.

(** After a complete three-clip run and a reset the bar still reads 100%. *)
Example progress_after_reset :
  let p := snd (startOver (snd (generateStory 3 (ready_page healthy)))) in
  status (app p) = idle
  /\ progressPercentage (progress (app p)) = of_Z 100.
Proof. vm_compute. split; reflexivity. Qed.
